(** * readline: the rune buffer and the terminal input loop

    A shallow embedding of the line-editing core of the readline package
    (package [runeutil], the [RuneBuffer], and package [readline], the
    [Terminal] and its [ioloop]) together with the properties of the
    specification that were checked against it.

    Go values are modelled as follows.
    - [int], [rune] and [byte] are integers in [Z].  The only arithmetic the
      code does on [int] is on slice lengths and on a cursor bounded by them,
      so no operation leaves the range of a 64-bit [int].
    - A [[]rune] is a slice header (backing array, offset, length, capacity)
      over a store of backing arrays: [append], [copy], re-slicing and index
      assignment act on the store, so two headers over one array (the
      buffer and its backup) see each other's writes.
    - A run of a method either returns, panics (an index or slice bound out
      of range) or does not finish (the loop of [getBackspaceSequence]). *)

From Stdlib Require Import ZArith Lia Bool Ascii String DecimalString.
From stdpp Require Import base option list gmap.

Local Open Scope Z_scope.

(** ** Outcomes of a run *)

Inductive outcome (A : Type) : Type :=
| Ok (a : A)
| Panic
| Hang.
Arguments Ok {A} a.
Arguments Panic {A}.
Arguments Hang {A}.

Definition obind {A B} (x : outcome A) (f : A -> outcome B) : outcome B :=
  match x with
  | Ok a => f a
  | Panic => Panic
  | Hang => Hang
  end.

(** A method with receiver state [S]. *)
Definition M (S A : Type) : Type := S -> outcome (A * S).

Definition ret {S A} (a : A) : M S A := fun s => Ok (a, s).

Definition bind {S A B} (m : M S A) (k : A -> M S B) : M S B :=
  fun s => match m s with
           | Ok (a, s') => k a s'
           | Panic => Panic
           | Hang => Hang
           end.

Definition get {S} : M S S := fun s => Ok (s, s).
Definition put {S} (s : S) : M S unit := fun _ => Ok (tt, s).
Definition modify {S} (f : S -> S) : M S unit := fun s => Ok (tt, f s).
Definition lift {S A} (x : outcome A) : M S A :=
  fun s => match x with Ok a => Ok (a, s) | Panic => Panic | Hang => Hang end.
Definition panic {S A} : M S A := fun _ => Panic.

Declare Scope go_scope.
Delimit Scope go_scope with go.
Notation "x <- m ;; k" := (bind m (fun x => k))
  (at level 20, m at level 99, k at level 200, only parsing) : go_scope.
Notation "m ;;; k" := (bind m (fun _ => k))
  (at level 100, k at level 200, right associativity, only parsing) : go_scope.

(** ** The Go runtime: runes, bytes, slices *)

Module gort.

Definition rune := Z.
Definition byte := Z.

(** *** Slices of runes over a store of backing arrays *)

Record slice := Slice { base : nat; off : nat; len : nat; cap : nat }.

Abbreviation heap := (list (list rune)).

(** The nil slice: no elements, no capacity. *)
Definition nil_slice : slice := Slice 0 0 0 0.

Definition array_at (h : heap) (a : nat) : list rune := default [] (h !! a).

(** The elements a slice header shows. *)
Definition elems (h : heap) (s : slice) : list rune :=
  take (len s) (drop (off s) (array_at h (base s))).

(** [len(s)] and [cap(s)] as Go ints. *)
Definition length_of (s : slice) : Z := Z.of_nat (len s).
Definition capacity_of (s : slice) : Z := Z.of_nat (cap s).

(** [s[i]]: panics unless [0 <= i < len(s)]. *)
Definition index (h : heap) (s : slice) (i : Z) : outcome rune :=
  if (0 <=? i) && (i <? length_of s) then
    match array_at h (base s) !! (off s + Z.to_nat i)%nat with
    | Some r => Ok r
    | None => Panic
    end
  else Panic.

(** [s[i] = v]. *)
Definition store (h : heap) (s : slice) (i : Z) (v : rune) : outcome heap :=
  if (0 <=? i) && (i <? length_of s) then
    Ok (<[base s := <[(off s + Z.to_nat i)%nat := v]> (array_at h (base s))]> h)
  else Panic.

(** [s[lo:hi]]: panics unless [0 <= lo <= hi <= cap(s)]. *)
Definition reslice (s : slice) (lo hi : Z) : outcome slice :=
  if (0 <=? lo) && (lo <=? hi) && (hi <=? capacity_of s) then
    Ok (Slice (base s) (off s + Z.to_nat lo) (Z.to_nat (hi - lo))
              (cap s - Z.to_nat lo))
  else Panic.

(** [s[lo:]] and [s[:hi]]. *)
Definition slice_from (s : slice) (lo : Z) : outcome slice :=
  reslice s lo (length_of s).
Definition slice_to (s : slice) (hi : Z) : outcome slice :=
  reslice s 0 hi.

(** Overwrite [arr] from position [p] with [xs]. *)
Definition blit (arr : list rune) (p : nat) (xs : list rune) : list rune :=
  take p arr ++ xs ++ drop (p + length xs) arr.

(** [make([]rune, n, c)]. *)
Definition make (h : heap) (n c : nat) : heap * slice :=
  (h ++ [replicate c 0], Slice (length h) 0 n c).

(** The capacity the runtime picks for a slice that has to grow, from the old
    capacity and the length needed.  It depends on the Go release; [append]
    only relies on its being large enough, which [Nat.max] enforces. *)
Class GoRuntime := { growcap : nat -> nat -> nat }.

(** The same choice for a slice of bytes. *)
Class GoRuntimeBytes := { growcap_bytes : nat -> nat -> nat }.

(** [append(s, xs...)]: in place when the capacity allows, else into a fresh
    array.  The elements [xs] are read before anything is written, as
    [memmove] does for overlapping arguments. *)
Definition append `{GoRuntime} (h : heap) (s : slice) (xs : list rune)
  : heap * slice :=
  let n := (len s + length xs)%nat in
  if (n <=? cap s)%nat then
    (<[base s := blit (array_at h (base s)) (off s + len s) xs]> h,
     Slice (base s) (off s) n (cap s))
  else
    let c := Nat.max n (growcap (cap s) n) in
    (h ++ [elems h s ++ xs ++ replicate (c - n) 0], Slice (length h) 0 n c).

(** [copy(dst, xs)]: copies [min(len(dst), len(xs))] elements and returns
    that number. *)
Definition copy (h : heap) (dst : slice) (xs : list rune) : heap * Z :=
  let n := Nat.min (len dst) (length xs) in
  (<[base dst := blit (array_at h (base dst)) (off dst) (take n xs)]> h,
   Z.of_nat n).

(** *** Well-formed headers *)

Definition slice_wf (h : heap) (s : slice) : Prop :=
  (len s <= cap s)%nat /\ (off s + cap s <= length (array_at h (base s)))%nat.

(** Two headers that cannot see each other's writes. *)
Definition apart (s t : slice) : Prop :=
  cap s = 0%nat \/ cap t = 0%nat \/ base s <> base t.

(** *** Strings, UTF-8 and decimal numerals *)

(** A Go string is its bytes. *)
Definition bytes_of_string (s : string) : list byte :=
  (fun a => Z.of_N (Ascii.N_of_ascii a)) <$> String.list_ascii_of_string s.

Definition RuneError : rune := 0xFFFD.
Definition RuneSelf : Z := 0x80.
Definition MaxRune : rune := 0x10FFFF.

(** [utf8.EncodeRune], which is also the conversion [string(r)]: a rune out
    of range or in the surrogate range is written as [RuneError]. *)
Definition encode3 (r : rune) : list byte :=
  [Z.lor 0xE0 (Z.shiftr r 12);
   Z.lor 0x80 (Z.land (Z.shiftr r 6) 0x3F);
   Z.lor 0x80 (Z.land r 0x3F)].

Definition encode_rune (r : rune) : list byte :=
  if (0 <=? r) && (r <=? 0x7F) then [r]
  else if (0 <=? r) && (r <=? 0x7FF) then
    [Z.lor 0xC0 (Z.shiftr r 6); Z.lor 0x80 (Z.land r 0x3F)]
  else if (r <? 0) || (MaxRune <? r) || ((0xD800 <=? r) && (r <=? 0xDFFF)) then
    encode3 RuneError
  else if r <=? 0xFFFF then encode3 r
  else
    [Z.lor 0xF0 (Z.shiftr r 18);
     Z.lor 0x80 (Z.land (Z.shiftr r 12) 0x3F);
     Z.lor 0x80 (Z.land (Z.shiftr r 6) 0x3F);
     Z.lor 0x80 (Z.land r 0x3F)].

(** [string(rs)] for [rs []rune]. *)
Definition string_of_runes (rs : list rune) : list byte :=
  concat (encode_rune <$> rs).

(** The table [first] of package utf8, read as: the size of the sequence a
    first byte announces and the range its second byte must fall in; [None]
    for a byte that cannot start a sequence of two or more bytes. *)
Definition first (b : byte) : option (nat * Z * Z) :=
  if (0xC2 <=? b) && (b <=? 0xDF) then Some (2%nat, 0x80, 0xBF)
  else if b =? 0xE0 then Some (3%nat, 0xA0, 0xBF)
  else if (0xE1 <=? b) && (b <=? 0xEC) then Some (3%nat, 0x80, 0xBF)
  else if b =? 0xED then Some (3%nat, 0x80, 0x9F)
  else if (0xEE <=? b) && (b <=? 0xEF) then Some (3%nat, 0x80, 0xBF)
  else if b =? 0xF0 then Some (4%nat, 0x90, 0xBF)
  else if (0xF1 <=? b) && (b <=? 0xF3) then Some (4%nat, 0x80, 0xBF)
  else if b =? 0xF4 then Some (4%nat, 0x80, 0x8F)
  else None.

Definition cont (b : byte) : bool := (0x80 <=? b) && (b <=? 0xBF).

(** [utf8.DecodeRune] on a non-empty [p]: the rune and the bytes it took. *)
Definition decode_rune (p0 : byte) (rest : list byte) : rune * nat :=
  match first p0 with
  | None => (if p0 <? RuneSelf then p0 else RuneError, 1%nat)
  | Some (sz, lo, hi) =>
    match rest with
    | [] => (RuneError, 1%nat)
    | b1 :: rest1 =>
      if (b1 <? lo) || (hi <? b1) then (RuneError, 1%nat)
      else if (sz <=? 2)%nat then
        (Z.lor (Z.shiftl (Z.land p0 0x1F) 6) (Z.land b1 0x3F), 2%nat)
      else
        match rest1 with
        | [] => (RuneError, 1%nat)
        | b2 :: rest2 =>
          if negb (cont b2) then (RuneError, 1%nat)
          else if (sz <=? 3)%nat then
            (Z.lor (Z.lor (Z.shiftl (Z.land p0 0x0F) 12)
                          (Z.shiftl (Z.land b1 0x3F) 6))
                   (Z.land b2 0x3F), 3%nat)
          else
            match rest2 with
            | [] => (RuneError, 1%nat)
            | b3 :: _ =>
              if negb (cont b3) then (RuneError, 1%nat)
              else
                (Z.lor (Z.lor (Z.lor (Z.shiftl (Z.land p0 0x07) 18)
                                     (Z.shiftl (Z.land b1 0x3F) 12))
                              (Z.shiftl (Z.land b2 0x3F) 6))
                       (Z.land b3 0x3F), 4%nat)
            end
        end
    end
  end.

(** [[]rune(s)] for a string [s]: runes are decoded one after another, an
    invalid byte giving [RuneError].  The fuel is the number of bytes. *)
Fixpoint runes_of_string_aux (fuel : nat) (s : list byte) : list rune :=
  match fuel, s with
  | S k, b :: rest =>
    let '(r, n) := decode_rune b rest in
    r :: runes_of_string_aux k (drop (n - 1) rest)
  | _, _ => []
  end.

Definition runes_of_string (s : list byte) : list rune :=
  runes_of_string_aux (length s) s.

(** [strconv.Itoa]. *)
Definition Itoa (n : Z) : list byte :=
  bytes_of_string (DecimalString.NilZero.string_of_int (Z.to_int n)).

(** [strings.Repeat(s, count)] panics on a negative count. *)
Definition Repeat (s : list byte) (count : Z) : outcome (list byte) :=
  if count <? 0 then Panic else Ok (concat (replicate (Z.to_nat count) s)).

End gort.

(** ** Errors *)

Inductive error :=
| ErrInvalidScreenWidth (v : Z)   (* wraps the width that was refused *)
| ErrInterrupted
| EOF
| ErrCanceled                     (* the error of a cancelled context *)
| ErrRead (code : nat).           (* any other error of the input source *)

(** ** Package runeutil: the rune buffer *)

Module runeutil.
Import gort.

(** The width and format model the buffer calls into.  Its functions are
    declared in files of the package that are not among the sources, and the
    specification treats them as an external collaborator, so they are
    parameters here, as is the package constant [TabWidth]. *)
Class WidthModel := {
  IsWordBreak : rune -> bool;
  WidthAll : list rune -> Z;
  ColorFilter : list rune -> list rune;
  SplitByLine : Z -> Z -> list rune -> list (list byte);
  TabWidth : Z
}.

Record runeBufferBackup := { bbuf : slice; bidx : Z }.

(** The struct, with the bytes written to [w] so far in place of the writer
    and the store of backing arrays the slices point into.  The mutex is not
    modelled: methods run one after another. *)
Record RuneBuffer := {
  w : list byte;
  prompt : list rune;
  promptWidth : Z;
  mask : rune;
  interactive : bool;
  screenWidth : Z;
  idx : Z;
  buf : slice;
  backup : option runeBufferBackup;
  hadClean : bool;
  lastKill : slice;
  mem : heap
}.

Definition R := M RuneBuffer.

(** Field assignments. *)
Definition with_w (x : list byte) (rb : RuneBuffer) : RuneBuffer :=
  {| w := x; prompt := prompt rb; promptWidth := promptWidth rb;
     mask := mask rb; interactive := interactive rb;
     screenWidth := screenWidth rb; idx := idx rb; buf := buf rb;
     backup := backup rb; hadClean := hadClean rb; lastKill := lastKill rb;
     mem := mem rb |}.
Definition with_prompt (x : list rune) (xw : Z) (rb : RuneBuffer) : RuneBuffer :=
  {| w := w rb; prompt := x; promptWidth := xw;
     mask := mask rb; interactive := interactive rb;
     screenWidth := screenWidth rb; idx := idx rb; buf := buf rb;
     backup := backup rb; hadClean := hadClean rb; lastKill := lastKill rb;
     mem := mem rb |}.
Definition with_mask (x : rune) (rb : RuneBuffer) : RuneBuffer :=
  {| w := w rb; prompt := prompt rb; promptWidth := promptWidth rb;
     mask := x; interactive := interactive rb;
     screenWidth := screenWidth rb; idx := idx rb; buf := buf rb;
     backup := backup rb; hadClean := hadClean rb; lastKill := lastKill rb;
     mem := mem rb |}.
Definition with_interactive (x : bool) (rb : RuneBuffer) : RuneBuffer :=
  {| w := w rb; prompt := prompt rb; promptWidth := promptWidth rb;
     mask := mask rb; interactive := x;
     screenWidth := screenWidth rb; idx := idx rb; buf := buf rb;
     backup := backup rb; hadClean := hadClean rb; lastKill := lastKill rb;
     mem := mem rb |}.
Definition with_screenWidth (x : Z) (rb : RuneBuffer) : RuneBuffer :=
  {| w := w rb; prompt := prompt rb; promptWidth := promptWidth rb;
     mask := mask rb; interactive := interactive rb;
     screenWidth := x; idx := idx rb; buf := buf rb;
     backup := backup rb; hadClean := hadClean rb; lastKill := lastKill rb;
     mem := mem rb |}.
Definition with_idx (x : Z) (rb : RuneBuffer) : RuneBuffer :=
  {| w := w rb; prompt := prompt rb; promptWidth := promptWidth rb;
     mask := mask rb; interactive := interactive rb;
     screenWidth := screenWidth rb; idx := x; buf := buf rb;
     backup := backup rb; hadClean := hadClean rb; lastKill := lastKill rb;
     mem := mem rb |}.
Definition with_buf (x : slice) (rb : RuneBuffer) : RuneBuffer :=
  {| w := w rb; prompt := prompt rb; promptWidth := promptWidth rb;
     mask := mask rb; interactive := interactive rb;
     screenWidth := screenWidth rb; idx := idx rb; buf := x;
     backup := backup rb; hadClean := hadClean rb; lastKill := lastKill rb;
     mem := mem rb |}.
Definition with_backup (x : option runeBufferBackup) (rb : RuneBuffer)
  : RuneBuffer :=
  {| w := w rb; prompt := prompt rb; promptWidth := promptWidth rb;
     mask := mask rb; interactive := interactive rb;
     screenWidth := screenWidth rb; idx := idx rb; buf := buf rb;
     backup := x; hadClean := hadClean rb; lastKill := lastKill rb;
     mem := mem rb |}.
Definition with_hadClean (x : bool) (rb : RuneBuffer) : RuneBuffer :=
  {| w := w rb; prompt := prompt rb; promptWidth := promptWidth rb;
     mask := mask rb; interactive := interactive rb;
     screenWidth := screenWidth rb; idx := idx rb; buf := buf rb;
     backup := backup rb; hadClean := x; lastKill := lastKill rb;
     mem := mem rb |}.
Definition with_lastKill (x : slice) (rb : RuneBuffer) : RuneBuffer :=
  {| w := w rb; prompt := prompt rb; promptWidth := promptWidth rb;
     mask := mask rb; interactive := interactive rb;
     screenWidth := screenWidth rb; idx := idx rb; buf := buf rb;
     backup := backup rb; hadClean := hadClean rb; lastKill := x;
     mem := mem rb |}.
Definition with_mem (x : heap) (rb : RuneBuffer) : RuneBuffer :=
  {| w := w rb; prompt := prompt rb; promptWidth := promptWidth rb;
     mask := mask rb; interactive := interactive rb;
     screenWidth := screenWidth rb; idx := idx rb; buf := buf rb;
     backup := backup rb; hadClean := hadClean rb; lastKill := lastKill rb;
     mem := x |}.

(** The text of the buffer and of the kill slot. *)
Definition text (rb : RuneBuffer) : list rune := elems (mem rb) (buf rb).
Definition killed (rb : RuneBuffer) : list rune := elems (mem rb) (lastKill rb).

(** *** Slice operations of the runtime, run on the buffer's store *)

Definition at_ (s : slice) (i : Z) : R rune :=
  fun rb => obind (index (mem rb) s i) (fun r => Ok (r, rb)).

Definition assign (s : slice) (i : Z) (v : rune) : R unit :=
  fun rb => obind (store (mem rb) s i v) (fun h => Ok (tt, with_mem h rb)).

Definition read (s : slice) : R (list rune) :=
  fun rb => Ok (elems (mem rb) s, rb).

Definition append_ `{GoRuntime} (s : slice) (xs : list rune) : R slice :=
  fun rb => let '(h, s') := append (mem rb) s xs in Ok (s', with_mem h rb).

Definition copy_ (dst : slice) (xs : list rune) : R Z :=
  fun rb => let '(h, n) := copy (mem rb) dst xs in Ok (n, with_mem h rb).

Definition make_ (n c : Z) : R slice :=
  fun rb =>
    if (0 <=? n) && (n <=? c) then
      let '(h, s) := make (mem rb) (Z.to_nat n) (Z.to_nat c) in
      Ok (s, with_mem h rb)
    else Panic.

(** Modelled from the spec: [runeutil.Copy] and [runeutil.CopyAndGrow] are
    declared in a file of the package that is not among the sources, and the
    specification does not describe them.  They are modelled from their names
    and their call sites: [Copy(s)] is a fresh slice holding the elements of
    [s], and [CopyAndGrow(s, n)] is such a copy with room for [n] more
    elements ([setBuf] passes [cap(buf)-len(buf)] to keep the capacity of its
    argument). *)
Definition CopyAndGrow (s : list rune) (grow : Z) : R slice :=
  fun rb =>
    if grow <? 0 then Panic
    else
      let h := mem rb in
      Ok (Slice (length h) 0 (length s) (length s + Z.to_nat grow),
          with_mem (h ++ [s ++ replicate (Z.to_nat grow) 0]) rb).

Definition Copy (s : list rune) : R slice := CopyAndGrow s 0.


Section Methods.
Context `{GoRuntime} `{WidthModel}.
Local Open Scope go_scope.

Definition setPrompt (p : list byte) : R unit :=
  modify (fun rb =>
    let rs := runes_of_string p in
    with_prompt rs (WidthAll (ColorFilter rs)) rb).

Definition setMask (m : rune) : R unit := modify (with_mask m).

Definition setInteractive (on : bool) : R unit := modify (with_interactive on).

Definition setScreenWidth (v : Z) : R (option error) :=
  if v <=? 0 then ret (Some (ErrInvalidScreenWidth v))
  else modify (with_screenWidth v);;; ret None.

(** The zero value [&RuneBuffer{w: w}]. *)
Definition zero (out : list byte) : RuneBuffer :=
  {| w := out; prompt := []; promptWidth := 0; mask := 0;
     interactive := false; screenWidth := 0; idx := 0; buf := nil_slice;
     backup := None; hadClean := false; lastKill := nil_slice; mem := [] |}.

(** [NewRuneBuffer]: the buffer, or the error of [setScreenWidth]. *)
Definition NewRuneBuffer (out p : list byte) (m : rune) (on : bool) (sw : Z)
  : outcome (RuneBuffer + error) :=
  obind ((setPrompt p;;; setMask m;;; setInteractive on;;; setScreenWidth sw)
           (zero out))
        (fun '(err, rb) =>
           match err with
           | Some e => Ok (inr e)
           | None => Ok (inl rb)
           end).

Definition Index : R Z := rb <- get;; ret (idx rb).

Definition Len : R Z := rb <- get;; ret (length_of (buf rb)).

(** [Runes] hands a copy to its caller: the caller gets the elements. *)
Definition Runes : R (list rune) := rb <- get;; read (buf rb).

Definition String_ : R (list byte) := rs <- Runes;; ret (string_of_runes rs).

Definition Bytes : R (list byte) := String_.

(** *** Rendering *)

Definition write (p : list byte) : R unit :=
  modify (fun rb => with_w (w rb ++ p) rb).

Definition getSplitByLine (s : list rune) : R (list (list byte)) :=
  rb <- get;; ret (SplitByLine (promptWidth rb) (screenWidth rb) s).

Definition idxLine : R Z :=
  rb <- get;;
  pre <- lift (slice_to (buf rb) (idx rb));;
  s <- read pre;;
  sp <- getSplitByLine s;;
  ret (Z.of_nat (length sp) - 1).

(** [sp[len(sp)-1]] panics on an empty [sp]. *)
Definition isInLineEdge : R bool :=
  rb <- get;;
  s <- read (buf rb);;
  sp <- getSplitByLine s;;
  match last sp with
  | Some l => ret (Z.of_nat (length l) =? 0)
  | None => panic
  end.

(** The first loop of [getBackspaceSequence], which fills the map [sep].
    [Hang] when the loop has not finished after [fuel] tests. *)
Fixpoint sep_loop (fuel : nat) (i size pw sw : Z) (sep : gmap Z bool)
  : outcome (gmap Z bool) :=
  match fuel with
  | O => Hang
  | S k =>
    if i <? size then
      let i1 := if i =? 0 then i - pw else i in
      let i2 := i1 + sw in
      sep_loop k (i2 + 1) size pw sw (<[i2 := true]> sep)
    else Ok sep
  end.

Definition ESC : byte := 27.

(** ["\033[A" + "\r" + "\033[" + strconv.Itoa(screenWidth) + "C"] *)
Definition line_up (sw : Z) : list byte :=
  (ESC :: bytes_of_string "[A") ++ [13] ++ (ESC :: bytes_of_string "[")
    ++ Itoa sw ++ bytes_of_string "C".

(** The second loop: [n] rounds, from index [i] down. *)
Fixpoint bs_loop (n : nat) (i sw : Z) (sep : gmap Z bool) : list byte :=
  match n with
  | O => []
  | S k =>
    (if default false (sep !! i) then line_up sw else [8])
      ++ bs_loop k (i - 1) sw sep
  end.

Definition getBackspaceSequence : R (list byte) :=
  rb <- get;;
  s <- read (buf rb);;
  let size := WidthAll s in
  let fuel := (Z.to_nat size + Z.to_nat (Z.abs (promptWidth rb)) + 1)%nat in
  sep <- lift (sep_loop fuel 0 size (promptWidth rb) (screenWidth rb) ∅);;
  ret (bs_loop (Z.to_nat (length_of (buf rb) - idx rb)) (length_of (buf rb))
               (screenWidth rb) sep).

(** The range loop of [outputPrint]: a tab is [TabWidth] spaces. *)
Fixpoint print_runes (s : list rune) : outcome (list byte) :=
  match s with
  | [] => Ok []
  | c :: s' =>
    obind (if c =? 9 then Repeat [32] TabWidth else Ok (encode_rune c))
          (fun x => obind (print_runes s') (fun y => Ok (x ++ y)))
  end.

Definition outputPrint : R (list byte) :=
  rb <- get;;
  let out := string_of_runes (prompt rb) in
  out <-
    (if negb (mask rb =? 0) && (0 <? length_of (buf rb)) then
       stars <- lift (Repeat (encode_rune (mask rb)) (length_of (buf rb) - 1));;
       c <- at_ (buf rb) (length_of (buf rb) - 1);;
       let out := out ++ stars
                      ++ (if c =? 10 then [10] else encode_rune (mask rb)) in
       if idx rb <? length_of (buf rb) then
         bs <- getBackspaceSequence;; ret (out ++ bs)
       else ret out
     else
       s <- read (buf rb);;
       body <- lift (print_runes s);;
       edge <- isInLineEdge;;
       ret (out ++ body ++ (if edge : bool then [32; 8] else [])));;
  (* cursor position *)
  if idx rb <? length_of (buf rb) then
    bs <- getBackspaceSequence;; ret (out ++ bs)
  else ret out.

Definition print : R unit :=
  modify (with_hadClean false);;;
  out <- outputPrint;;
  write out.

Definition ESC_J : list byte := ESC :: bytes_of_string "[J".
Definition ESC_2K : list byte := ESC :: bytes_of_string "[2K".
Definition ESC_A : list byte := ESC :: bytes_of_string "[A".

Definition outputCleanWithIdxLine (idxLine : Z) : R (list byte) :=
  rb <- get;;
  if screenWidth rb <=? 0 then
    r <- lift (Repeat [13; 8] (promptWidth rb + length_of (buf rb)));;
    ret (r ++ ESC_J)
  else
    ret (ESC_J ++
         (if idxLine =? 0 then ESC_2K ++ [13]
          else concat (replicate (Z.to_nat idxLine) (ESC_2K ++ [13] ++ ESC_A))
                 ++ ESC_2K ++ [13])).

Definition cleanWithIdxLine (idxLine : Z) : R unit :=
  rb <- get;;
  if hadClean rb || negb (interactive rb) then ret tt
  else
    modify (with_hadClean true);;;
    out <- outputCleanWithIdxLine idxLine;;
    write out.

Definition clean : R unit := l <- idxLine;; cleanWithIdxLine l.

(** [Refresh(f)]: the closure [f] between an erase and a redraw when the
    buffer is interactive, alone when it is not.  A panic of [f] ends the
    program; what the deferred [print] writes on the way out is not kept. *)
Definition Refresh {A} (f : R A) : R A :=
  rb <- get;;
  if negb (interactive rb) then f
  else clean;;; a <- f;; print;;; ret a.

Definition SetPrompt (p : list byte) : R unit := Refresh (setPrompt p).

Definition SetMask (m : rune) : R unit := Refresh (setMask m).

Definition SetInteractive (on : bool) : R unit :=
  setInteractive on;;; Refresh (ret tt).

Definition SetScreenWidth (v : Z) : R (option error) :=
  Refresh (setScreenWidth v).

(** *** Editing *)

(** [setBuf(idx, buf)], for an argument slice with elements [b] and
    [spare = cap(buf) - len(buf)]. *)
Definition setBuf (i : Z) (b : list rune) (spare : Z) : R unit :=
  modify (with_idx i);;;
  c <- CopyAndGrow b spare;;
  modify (with_buf c).

Definition Set_ (i : Z) (b : list rune) (spare : Z) : R unit :=
  Refresh (setBuf i b spare).

Definition SetRunes (s : list rune) (spare : Z) : R unit :=
  Set_ (Z.of_nat (length s)) s spare.

Definition resetBuf : R unit :=
  modify (with_idx 0);;;
  rb <- get;;
  b <- lift (slice_to (buf rb) 0);;
  modify (with_buf b).

Definition Reset : R unit := Refresh resetBuf.

Definition ResetBuf : R unit := resetBuf.

Definition Backup : R unit :=
  modify (fun rb => with_backup (Some {| bbuf := buf rb; bidx := idx rb |}) rb).

Definition Restore : R unit :=
  Refresh (
    rb <- get;;
    match backup rb with
    | None => ret tt
    | Some b => modify (with_buf (bbuf b));;; modify (with_idx (bidx b))
    end).

Definition pushKill (s : slice) : R unit :=
  xs <- read s;;
  c <- Copy xs;;
  modify (with_lastKill c).

Definition add_idx (d : Z) : R unit :=
  modify (fun rb => with_idx (idx rb + d) rb).

Definition WriteRunes (s : list rune) : R unit :=
  Refresh (
    rb <- get;;
    rem <- lift (slice_from (buf rb) (idx rb));;
    t <- CopyAndGrow s (length_of rem);;
    xs <- read rem;;
    tail <- append_ t xs;;
    pre <- lift (slice_to (buf rb) (idx rb));;
    ys <- read tail;;
    b <- append_ pre ys;;
    modify (with_buf b);;;
    add_idx (Z.of_nat (length s))).

Definition WriteRune (r : rune) : R unit := WriteRunes [r].

Definition WriteString (s : list byte) : R unit :=
  WriteRunes (runes_of_string s).

Definition WriteBytes (p : list byte) : R unit := WriteString p.

Definition InsertRunes (s : list rune) : R unit :=
  Refresh (
    rb <- get;;
    rem <- lift (slice_from (buf rb) (idx rb));;
    n <- copy_ rem s;;
    b <- append_ (buf rb) (drop (Z.to_nat n) s);;
    modify (with_buf b);;;
    add_idx (Z.of_nat (length s))).

Definition InsertRune (r : rune) : R unit := InsertRunes [r].

Definition InsertString (s : list byte) : R unit :=
  InsertRunes (runes_of_string s).

Definition InsertBytes (p : list byte) : R unit := InsertString p.

Definition MoveToLineStart : R bool :=
  Refresh (
    rb <- get;;
    if idx rb =? 0 then ret false
    else modify (with_idx 0);;; ret true).

Definition MoveToLineEnd : R bool :=
  Refresh (
    rb <- get;;
    if idx rb =? length_of (buf rb) then ret false
    else modify (with_idx (length_of (buf rb)));;; ret true).

Definition MoveBackward : R bool :=
  Refresh (
    rb <- get;;
    if idx rb =? 0 then ret false
    else add_idx (-1);;; ret true).

Definition MoveForward : R bool :=
  Refresh (
    rb <- get;;
    if idx rb =? length_of (buf rb) then ret false
    else add_idx 1;;; ret true).

(** The test [!IsWordBreak(rb.buf[i]) && IsWordBreak(rb.buf[i-1])] that the
    word motions and word kills share; [&&] reads [rb.buf[i-1]] only when its
    left operand holds. *)
Definition wordStart (b : slice) (i : Z) : R bool :=
  c <- at_ b i;;
  if IsWordBreak c then ret false
  else p <- at_ b (i - 1);; ret (IsWordBreak p).

(** [for i := n; i > 0; i-- { if wordStart(i) { return i } }] *)
Fixpoint scan_down (n : nat) (b : slice) : R (option Z) :=
  match n with
  | O => ret None
  | S k =>
    t <- wordStart b (Z.of_nat n);;
    if t : bool then ret (Some (Z.of_nat n)) else scan_down k b
  end.

(** [for ; i < len; i++ { if wordStart(i) { return i } }], [n] rounds. *)
Fixpoint scan_up (n : nat) (i : Z) (b : slice) : R (option Z) :=
  match n with
  | O => ret None
  | S k =>
    t <- wordStart b i;;
    if t : bool then ret (Some i) else scan_up k (i + 1) b
  end.

Definition MoveToPrevWord : R bool :=
  Refresh (
    rb <- get;;
    if idx rb =? 0 then ret false
    else
      r <- scan_down (Z.to_nat (idx rb - 1)) (buf rb);;
      match r with
      | Some i => modify (with_idx i);;; ret true
      | None => modify (with_idx 0);;; ret true
      end).

Definition MoveToNextWord : R bool :=
  Refresh (
    rb <- get;;
    r <- scan_up (Z.to_nat (length_of (buf rb) - (idx rb + 1))) (idx rb + 1)
                 (buf rb);;
    match r with
    | Some i => modify (with_idx i);;; ret true
    | None => modify (with_idx (length_of (buf rb)));;; ret true
    end).

(** The test [IsWordBreak(rb.buf[i]) && !IsWordBreak(rb.buf[i-1])]. *)
Definition wordEnd (b : slice) (i : Z) : R bool :=
  c <- at_ b i;;
  if IsWordBreak c then p <- at_ b (i - 1);; ret (negb (IsWordBreak p))
  else ret false.

Fixpoint scan_end (n : nat) (i : Z) (b : slice) : R (option Z) :=
  match n with
  | O => ret None
  | S k =>
    t <- wordEnd b i;;
    if t : bool then ret (Some i) else scan_end k (i + 1) b
  end.

Definition MoveToEndWord : R bool :=
  Refresh (
    rb <- get;;
    if idx rb =? length_of (buf rb) then ret false
    else
      c <- at_ (buf rb) (idx rb);;
      (if IsWordBreak c then ret tt
       else
         n <- at_ (buf rb) (idx rb + 1);;
         if IsWordBreak n then add_idx 1 else ret tt);;;
      rb <- get;;
      r <- scan_end (Z.to_nat (length_of (buf rb) - (idx rb + 1))) (idx rb + 1)
                    (buf rb);;
      match r with
      | Some i => modify (with_idx (i - 1));;; ret true
      | None => modify (with_idx (length_of (buf rb)));;; ret true
      end).

(** [for i := n - 1; i >= 0; i-- { if rb.buf[i] == ch { return i } }] *)
Fixpoint find_down (n : nat) (ch : rune) (b : slice) : R (option Z) :=
  match n with
  | O => ret None
  | S k =>
    c <- at_ b (Z.of_nat k);;
    if c =? ch then ret (Some (Z.of_nat k)) else find_down k ch b
  end.

Fixpoint find_up (n : nat) (i : Z) (ch : rune) (b : slice) : R (option Z) :=
  match n with
  | O => ret None
  | S k =>
    c <- at_ b i;;
    if c =? ch then ret (Some i) else find_up k (i + 1) ch b
  end.

Definition MoveTo (ch : rune) (prevChar reverse : bool) : R bool :=
  Refresh (
    rb <- get;;
    if reverse then
      r <- find_down (Z.to_nat (idx rb)) ch (buf rb);;
      match r with
      | Some i =>
        modify (with_idx i);;;
        (if prevChar then add_idx 1 else ret tt);;;
        ret true
      | None => ret false
      end
    else
      r <- find_up (Z.to_nat (length_of (buf rb) - (idx rb + 1))) (idx rb + 1)
                   ch (buf rb);;
      match r with
      | Some i =>
        modify (with_idx i);;;
        (if prevChar then add_idx (-1) else ret tt);;;
        ret true
      | None => ret false
      end).

(** [rb.buf = append(rb.buf[:lo], rb.buf[hi:]...)] *)
Definition cut (lo hi : Z) : R unit :=
  rb <- get;;
  pre <- lift (slice_to (buf rb) lo);;
  post <- lift (slice_from (buf rb) hi);;
  xs <- read post;;
  b <- append_ pre xs;;
  modify (with_buf b).

Definition Backspace : R bool :=
  Refresh (
    rb <- get;;
    if idx rb =? 0 then ret false
    else
      add_idx (-1);;;
      rb <- get;;
      cut (idx rb) (idx rb + 1);;;
      ret true).

Definition Transpose : R bool :=
  Refresh (
    rb <- get;;
    if length_of (buf rb) <=? 1 then ret false
    else if idx rb =? 0 then ret false
    else
      (if length_of (buf rb) <=? idx rb
       then modify (with_idx (length_of (buf rb) - 1)) else ret tt);;;
      rb <- get;;
      x <- at_ (buf rb) (idx rb - 1);;
      y <- at_ (buf rb) (idx rb);;
      assign (buf rb) (idx rb) x;;;
      assign (buf rb) (idx rb - 1) y;;;
      add_idx 1;;;
      ret true).

Definition Erase : R bool :=
  Refresh (
    rb <- get;;
    if length_of (buf rb) =? 0 then ret false
    else
      modify (with_idx 0);;;
      all <- lift (slice_from (buf rb) 0);;
      pushKill all;;;
      b <- lift (slice_to (buf rb) 0);;
      modify (with_buf b);;;
      ret true).

Definition Delete : R bool :=
  Refresh (
    rb <- get;;
    if idx rb =? length_of (buf rb) then ret false
    else
      one <- lift (reslice (buf rb) (idx rb) (idx rb + 1));;
      pushKill one;;;
      cut (idx rb) (idx rb + 1);;;
      ret true).

(** [for init < len(rb.buf) && IsWordBreak(rb.buf[init]) { init++ }] *)
Fixpoint skip_breaks (n : nat) (i : Z) (b : slice) : R Z :=
  match n with
  | O => ret i
  | S k =>
    c <- at_ b i;;
    if IsWordBreak c then skip_breaks k (i + 1) b else ret i
  end.

Definition KillWord : R bool :=
  Refresh (
    rb <- get;;
    if idx rb =? length_of (buf rb) then ret false
    else
      init <- skip_breaks (Z.to_nat (length_of (buf rb) - idx rb)) (idx rb)
                          (buf rb);;
      r <- scan_up (Z.to_nat (length_of (buf rb) - (init + 1))) (init + 1)
                   (buf rb);;
      match r with
      | Some i =>
        span <- lift (reslice (buf rb) (idx rb) (i - 1));;
        pushKill span;;;
        cut (idx rb) (i - 1);;;
        ret true
      | None =>
        span <- lift (slice_from (buf rb) (idx rb));;
        pushKill span;;;
        b <- lift (slice_to (buf rb) (idx rb));;
        modify (with_buf b);;;
        ret true
      end).

Definition KillWordFront : R bool :=
  Refresh (
    rb <- get;;
    if idx rb =? 0 then ret false
    else
      r <- scan_down (Z.to_nat (idx rb - 1)) (buf rb);;
      match r with
      | Some i =>
        span <- lift (reslice (buf rb) i (idx rb));;
        pushKill span;;;
        cut i (idx rb);;;
        modify (with_idx i);;;
        ret true
      | None =>
        b <- lift (slice_to (buf rb) 0);;
        modify (with_buf b);;;
        modify (with_idx 0);;;
        ret true
      end).

Definition Kill : R bool :=
  Refresh (
    rb <- get;;
    if idx rb =? length_of (buf rb) then ret false
    else
      span <- lift (slice_from (buf rb) (idx rb));;
      pushKill span;;;
      b <- lift (slice_to (buf rb) (idx rb));;
      modify (with_buf b);;;
      ret true).

Definition KillFront : R bool :=
  Refresh (
    rb <- get;;
    if idx rb =? 0 then ret false
    else
      let length := length_of (buf rb) - idx rb in
      span <- lift (slice_to (buf rb) (idx rb));;
      pushKill span;;;
      dst <- lift (slice_to (buf rb) length);;
      src <- lift (slice_from (buf rb) (idx rb));;
      xs <- read src;;
      _ <- copy_ dst xs;;
      modify (with_idx 0);;;
      b <- lift (slice_to (buf rb) length);;
      modify (with_buf b);;;
      ret true).

Definition Yank : R bool :=
  rb <- get;;
  if length_of (lastKill rb) =? 0 then ret false
  else
    Refresh (
      rb <- get;;
      b <- make_ 0 (length_of (buf rb) + length_of (lastKill rb));;
      pre <- lift (slice_to (buf rb) (idx rb));;
      xs <- read pre;;
      b <- append_ b xs;;
      ks <- read (lastKill rb);;
      b <- append_ b ks;;
      post <- lift (slice_from (buf rb) (idx rb));;
      ys <- read post;;
      b <- append_ b ys;;
      modify (with_buf b);;;
      add_idx (length_of (lastKill rb));;;
      ret true).

Definition Clear : R unit :=
  write (ESC :: bytes_of_string "[H");;;
  Refresh (ret tt).

End Methods.

End runeutil.

(** ** Package readline: the terminal and its input loop *)

Module readline.
Import gort runeutil.

(** *** chars.go *)

Definition CharCtrlA : byte := 0x01.
Definition CharLineStart : byte := CharCtrlA.
Definition CharCtrlB : byte := 0x02.
Definition CharBackward : byte := CharCtrlB.
Definition CharCtrlC : byte := 0x03.
Definition CharInterrupt : byte := CharCtrlC.
Definition CharCtrlD : byte := 0x04.
Definition CharDelete : byte := CharCtrlD.
Definition CharCtrlE : byte := 0x05.
Definition CharLineEnd : byte := CharCtrlE.
Definition CharCtrlF : byte := 0x06.
Definition CharForward : byte := CharCtrlF.
Definition CharCtrlG : byte := 0x07.
Definition CharBell : byte := CharCtrlG.
Definition CharCtrlH : byte := 0x08.
Definition CharCtrlI : byte := 0x09.
Definition CharTab : byte := CharCtrlI.
Definition CharCtrlJ : byte := 0x0A.
Definition CharCtrlK : byte := 0x0B.
Definition CharKill : byte := CharCtrlK.
Definition CharCtrlL : byte := 0x0C.
Definition CharCtrlM : byte := 0x0D.
Definition CharEnter : byte := CharCtrlM.
Definition CharCtrlN : byte := 0x0E.
Definition CharNext : byte := CharCtrlN.
Definition CharCtrlO : byte := 0x0F.
Definition CharCtrlP : byte := 0x10.
Definition CharPrev : byte := CharCtrlP.
Definition CharCtrlQ : byte := 0x11.
Definition CharCtrlR : byte := 0x12.
Definition CharBckSearch : byte := CharCtrlR.
Definition CharCtrlS : byte := 0x13.
Definition CharFwdSearch : byte := CharCtrlS.
Definition CharCtrlT : byte := 0x14.
Definition CharTranspose : byte := CharCtrlT.
Definition CharCtrlU : byte := 0x15.
Definition CharCtrlV : byte := 0x16.
Definition CharCtrlW : byte := 0x17.
Definition CharCtrlX : byte := 0x18.
Definition CharCtrlY : byte := 0x19.
Definition CharCtrlZ : byte := 0x1A.
Definition CharEsc : byte := 0x1B.
Definition CharEscapeEx : byte := 0x5B.
Definition CharBackspace : byte := 0x7F.

(** The constants terminal.go names that chars.go does not declare: their
    declarations are in a file that is not among the sources, so they are
    parameters. *)
Class Keys := {
  CharEscape : byte;
  CharBackspaceEx : byte;
  CharFeed : byte;
  CharReturn : byte;
  CharClear : byte;
  CharKillFront : byte;
  CharKillWordFront : byte;
  CharYank : byte
}.

(** What the escape decoder hands to the loop.  The type is declared with the
    decoder, in a file that is not among the sources; these are the fields
    terminal.go reads. *)
Record escapeKeyPair := {
  Char : byte;
  Type_ : byte;
  Attribute : Z;
  Attribute2 : Z;
  Remainder : list byte
}.

(** The functions of the package that terminal.go calls and that are not
    among the sources. *)
Class Decoder := {
  decodeEscapeKeyPair : list byte -> option escapeKeyPair;
  encodeControlChars : list byte -> list byte
}.

Record lineResult := { Line : list byte; Err : option error }.

(** The fields of [Terminal] the input loop works on.  [lineResultCh] is the
    content of the channel of capacity one; [ioErr] is [Some e] once the loop
    has stored its final error.  The standard output the terminal writes its
    bell to is the writer of the rune buffer. *)
Record Terminal := {
  rb : RuneBuffer;
  lineResultCh : list lineResult;
  ioErr : option (option error);
  ioInsMode : bool
}.

Definition T := M Terminal.

Definition with_rb (x : RuneBuffer) (t : Terminal) : Terminal :=
  {| rb := x; lineResultCh := lineResultCh t; ioErr := ioErr t;
     ioInsMode := ioInsMode t |}.
Definition with_lineResultCh (x : list lineResult) (t : Terminal) : Terminal :=
  {| rb := rb t; lineResultCh := x; ioErr := ioErr t;
     ioInsMode := ioInsMode t |}.
Definition with_ioErr (x : option (option error)) (t : Terminal) : Terminal :=
  {| rb := rb t; lineResultCh := lineResultCh t; ioErr := x;
     ioInsMode := ioInsMode t |}.
Definition with_ioInsMode (x : bool) (t : Terminal) : Terminal :=
  {| rb := rb t; lineResultCh := lineResultCh t; ioErr := ioErr t;
     ioInsMode := x |}.

(** A method of the rune buffer called on [t.rb]. *)
Definition on_rb {A} (m : R A) : T A :=
  fun t => obind (m (rb t)) (fun '(a, x) => Ok (a, with_rb x t)).

Section Loop.
Context `{GoRuntime} `{GoRuntimeBytes} `{WidthModel} `{Keys} `{Decoder}.
Local Open Scope go_scope.

(** [select { case t.lineResultCh <- r: default: }] on a channel of
    capacity one. *)
Definition sendLineResult (line : list byte) (e : option error) : T unit :=
  modify (fun t =>
    match lineResultCh t with
    | [] => with_lineResultCh [{| Line := line; Err := e |}] t
    | _ => t
    end).

Definition screenSizeChanged (width height : Z) : T unit :=
  _ <- on_rb (SetScreenWidth width);; ret tt.

Definition write (p : list byte) : T unit := on_rb (runeutil.write p).

Definition bell : T unit := write [CharBell].

Definition or_bell (m : R bool) : T unit :=
  ok <- on_rb m;; if ok : bool then ret tt else bell.

Definition opLineStart : T unit := or_bell MoveToLineStart.
Definition opBackward : T unit := or_bell MoveBackward.
Definition opDelete : T unit := or_bell Delete.
Definition opLineEnd : T unit := or_bell MoveToLineEnd.
Definition opForward : T unit := or_bell MoveForward.
Definition opBackspace : T unit := or_bell Backspace.
Definition opTab : T unit := bell.

Definition opReturn : T unit :=
  _ <- on_rb MoveToLineEnd;;
  on_rb (WriteRune 10);;;
  p <- on_rb Bytes;;
  let p := if (0 <? Z.of_nat (length p)) then take (length p - 1) p else p in
  sendLineResult p None;;;
  on_rb ResetBuf.

Definition opKill : T unit := or_bell Kill.
Definition opClear : T unit := on_rb Clear.
Definition opNext : T unit := ret tt.
Definition opPrev : T unit := ret tt.
Definition opBckSearch : T unit := ret tt.
Definition opFwdSearch : T unit := ret tt.
Definition opTranspose : T unit := or_bell Transpose.
Definition opKillFront : T unit := or_bell KillFront.
Definition opKillWord : T unit := or_bell KillWord.
Definition opKillWordFront : T unit := or_bell KillWordFront.
Definition opYank : T unit := or_bell Yank.
Definition opBackwardWord : T unit := or_bell MoveToPrevWord.
Definition opForwardWord : T unit := or_bell MoveToNextWord.

Definition escapeTilda (k : escapeKeyPair) : T unit :=
  if Attribute2 k <? 0 then
    if Attribute k =? 1 then opLineStart
    else if Attribute k =? 2 then
      modify (fun t => with_ioInsMode (negb (ioInsMode t)) t)
    else if Attribute k =? 3 then opDelete
    else if Attribute k =? 4 then opLineEnd
    else if Attribute k =? 5 then ret tt
    else if Attribute k =? 6 then ret tt
    else if Attribute k =? 7 then opLineStart
    else if Attribute k =? 8 then opLineEnd
    else bell
  else bell.

Definition escapeR (k : escapeKeyPair) : T unit :=
  if (0 <=? Attribute k) && (0 <=? Attribute2 k) then
    screenSizeChanged (Attribute2 k) (Attribute k)
  else bell.

Definition is_char (c : byte) (s : string) : bool :=
  match bytes_of_string s with
  | [x] => c =? x
  | _ => false
  end.

Definition escapeEx (k : escapeKeyPair) : T bool :=
  if Type_ k =? 0 then ret false
  else if is_char (Type_ k) "~" then escapeTilda k;;; ret true
  else if is_char (Type_ k) "R" then escapeR k;;; ret true
  else
    (if (Attribute k <=? 0) && (Attribute2 k <? 0) then
       if is_char (Type_ k) "A" then opPrev
       else if is_char (Type_ k) "B" then opNext
       else if is_char (Type_ k) "C" then opForward
       else if is_char (Type_ k) "D" then opBackward
       else if is_char (Type_ k) "F" then opLineEnd
       else if is_char (Type_ k) "H" then opLineStart
       else bell
     else bell);;;
    ret true.

Definition escape (k : escapeKeyPair) : T bool :=
  if (Char k =? CharBackspace) || (Char k =? CharBackspaceEx) then
    opKillWordFront;;; ret true
  else if Char k =? CharTranspose then opTranspose;;; ret true
  else if Char k =? CharEscape then ret true
  else if is_char (Char k) "O" || is_char (Char k) "[" then escapeEx k
  else if is_char (Char k) "b" then opBackwardWord;;; ret true
  else if is_char (Char k) "d" then opKillWord;;; ret true
  else if is_char (Char k) "f" then opForwardWord;;; ret true
  else bell;;; ret true.

(** What the input source delivers to a read: a byte, a read that fails with
    an interrupted system call, a read that fails with another error, or the
    cancellation of the terminal's context seen at the head of a round. *)
Inductive event :=
| Byte (b : byte)
| Interrupted
| Failed (e : error)
| Cancelled.

(** The variables of [ioloop]: [escBuf] with its capacity, and [err]. *)
Record loop := {
  term : Terminal;
  escaped : bool;
  escBuf : list byte;
  escCap : nat;
  err : option error
}.

Definition with_term (x : Terminal) (l : loop) : loop :=
  {| term := x; escaped := escaped l; escBuf := escBuf l; escCap := escCap l;
     err := err l |}.
Definition with_escaped (x : bool) (l : loop) : loop :=
  {| term := term l; escaped := x; escBuf := escBuf l; escCap := escCap l;
     err := err l |}.
Definition with_escBuf (x : list byte) (c : nat) (l : loop) : loop :=
  {| term := term l; escaped := escaped l; escBuf := x; escCap := c;
     err := err l |}.
Definition with_err (x : option error) (l : loop) : loop :=
  {| term := term l; escaped := escaped l; escBuf := escBuf l;
     escCap := escCap l; err := x |}.

(** [escBuf = append(escBuf, p...)] *)
Definition esc_append (p : list byte) (l : loop) : loop :=
  let n := (length (escBuf l) + length p)%nat in
  if (n <=? escCap l)%nat then with_escBuf (escBuf l ++ p) (escCap l) l
  else with_escBuf (escBuf l ++ p) (Nat.max n (growcap_bytes (escCap l) n)) l.

(** The state at the start of [ioloop]: [escBuf := make([]byte, 0, 16)]. *)
Definition start (t : Terminal) : loop :=
  {| term := t; escaped := false; escBuf := []; escCap := 16; err := None |}.

(** The bytes the reader holds or can still get before its next failure. *)
Fixpoint pending (evs : list event) : list byte :=
  match evs with
  | Byte b :: evs' => b :: pending evs'
  | _ => []
  end.

(** A method of the terminal run from the loop. *)
Definition run_term (m : T unit) (l : loop) : outcome loop :=
  obind (m (term l)) (fun '(_, t) => Ok (with_term t l)).

(** The [default] case of the switch: the bytes are typed text. *)
Definition literal (p : list byte) : T unit :=
  let p := encodeControlChars p in
  t <- get;;
  if negb (ioInsMode t) then on_rb (WriteBytes p) else on_rb (InsertBytes p).

(** The switch on [p[0]]. *)
Definition dispatch (p : list byte) (l : loop) : outcome loop :=
  match p with
  | [] => Ok l
  | c :: _ =>
    if c =? CharLineStart then run_term opLineStart l
    else if c =? CharBackward then run_term opBackward l
    else if c =? CharInterrupt then Ok (with_err (Some ErrInterrupted) l)
    else if c =? CharDelete then Ok (with_err (Some EOF) l)
    else if c =? CharLineEnd then run_term opLineEnd l
    else if c =? CharForward then run_term opForward l
    else if c =? CharBell then run_term bell l
    else if (c =? CharBackspace) || (c =? CharBackspaceEx) then
      run_term opBackspace l
    else if c =? CharTab then run_term opTab l
    else if (c =? CharFeed) || (c =? CharReturn) then run_term opReturn l
    else if c =? CharKill then run_term opKill l
    else if c =? CharClear then run_term opClear l
    else if c =? CharNext then run_term opNext l
    else if c =? CharPrev then run_term opPrev l
    else if c =? CharBckSearch then run_term opBckSearch l
    else if c =? CharFwdSearch then run_term opFwdSearch l
    else if c =? CharTranspose then run_term opTranspose l
    else if c =? CharKillFront then run_term opKillFront l
    else if c =? CharKillWordFront then run_term opKillWordFront l
    else if c =? CharYank then run_term opYank l
    else run_term (literal p) l
  end.

(** The part of a round after the byte [b] has been read and [p] built. *)
Definition handle (b : byte) (p : list byte) (l : loop) : outcome loop :=
  if (b =? CharEscape) || escaped l then
    let l := if negb (escaped l)
             then with_escBuf [] (escCap l) (with_escaped true l)
             else esc_append p l in
    let flush (l : loop) :=
      if (length (escBuf l) <? escCap l)%nat then Ok l
      else dispatch (CharEscape :: escBuf l) (with_escaped false l) in
    match decodeEscapeKeyPair (escBuf l) with
    | Some k =>
      obind (escape k (term l)) (fun '(done, t) =>
        let l := with_term t l in
        if done : bool then dispatch (Remainder k) (with_escaped false l)
        else flush l)
    | None => flush l
    end
  else dispatch p l.

(** One round of the loop on a state with [err == nil]; the events that are
    left come back with the state. *)
Definition round (l : loop) (evs : list event) : outcome (loop * list event) :=
  match evs with
  | [] => Ok (l, [])
  | Cancelled :: evs' => Ok (with_err (Some ErrCanceled) l, evs')
  | Interrupted :: evs' =>
    Ok (with_escBuf [] (escCap l) (with_escaped false l), evs')
  | Failed e :: evs' => Ok (with_err (Some e) l, evs')
  | Byte b :: evs' =>
    if (RuneSelf <=? b) && negb (escaped l) then
      let '(r, n) := decode_rune b (pending evs') in
      obind (handle b (encode_rune r) l)
            (fun l' => Ok (l', drop (n - 1) evs'))
    else
      obind (handle b [b] l) (fun l' => Ok (l', evs'))
  end.

(** What the loop does once [err != nil]. *)
Definition finish (l : loop) : outcome loop :=
  let e := match err l with
           | Some ErrCanceled => Some EOF
           | e => e
           end in
  run_term (modify (with_ioErr (Some e));;;
            line <- on_rb Bytes;;
            sendLineResult line e)
           (with_err e l).

(** The loop on the events [evs], at most [fuel] rounds.  With no event left
    and no error the loop waits in its read: the state is returned as it
    stands. *)
Fixpoint rounds (fuel : nat) (l : loop) (evs : list event) : outcome loop :=
  match err l with
  | Some _ => finish l
  | None =>
    match evs, fuel with
    | [], _ => Ok l
    | _, O => Hang
    | _, S k => obind (round l evs) (fun '(l', evs') => rounds k l' evs')
    end
  end.

Definition ioloop (t : Terminal) (evs : list event) : outcome loop :=
  rounds (length evs) (start t) evs.

End Loop.

End readline.

(** * Properties *)

(** ** The runtime *)

Module gort_facts.
Import gort.

Lemma array_at_insert h a b arr :
  array_at (<[a := arr]> h) b =
  if decide (a = b /\ (a < length h)%nat) then arr else array_at h b.
Proof.
  unfold array_at. case_decide as Hd.
  - destruct Hd as [-> Hlt]. by rewrite list_lookup_insert_eq.
  - destruct (decide (a = b)) as [->|Hne].
    + rewrite list_insert_ge by lia. done.
    + by rewrite list_lookup_insert_ne.
Qed.

Lemma array_at_alloc h arr b :
  array_at (h ++ [arr]) b =
  if decide (b = length h) then arr else array_at h b.
Proof.
  unfold array_at. case_decide as Hd.
  - subst. rewrite lookup_app_r by lia. by rewrite Nat.sub_diag.
  - destruct (decide (b < length h)%nat).
    + by rewrite lookup_app_l.
    + rewrite !lookup_ge_None_2; [done| lia |]. rewrite length_app. simpl. lia.
Qed.

Lemma array_at_ge h a : (length h <= a)%nat -> array_at h a = [].
Proof. intros. unfold array_at. by rewrite lookup_ge_None_2. Qed.

Lemma blit_length arr p xs :
  (p + length xs <= length arr)%nat -> length (blit arr p xs) = length arr.
Proof.
  intros. unfold blit. rewrite !length_app, length_take, length_drop. lia.
Qed.

Lemma blit_nil arr p : blit arr p [] = arr.
Proof. unfold blit. simpl. rewrite Nat.add_0_r. apply take_drop. Qed.

(** Reading a window of an array that was overwritten inside the window. *)
Lemma window_blit arr o n p xs :
  (o <= p)%nat -> (p + length xs <= o + n)%nat -> (o + n <= length arr)%nat ->
  take n (drop o (blit arr p xs)) =
  take (p - o) (take n (drop o arr)) ++ xs
    ++ drop (p - o + length xs) (take n (drop o arr)).
Proof.
  intros Hop Hpx Hlen. unfold blit.
  apply list_eq. intros i.
  destruct (decide (i < n)%nat) as [Hi|Hi].
  2:{ rewrite lookup_take_ge by lia.
      symmetry. apply lookup_ge_None_2.
      rewrite !length_app, length_take, length_drop, !length_take, length_drop.
      lia. }
  rewrite lookup_take_lt, lookup_drop by lia.
  destruct (decide (o + i < p)%nat) as [H1|H1].
  - rewrite lookup_app_l by (rewrite length_take; lia).
    rewrite lookup_take_lt by lia.
    rewrite lookup_app_l by (rewrite !length_take, length_drop; lia).
    rewrite !lookup_take_lt by lia. by rewrite lookup_drop.
  - rewrite lookup_app_r by (rewrite length_take; lia).
    rewrite length_take, Nat.min_l by lia.
    rewrite (lookup_app_r (take (p - o) _))
      by (rewrite !length_take, length_drop; lia).
    rewrite !length_take, length_drop.
    replace ((p - o) `min` (n `min` (length arr - o)))%nat with (p - o)%nat by lia.
    replace (i - (p - o))%nat with (o + i - p)%nat by lia.
    destruct (decide (o + i - p < length xs)%nat) as [H2|H2].
    + by rewrite !lookup_app_l by lia.
    + rewrite !lookup_app_r by lia.
      rewrite !lookup_drop. rewrite lookup_take_lt by lia.
      rewrite lookup_drop. f_equal. lia.
Qed.

Lemma elems_length h s :
  slice_wf h s -> length (elems h s) = len s.
Proof.
  intros [H1 H2]. unfold elems. rewrite length_take, length_drop. lia.
Qed.

Lemma elems_ext h h' s :
  array_at h' (base s) = array_at h (base s) -> elems h' s = elems h s.
Proof. unfold elems. by intros ->. Qed.

Lemma elems_empty h s : len s = 0%nat -> elems h s = [].
Proof. unfold elems. by intros ->. Qed.

(** A header with capacity points into an allocated array. *)
Lemma wf_base_lt h s : slice_wf h s -> (0 < cap s)%nat -> (base s < length h)%nat.
Proof.
  intros [_ H2] Hc. destruct (decide (base s < length h)%nat); [done|].
  rewrite array_at_ge in H2 by lia. simpl in H2. lia.
Qed.

(** *** Heaps that only grow *)

Definition grows (h h' : heap) : Prop :=
  forall a, (length (array_at h a) <= length (array_at h' a))%nat.

Lemma grows_refl h : grows h h.
Proof. by intros a. Qed.

Lemma grows_trans h1 h2 h3 : grows h1 h2 -> grows h2 h3 -> grows h1 h3.
Proof. intros H12 H23 a. specialize (H12 a). specialize (H23 a). lia. Qed.

Lemma slice_wf_grows h h' s : grows h h' -> slice_wf h s -> slice_wf h' s.
Proof. intros Hg [H1 H2]. split; [done|]. specialize (Hg (base s)). lia. Qed.

Lemma grows_alloc h arr : grows h (h ++ [arr]).
Proof.
  intros a. rewrite array_at_alloc. case_decide; [|done].
  subst. rewrite array_at_ge; simpl; lia.
Qed.

Lemma grows_insert h a arr :
  (length (array_at h a) <= length arr)%nat -> grows h (<[a := arr]> h).
Proof.
  intros Hl b. rewrite array_at_insert. case_decide as Hd; [|done].
  by destruct Hd as [-> _].
Qed.

(** *** Re-slicing *)

Lemma reslice_ok s lo hi :
  0 <= lo <= hi -> hi <= capacity_of s ->
  reslice s lo hi =
  Ok (Slice (base s) (off s + Z.to_nat lo) (Z.to_nat (hi - lo))
            (cap s - Z.to_nat lo)).
Proof.
  intros [H1 H2] H3. unfold reslice.
  destruct (Z.leb_spec 0 lo), (Z.leb_spec lo hi),
    (Z.leb_spec hi (capacity_of s)); try lia. done.
Qed.

Lemma reslice_wf h s lo hi s' :
  slice_wf h s -> reslice s lo hi = Ok s' -> slice_wf h s'.
Proof.
  intros [H1 H2]. unfold reslice, capacity_of.
  destruct (Z.leb_spec 0 lo), (Z.leb_spec lo hi),
    (Z.leb_spec hi (Z.of_nat (cap s))); simpl; try done.
  intros [= <-]. split; simpl; lia.
Qed.

Lemma reslice_elems h s lo hi s' :
  slice_wf h s -> hi <= length_of s -> reslice s lo hi = Ok s' ->
  elems h s' = take (Z.to_nat (hi - lo)) (drop (Z.to_nat lo) (elems h s)).
Proof.
  intros [H1 H2] Hhi. unfold reslice, capacity_of, length_of in *.
  destruct (Z.leb_spec 0 lo), (Z.leb_spec lo hi),
    (Z.leb_spec hi (Z.of_nat (cap s))); simpl; try done.
  intros [= <-]. unfold elems. simpl.
  apply list_eq. intros i.
  destruct (decide (i < Z.to_nat (hi - lo))%nat).
  - rewrite !lookup_take_lt by lia. rewrite !lookup_drop.
    rewrite lookup_take_lt by lia. rewrite lookup_drop. f_equal. lia.
  - by rewrite !lookup_take_ge by lia.
Qed.

Lemma reslice_fields s lo hi s' :
  reslice s lo hi = Ok s' ->
  base s' = base s /\ (cap s' <= cap s)%nat /\
  len s' = Z.to_nat (hi - lo) /\ 0 <= lo <= hi /\ hi <= capacity_of s.
Proof.
  unfold reslice.
  destruct (Z.leb_spec 0 lo), (Z.leb_spec lo hi),
    (Z.leb_spec hi (capacity_of s)); simpl; try done.
  intros [= <-]. simpl. repeat split; lia.
Qed.

Lemma reslice_apart t s lo hi s' :
  apart t s -> reslice s lo hi = Ok s' -> apart t s'.
Proof.
  intros Ha Hr. apply reslice_fields in Hr as (Hb & Hc & _).
  unfold apart in *. rewrite Hb. destruct Ha as [?|[?|?]]; auto.
  right. left. lia.
Qed.

(** *** Indexing *)

Lemma index_ok h s i :
  slice_wf h s -> 0 <= i < length_of s ->
  exists x, index h s i = Ok x /\ elems h s !! Z.to_nat i = Some x.
Proof.
  intros [H1 H2] Hi. unfold index, length_of in *.
  destruct (Z.leb_spec 0 i), (Z.ltb_spec i (Z.of_nat (len s))); try lia.
  simpl. unfold elems.
  rewrite lookup_take_lt by lia. rewrite lookup_drop.
  destruct (array_at h (base s) !! (off s + Z.to_nat i)%nat) as [x|] eqn:E.
  - by exists x.
  - apply lookup_ge_None_1 in E. lia.
Qed.

Lemma index_range h s i x : index h s i = Ok x -> 0 <= i < length_of s.
Proof.
  unfold index.
  destruct (Z.leb_spec 0 i), (Z.ltb_spec i (length_of s)); simpl; try done.
Qed.


(** *** Allocation *)

Lemma alloc_frame h arr t :
  slice_wf h t -> elems (h ++ [arr]) t = elems h t.
Proof.
  intros Hwf. destruct (decide (0 < cap t)%nat) as [Hc|Hc].
  - apply elems_ext. rewrite array_at_alloc. case_decide; [|done].
    pose proof (wf_base_lt _ _ Hwf Hc). lia.
  - destruct Hwf as [H1 _]. rewrite !elems_empty by lia. done.
Qed.

Lemma alloc_apart h t n c :
  slice_wf h t -> apart t (Slice (length h) 0 n c).
Proof.
  intros Hwf. unfold apart. simpl.
  destruct (decide (0 < cap t)%nat) as [Hc|Hc]; [|left; lia].
  right. right. pose proof (wf_base_lt _ _ Hwf Hc). lia.
Qed.

Lemma alloc_wf h arr n c :
  (n <= c)%nat -> (c <= length arr)%nat ->
  slice_wf (h ++ [arr]) (Slice (length h) 0 n c).
Proof.
  intros. split; simpl; [done|]. rewrite array_at_alloc.
  case_decide; [lia|done].
Qed.

Lemma alloc_elems h arr n c :
  elems (h ++ [arr]) (Slice (length h) 0 n c) = take n arr.
Proof.
  unfold elems. simpl. rewrite array_at_alloc. case_decide; [|done].
  by rewrite drop_0.
Qed.

(** *** What a write through a header does *)

(** [h'] and [s'] come from writing through [s] in [h]: the store only grows,
    and a header apart from [s] keeps its elements and is apart from [s']. *)
Definition written (h : heap) (s : slice) (h' : heap) (s' : slice) : Prop :=
  slice_wf h' s' /\ grows h h' /\
  forall t, slice_wf h t -> apart t s -> elems h' t = elems h t /\ apart t s'.

Lemma insert_frame h s arr t :
  slice_wf h t -> apart t s -> (0 < cap s)%nat ->
  elems (<[base s := arr]> h) t = elems h t.
Proof.
  intros Hwf Ha Hc. destruct Ha as [Ht|[Hs|Hne]]; [|lia|].
  - destruct Hwf as [H1 _]. rewrite !elems_empty by lia. done.
  - apply elems_ext. rewrite array_at_insert. case_decide as Hd; [|done].
    by destruct Hd as [Hd _].
Qed.

Section WithRuntime.
Context `{GoRuntime}.

Lemma append_spec h s xs h' s' :
  slice_wf h s -> append h s xs = (h', s') ->
  elems h' s' = elems h s ++ xs /\ len s' = (len s + length xs)%nat /\
  written h s h' s'.
Proof.
  intros Hwf. pose proof Hwf as [H1 H2]. unfold append.
  destruct (Nat.leb_spec (len s + length xs) (cap s)) as [Hfit|Hgrow].
  - intros [= <- <-]. simpl.
    assert (Hlen : length (blit (array_at h (base s)) (off s + len s) xs)
                   = length (array_at h (base s)))
      by (apply blit_length; lia).
    destruct (decide (xs = [])) as [->|Hne].
    + (* nothing is written *)
      rewrite blit_nil.
      assert (Harr : forall a, array_at (<[base s := array_at h (base s)]> h) a
                               = array_at h a).
      { intros a. rewrite array_at_insert. case_decide as Hd; [|done].
        by destruct Hd as [-> _]. }
      split; [|split; [done|split; [|split]]].
      * unfold elems. simpl. rewrite Harr, Nat.add_0_r, app_nil_r. done.
      * split; simpl; [lia|]. rewrite Harr. done.
      * intros a. by rewrite Harr.
      * intros t Ht Ha. split; [apply elems_ext, Harr|].
        destruct Ha as [?|[?|?]]; unfold apart; simpl; auto.
    + assert (Hc : (0 < cap s)%nat) by (destruct xs; simpl in *; [done|lia]).
      pose proof (wf_base_lt _ _ Hwf Hc) as Hb.
      assert (Harr : array_at (<[base s :=
                  blit (array_at h (base s)) (off s + len s) xs]> h) (base s)
                = blit (array_at h (base s)) (off s + len s) xs).
      { rewrite array_at_insert. case_decide as Hd; [done|]. exfalso. apply Hd. by split. }
      split; [|split; [done|split; [|split]]].
      * unfold elems. simpl. rewrite Harr.
        rewrite window_blit by lia.
        replace (off s + len s - off s)%nat with (len s) by lia.
        rewrite take_take.
        rewrite (drop_ge (take _ _)) by (rewrite length_take, length_drop; lia).
        rewrite app_nil_r. f_equal. f_equal. lia.
      * split; simpl; [lia|]. rewrite Harr. lia.
      * apply grows_insert. lia.
      * intros t Ht Ha. split; [by apply insert_frame|].
        destruct Ha as [?|[?|?]]; unfold apart; simpl; auto.
  - intros [= <- <-]. simpl.
    set (c := Nat.max _ _).
    assert (Hcn : (len s + length xs <= c)%nat) by (subst c; lia).
    split; [|split; [done|split; [|split]]].
    + rewrite alloc_elems. rewrite app_assoc.
      rewrite take_app_length'; [done|].
      rewrite length_app, elems_length by done. lia.
    + apply alloc_wf; [done|].
      rewrite !length_app, length_replicate, elems_length by done. lia.
    + apply grows_alloc.
    + intros t Ht Ha. split; [by apply alloc_frame|by apply alloc_apart].
Qed.

End WithRuntime.

Lemma copy_spec h dst xs h' n :
  slice_wf h dst -> copy h dst xs = (h', n) ->
  n = Z.of_nat (Nat.min (len dst) (length xs)) /\
  elems h' dst = take (Z.to_nat n) xs ++ drop (Z.to_nat n) (elems h dst) /\
  written h dst h' dst.
Proof.
  intros Hwf. pose proof Hwf as [H1 H2]. unfold copy.
  intros [= <- <-]. set (n := Nat.min _ _).
  rewrite Nat2Z.id.
  assert (Hn : length (take n xs) = n) by (rewrite length_take; lia).
  destruct (decide (n = 0)%nat) as [Hz|Hnz].
  - rewrite Hz. rewrite take_0, blit_nil. simpl.
    assert (Harr : forall a, array_at (<[base dst := array_at h (base dst)]> h) a
                             = array_at h a).
    { intros a. rewrite array_at_insert. case_decide as Hd; [|done].
      by destruct Hd as [-> _]. }
    split; [done|split; [|split; [|split]]].
    + rewrite drop_0. apply elems_ext, Harr.
    + split; [done|]. by rewrite Harr.
    + intros a. by rewrite Harr.
    + intros t Ht Ha. split; [apply elems_ext, Harr|done].
  - assert (Hc : (0 < cap dst)%nat) by lia.
    pose proof (wf_base_lt _ _ Hwf Hc) as Hb.
    assert (Hlen : length (blit (array_at h (base dst)) (off dst) (take n xs))
                   = length (array_at h (base dst)))
      by (apply blit_length; lia).
    assert (Harr : array_at (<[base dst :=
                blit (array_at h (base dst)) (off dst) (take n xs)]> h) (base dst)
              = blit (array_at h (base dst)) (off dst) (take n xs)).
    { rewrite array_at_insert. case_decide as Hd; [done|]. exfalso. apply Hd. by split. }
    split; [done|split; [|split; [|split]]].
    + unfold elems. rewrite Harr. rewrite window_blit by lia.
      rewrite Nat.sub_diag, take_0. simpl. by rewrite Hn.
    + split; [done|]. rewrite Harr. lia.
    + apply grows_insert. lia.
    + intros t Ht Ha. split; [by apply insert_frame|done].
Qed.

(** A copy into the tail [p[lo:]] of [p], read through [p]. *)
Lemma copy_tail_spec h p lo dst xs h' n :
  slice_wf h p -> slice_from p lo = Ok dst -> copy h dst xs = (h', n) ->
  elems h' p = take (Z.to_nat lo) (elems h p) ++ take (Z.to_nat n) xs
                 ++ drop (Z.to_nat lo + Z.to_nat n) (elems h p).
Proof.
  intros Hwf Hr. pose proof Hwf as [H1 H2].
  pose proof (reslice_fields _ _ _ _ Hr) as (Hb & Hcap & Hl & Hlo & Hhi).
  unfold slice_from, reslice in Hr. unfold length_of, capacity_of in *.
  destruct (Z.leb_spec 0 lo), (Z.leb_spec lo (Z.of_nat (len p))),
    (Z.leb_spec (Z.of_nat (len p)) (Z.of_nat (cap p))); simpl in Hr; try done.
  injection Hr as <-. unfold copy. simpl. intros [= <- <-].
  set (n := Nat.min _ _). rewrite Nat2Z.id.
  assert (Hn : length (take n xs) = n) by (rewrite length_take; lia).
  destruct (decide (n = 0)%nat) as [Hz|Hnz].
  - rewrite Hz, take_0, blit_nil, Nat.add_0_r. simpl.
    rewrite take_drop. apply elems_ext.
    rewrite array_at_insert. by case_decide.
  - assert (Hc : (0 < cap p)%nat) by lia.
    pose proof (wf_base_lt _ _ Hwf Hc) as Hbl.
    unfold elems. rewrite array_at_insert. case_decide as Hd; [|exfalso; apply Hd; by split].
    rewrite window_blit by lia. rewrite Hn.
    repeat f_equal; lia.
Qed.

Lemma store_spec h s i v :
  slice_wf h s -> 0 <= i < length_of s ->
  exists h', store h s i v = Ok h' /\
    elems h' s = <[Z.to_nat i := v]> (elems h s) /\ written h s h' s.
Proof.
  intros Hwf Hi. pose proof Hwf as [H1 H2]. unfold store, length_of in *.
  destruct (Z.leb_spec 0 i), (Z.ltb_spec i (Z.of_nat (len s))); try lia.
  simpl. eexists. split; [done|].
  assert (Hc : (0 < cap s)%nat) by lia.
  pose proof (wf_base_lt _ _ Hwf Hc) as Hb.
  assert (Harr : forall arr, array_at (<[base s := arr]> h) (base s) = arr).
  { intros arr. rewrite array_at_insert. case_decide as Hd; [done|]. exfalso. apply Hd. by split. }
  split; [|split; [|split]].
  - unfold elems. rewrite Harr.
    apply list_eq. intros j.
    destruct (decide (j < len s)%nat).
    + rewrite lookup_take_lt, lookup_drop by lia.
      destruct (decide (j = Z.to_nat i)) as [->|Hne].
      * rewrite !list_lookup_insert_eq; [done| |lia].
        rewrite length_take, length_drop. lia.
      * rewrite !list_lookup_insert_ne by lia.
        by rewrite lookup_take_lt, lookup_drop by lia.
    + rewrite lookup_take_ge by lia. symmetry. apply lookup_ge_None_2.
      rewrite length_insert, length_take. lia.
  - split; [done|]. rewrite Harr, length_insert. lia.
  - apply grows_insert. by rewrite length_insert.
  - intros t Ht Ha. split; [by apply insert_frame|done].
Qed.


End gort_facts.

(** ** Weakest preconditions for methods *)

(** [wp m Q s]: run from [s], the method [m] returns, and its result and
    final state satisfy [Q]. *)
Definition wp {S A} (m : M S A) (Q : A -> S -> Prop) (s : S) : Prop :=
  match m s with
  | Ok (a, s') => Q a s'
  | _ => False
  end.

(** [wpp m Q P s]: the same, except that [m] may also panic, and then [P]
    holds. *)
Definition wpp {S A} (m : M S A) (Q : A -> S -> Prop) (P : Prop) (s : S)
  : Prop :=
  match m s with
  | Ok (a, s') => Q a s'
  | Panic => P
  | Hang => False
  end.

Module wp_rules.

Lemma wp_wpp {S A} (m : M S A) Q P s : wp m Q s -> wpp m Q P s.
Proof. unfold wp, wpp. by destruct (m s) as [[a s']| |]. Qed.

Lemma wpp_bind {S A B} (m : M S A) (k : A -> M S B) Q P s :
  wpp m (fun a s' => wpp (k a) Q P s') P s -> wpp (bind m k) Q P s.
Proof. unfold wpp, bind. by destruct (m s) as [[a s']| |]. Qed.

Lemma wpp_wp_bind {S A B} (m : M S A) (k : A -> M S B) Q P s :
  wp m (fun a s' => wpp (k a) Q P s') s -> wpp (bind m k) Q P s.
Proof. unfold wp, wpp, bind. by destruct (m s) as [[a s']| |]. Qed.

Lemma wpp_mono {S A} (m : M S A) (Q Q' : A -> S -> Prop) (P P' : Prop) s :
  wpp m Q P s -> (forall a s', Q a s' -> Q' a s') -> (P -> P') ->
  wpp m Q' P' s.
Proof. unfold wpp. destruct (m s) as [[a s']| |]; naive_solver. Qed.

Lemma wp_elim {S A} (m : M S A) Q s :
  wp m Q s -> exists a s', m s = Ok (a, s') /\ Q a s'.
Proof. unfold wp. destruct (m s) as [[a s']| |]; naive_solver. Qed.

Lemma wp_intro {S A} (m : M S A) (Q : A -> S -> Prop) s a s' :
  m s = Ok (a, s') -> Q a s' -> wp m Q s.
Proof. unfold wp. by intros ->. Qed.

Lemma wp_mono {S A} (m : M S A) (Q Q' : A -> S -> Prop) s :
  wp m Q s -> (forall a s', Q a s' -> Q' a s') -> wp m Q' s.
Proof. unfold wp. destruct (m s) as [[a s']| |]; naive_solver. Qed.

Lemma wp_ret {S A} (a : A) (Q : A -> S -> Prop) s : Q a s -> wp (ret a) Q s.
Proof. done. Qed.

Lemma wp_bind {S A B} (m : M S A) (k : A -> M S B) Q s :
  wp m (fun a s' => wp (k a) Q s') s -> wp (bind m k) Q s.
Proof. unfold wp, bind. by destruct (m s) as [[a s']| |]. Qed.

Lemma wp_get {S} (Q : S -> S -> Prop) s : Q s s -> wp get Q s.
Proof. done. Qed.

Lemma wp_modify {S} (f : S -> S) (Q : unit -> S -> Prop) s :
  Q tt (f s) -> wp (modify f) Q s.
Proof. done. Qed.

Lemma wp_lift {S A} (x : outcome A) a (Q : A -> S -> Prop) s :
  x = Ok a -> Q a s -> wp (lift x) Q s.
Proof. by intros ->. Qed.

End wp_rules.

(** One step of symbolic execution through the monad's own operations. *)
Ltac wp_step :=
  cbv beta;
  lazymatch goal with
  | |- wp (bind _ _) _ _ => apply wp_rules.wp_bind
  | |- wp get _ _ => apply wp_rules.wp_get
  | |- wp (ret _) _ _ => apply wp_rules.wp_ret
  | |- wp (modify _) _ _ => apply wp_rules.wp_modify
  end.
Ltac wp_steps := repeat wp_step; cbv beta.

(** ** The rune buffer *)

Module runeutil_facts.
Import gort gort_facts runeutil wp_rules.

(** *** The invariant *)

(** What the specification requires of the cursor. *)
Definition inv (rb : RuneBuffer) : Prop :=
  0 <= idx rb <= length_of (buf rb).

(** A saved snapshot is a well-formed header with a cursor inside it. *)
Definition backup_ok (rb : RuneBuffer) : Prop :=
  match backup rb with
  | None => True
  | Some b =>
    slice_wf (mem rb) (bbuf b) /\ apart (lastKill rb) (bbuf b) /\
    0 <= bidx b <= length_of (bbuf b)
  end.

(** The headers of the struct point into the store, and the kill slot has an
    array of its own. *)
Definition wf (rb : RuneBuffer) : Prop :=
  slice_wf (mem rb) (buf rb) /\ slice_wf (mem rb) (lastKill rb) /\
  apart (lastKill rb) (buf rb) /\ backup_ok rb.

(** When the buffer draws itself, the geometry is one on which
    [getBackspaceSequence] finishes, and the width model returns at least one
    line and a tab width that is not negative. *)
Definition display_ok `{WidthModel} (rb : RuneBuffer) : Prop :=
  interactive rb = true ->
  0 < screenWidth rb /\ 0 <= promptWidth rb <= screenWidth rb /\
  0 <= TabWidth /\
  forall s, SplitByLine (promptWidth rb) (screenWidth rb) s <> [].

Definition good `{WidthModel} (rb : RuneBuffer) : Prop :=
  wf rb /\ inv rb /\ display_ok rb.

(** The state with other bytes written and another [hadClean]. *)
Definition redraw (o : list byte) (c : bool) (rb : RuneBuffer) : RuneBuffer :=
  with_w o (with_hadClean c rb).

Lemma redraw_eta rb : redraw (w rb) (hadClean rb) rb = rb.
Proof. by destruct rb. Qed.

(** *** Sequences of editing operations *)

(** The editing operations of the line buffer: write, insert, the cursor
    motions, backspace, delete, transpose, the kills, yank, erase, reset,
    backup and restore. *)
Inductive op :=
| OpWriteRunes (s : list rune)
| OpInsertRunes (s : list rune)
| OpMoveToLineStart
| OpMoveToLineEnd
| OpMoveBackward
| OpMoveForward
| OpMoveToPrevWord
| OpMoveToNextWord
| OpMoveToEndWord
| OpMoveTo (ch : rune) (prevChar reverse : bool)
| OpBackspace
| OpDelete
| OpTranspose
| OpKill
| OpKillFront
| OpKillWord
| OpKillWordFront
| OpYank
| OpErase
| OpReset
| OpBackup
| OpRestore.

Definition drop_result {S A} (m : M S A) : M S unit :=
  bind m (fun _ => ret tt).

Definition run_op `{GoRuntime} `{WidthModel} (o : op) : R unit :=
  match o with
  | OpWriteRunes s => WriteRunes s
  | OpInsertRunes s => InsertRunes s
  | OpMoveToLineStart => drop_result MoveToLineStart
  | OpMoveToLineEnd => drop_result MoveToLineEnd
  | OpMoveBackward => drop_result MoveBackward
  | OpMoveForward => drop_result MoveForward
  | OpMoveToPrevWord => drop_result MoveToPrevWord
  | OpMoveToNextWord => drop_result MoveToNextWord
  | OpMoveToEndWord => drop_result MoveToEndWord
  | OpMoveTo ch prevChar reverse => drop_result (MoveTo ch prevChar reverse)
  | OpBackspace => drop_result Backspace
  | OpDelete => drop_result Delete
  | OpTranspose => drop_result Transpose
  | OpKill => drop_result Kill
  | OpKillFront => drop_result KillFront
  | OpKillWord => drop_result KillWord
  | OpKillWordFront => drop_result KillWordFront
  | OpYank => drop_result Yank
  | OpErase => drop_result Erase
  | OpReset => Reset
  | OpBackup => Backup
  | OpRestore => Restore
  end.

Fixpoint run_ops `{GoRuntime} `{WidthModel} (os : list op) : R unit :=
  match os with
  | [] => ret tt
  | o :: os' => bind (run_op o) (fun _ => run_ops os')
  end.

(** *** Word boundaries, as the specification words them *)

(** A word starts at position [i]: the codepoint there is not a break
    character and the one before it is. *)
Definition word_start `{WidthModel} (l : list rune) (i : nat) : bool :=
  match i with
  | O => false
  | S j =>
    match l !! j, l !! i with
    | Some p, Some c => negb (IsWordBreak c) && IsWordBreak p
    | _, _ => false
    end
  end.

(** [p] is the nearest word start before [i], or the start of the text when
    there is none. *)
Definition prev_word `{WidthModel} (l : list rune) (i p : nat) : Prop :=
  (p < i)%nat /\ (p = 0%nat \/ word_start l p = true) /\
  forall j, (p < j < i)%nat -> word_start l j = false.

(** [p] is the nearest word start after [i], or the end of the text when
    there is none. *)
Definition next_word `{WidthModel} (l : list rune) (i p : nat) : Prop :=
  (i <= p <= length l)%nat /\
  (p = length l \/ ((i < p)%nat /\ word_start l p = true)) /\
  forall j, (i < j < p)%nat -> word_start l j = false.

Section Facts.
Context `{GoRuntime} `{WidthModel}.

(** *** Rules for the slice operations *)

Lemma wp_at s i (Q : rune -> RuneBuffer -> Prop) rb :
  slice_wf (mem rb) s -> 0 <= i < length_of s ->
  (forall x, elems (mem rb) s !! Z.to_nat i = Some x -> Q x rb) ->
  wp (at_ s i) Q rb.
Proof.
  intros Hwf Hi HQ. destruct (index_ok _ _ _ Hwf Hi) as (x & Hx & Hl).
  unfold wp, at_. rewrite Hx. simpl. auto.
Qed.

Lemma wp_read s (Q : list rune -> RuneBuffer -> Prop) rb :
  Q (elems (mem rb) s) rb -> wp (read s) Q rb.
Proof. done. Qed.

Lemma wp_reslice s lo hi (Q : slice -> RuneBuffer -> Prop) rb :
  0 <= lo <= hi -> hi <= capacity_of s ->
  (forall s', reslice s lo hi = Ok s' -> Q s' rb) ->
  wp (lift (reslice s lo hi)) Q rb.
Proof.
  intros H1 H2 HQ. pose proof (reslice_ok s lo hi H1 H2) as Hr.
  eapply wp_lift; [exact Hr|]. by apply HQ.
Qed.

Lemma wp_append s xs (Q : slice -> RuneBuffer -> Prop) rb :
  slice_wf (mem rb) s ->
  (forall h' s',
     elems h' s' = elems (mem rb) s ++ xs ->
     len s' = (len s + length xs)%nat ->
     written (mem rb) s h' s' ->
     Q s' (with_mem h' rb)) ->
  wp (append_ s xs) Q rb.
Proof.
  intros Hwf HQ. unfold wp, append_.
  destruct (append (mem rb) s xs) as [h' s'] eqn:E.
  destruct (append_spec _ _ _ _ _ Hwf E) as (? & ? & ?). by apply HQ.
Qed.

Lemma wp_copy dst xs (Q : Z -> RuneBuffer -> Prop) rb :
  slice_wf (mem rb) dst ->
  (forall h' n,
     copy (mem rb) dst xs = (h', n) ->
     n = Z.of_nat (Nat.min (len dst) (length xs)) ->
     elems h' dst = take (Z.to_nat n) xs ++ drop (Z.to_nat n) (elems (mem rb) dst) ->
     written (mem rb) dst h' dst ->
     Q n (with_mem h' rb)) ->
  wp (copy_ dst xs) Q rb.
Proof.
  intros Hwf HQ. unfold wp, copy_.
  destruct (copy (mem rb) dst xs) as [h' n] eqn:E.
  destruct (copy_spec _ _ _ _ _ Hwf E) as (? & ? & ?). by apply HQ.
Qed.

Lemma wp_assign s i v (Q : unit -> RuneBuffer -> Prop) rb :
  slice_wf (mem rb) s -> 0 <= i < length_of s ->
  (forall h',
     elems h' s = <[Z.to_nat i := v]> (elems (mem rb) s) ->
     written (mem rb) s h' s ->
     Q tt (with_mem h' rb)) ->
  wp (assign s i v) Q rb.
Proof.
  intros Hwf Hi HQ. destruct (store_spec _ _ _ v Hwf Hi) as (h' & E & ? & ?).
  unfold wp, assign. rewrite E. simpl. by apply HQ.
Qed.

(** [h'] is [h] with a fresh array, which [t] points to. *)
Definition allocated (h h' : heap) (t : slice) : Prop :=
  slice_wf h' t /\ grows h h' /\
  forall u, slice_wf h u -> elems h' u = elems h u /\ apart u t.

Lemma wp_CopyAndGrow s g (Q : slice -> RuneBuffer -> Prop) rb :
  0 <= g ->
  (forall h' t,
     elems h' t = s -> len t = length s -> cap t = (length s + Z.to_nat g)%nat ->
     allocated (mem rb) h' t ->
     Q t (with_mem h' rb)) ->
  wp (CopyAndGrow s g) Q rb.
Proof.
  intros Hg HQ. unfold wp, CopyAndGrow.
  destruct (Z.ltb_spec g 0); [lia|].
  apply HQ; simpl; try done.
  - rewrite alloc_elems. by rewrite take_app_length.
  - split; [|split].
    + apply alloc_wf; [lia|]. rewrite length_app, length_replicate. lia.
    + apply grows_alloc.
    + intros u Hu. split; [by apply alloc_frame|by apply alloc_apart].
Qed.

Lemma wp_make n c (Q : slice -> RuneBuffer -> Prop) rb :
  0 <= n <= c ->
  (forall h' t,
     elems h' t = replicate (Z.to_nat n) 0 -> len t = Z.to_nat n ->
     cap t = Z.to_nat c ->
     allocated (mem rb) h' t ->
     Q t (with_mem h' rb)) ->
  wp (make_ n c) Q rb.
Proof.
  intros Hn HQ. unfold wp, make_.
  destruct (Z.leb_spec 0 n), (Z.leb_spec n c); try lia. simpl.
  apply HQ; simpl; try done.
  - rewrite alloc_elems. rewrite take_replicate. f_equal. lia.
  - split; [|split].
    + apply alloc_wf; [lia|]. rewrite length_replicate. lia.
    + apply grows_alloc.
    + intros u Hu. split; [by apply alloc_frame|by apply alloc_apart].
Qed.


(** *** Drawing returns *)

Lemma sep_loop_ok fuel i size pw sw sep :
  0 < sw -> 0 <= pw <= sw -> 0 <= i -> (Z.to_nat (size - i) < fuel)%nat ->
  exists m, sep_loop fuel i size pw sw sep = Ok m.
Proof.
  intros Hsw Hpw. revert i sep.
  induction fuel as [|k IH]; intros i sep Hi Hf; [lia|].
  simpl. destruct (Z.ltb_spec i size); [|by eexists].
  apply IH; destruct (Z.eqb_spec i 0); lia.
Qed.

Lemma wp_getBackspaceSequence (Q : list byte -> RuneBuffer -> Prop) rb :
  0 < screenWidth rb -> 0 <= promptWidth rb <= screenWidth rb ->
  (forall bs, Q bs rb) -> wp getBackspaceSequence Q rb.
Proof.
  intros Hsw Hpw HQ. unfold getBackspaceSequence. wp_steps.
  apply wp_read. wp_steps.
  match goal with |- context [sep_loop ?f ?i ?sz ?pw ?sw ?m] =>
    destruct (sep_loop_ok f i sz pw sw m) as [sep Hs]; try done; try lia
  end.
  eapply wp_lift; [exact Hs|]. wp_steps. apply HQ.
Qed.

Lemma print_runes_ok s : 0 <= TabWidth -> exists o, print_runes s = Ok o.
Proof.
  intros Ht. induction s as [|c s [o IH]]; simpl; [by eexists|].
  rewrite IH. unfold Repeat. destruct (Z.ltb_spec TabWidth 0); [lia|].
  destruct (c =? 9); simpl; by eexists.
Qed.

Lemma wp_outputPrint (Q : list byte -> RuneBuffer -> Prop) rb :
  slice_wf (mem rb) (buf rb) ->
  0 < screenWidth rb -> 0 <= promptWidth rb <= screenWidth rb ->
  0 <= TabWidth ->
  (forall s, SplitByLine (promptWidth rb) (screenWidth rb) s <> []) ->
  (forall o, Q o rb) -> wp outputPrint Q rb.
Proof.
  intros Hwf Hsw Hpw Htab Hsp HQ.
  unfold outputPrint. wp_steps.
  destruct (negb (mask rb =? 0) && (0 <? length_of (buf rb))) eqn:Em.
  - apply andb_prop in Em as [_ Hl%Z.ltb_lt]. wp_steps.
    eapply wp_lift.
    { unfold Repeat. destruct (Z.ltb_spec (length_of (buf rb) - 1) 0); [lia|done]. }
    wp_steps. apply wp_at; [done|lia|]. intros x _.
    destruct (idx rb <? length_of (buf rb)); wp_steps.
    + apply wp_getBackspaceSequence; [done..|]. intros bs. wp_steps.
      apply wp_getBackspaceSequence; [done..|]. intros bs'. wp_steps. apply HQ.
    + apply HQ.
  - wp_steps. apply wp_read. wp_steps.
    destruct (print_runes_ok (elems (mem rb) (buf rb)) Htab) as [o Ho].
    eapply wp_lift; [exact Ho|]. wp_steps.
    unfold isInLineEdge. wp_steps. apply wp_read. wp_steps.
    unfold getSplitByLine. wp_steps.
    destruct (last (SplitByLine _ _ _)) as [l|] eqn:El.
    2:{ apply last_None in El. by apply Hsp in El. }
    wp_steps.
    destruct (idx rb <? length_of (buf rb)); wp_steps.
    + apply wp_getBackspaceSequence; [done..|]. intros bs. wp_steps. apply HQ.
    + apply HQ.
Qed.

Lemma wp_print (Q : unit -> RuneBuffer -> Prop) rb :
  slice_wf (mem rb) (buf rb) ->
  0 < screenWidth rb -> 0 <= promptWidth rb <= screenWidth rb ->
  0 <= TabWidth ->
  (forall s, SplitByLine (promptWidth rb) (screenWidth rb) s <> []) ->
  (forall o, Q tt (redraw o false rb)) -> wp print Q rb.
Proof.
  intros Hwf Hsw Hpw Htab Hsp HQ. unfold print. wp_steps.
  apply wp_outputPrint; try done. intros o. unfold write. wp_steps. apply HQ.
Qed.

Lemma wp_clean (Q : unit -> RuneBuffer -> Prop) rb :
  slice_wf (mem rb) (buf rb) -> inv rb -> 0 < screenWidth rb ->
  (forall o c, Q tt (redraw o c rb)) -> wp clean Q rb.
Proof.
  intros Hwf [Hi1 Hi2] Hsw HQ.
  unfold clean, idxLine. wp_steps. unfold slice_to.
  apply wp_reslice; [lia|destruct Hwf; unfold capacity_of, length_of in *; lia|].
  intros pre _. wp_steps. apply wp_read. unfold getSplitByLine. wp_steps.
  unfold cleanWithIdxLine. wp_steps.
  destruct (hadClean rb || negb (interactive rb)); wp_steps.
  - specialize (HQ (w rb) (hadClean rb)). by rewrite redraw_eta in HQ.
  - unfold outputCleanWithIdxLine. wp_steps. simpl.
    destruct (Z.leb_spec (screenWidth rb) 0); [lia|]. wp_steps.
    unfold write. wp_steps. apply HQ.
Qed.

(** *** The rule for [Refresh] *)

(** A closure that keeps the buffer good and does not switch drawing on or
    off runs to its end under [Refresh]; what it establishes survives the
    redraw when it does not depend on the bytes written or on [hadClean]. *)
Lemma wp_Refresh {A} (f : R A) (Q : A -> RuneBuffer -> Prop) rb :
  good rb ->
  (forall o c,
     wp f (fun a rb2 =>
             good rb2 /\ interactive rb2 = interactive rb /\
             forall o' c', Q a (redraw o' c' rb2))
        (redraw o c rb)) ->
  wp (Refresh f) (fun a rb' => good rb' /\ Q a rb') rb.
Proof.
  intros (Hwf & Hinv & Hd) Hf. unfold Refresh. wp_steps.
  destruct (interactive rb) eqn:Ei; simpl.
  - destruct Hd as (Hsw & Hpw & Htab & Hsp); [done|]. wp_steps.
    apply wp_clean; [apply Hwf|done..|]. intros o c. wp_steps.
    eapply wp_mono; [apply Hf|].
    intros a rb2 (Hg2 & Hi2 & HQ).
    pose proof Hg2 as ((Hwf2 & _) & _ & Hd2).
    destruct Hd2 as (Hsw2 & Hpw2 & Htab2 & Hsp2); [by rewrite Hi2|].
    wp_steps. apply wp_print; [done..|]. intros o'. wp_steps.
    split; [exact Hg2|apply HQ].
  - specialize (Hf (w rb) (hadClean rb)). rewrite redraw_eta in Hf.
    eapply wp_mono; [exact Hf|].
    intros a rb2 (Hg2 & _ & HQ). split; [done|].
    specialize (HQ (w rb2) (hadClean rb2)). by rewrite redraw_eta in HQ.
Qed.


(** *** Keeping the headers well formed *)

Lemma apart_sym s t : apart s t -> apart t s.
Proof. unfold apart. intros [?|[?|?]]; auto. Qed.

(** The buffer gets a new header, in a store that has grown. *)
Lemma wf_new_buf rb rb' :
  wf rb -> grows (mem rb) (mem rb') ->
  lastKill rb' = lastKill rb -> backup rb' = backup rb ->
  slice_wf (mem rb') (buf rb') -> apart (lastKill rb) (buf rb') ->
  wf rb'.
Proof.
  intros (Hb & Hk & Ha & Hbk) Hg Ek Ebk Hb' Ha'.
  unfold wf, backup_ok in *. rewrite Ek, Ebk.
  split_and!; [done|by eapply slice_wf_grows|done|].
  destruct (backup rb) as [bk|]; [|done].
  destruct Hbk as (? & ? & ?). split; [by eapply slice_wf_grows|done].
Qed.

(** The kill slot gets a fresh array. *)
Lemma wf_new_kill rb rb' :
  wf rb -> allocated (mem rb) (mem rb') (lastKill rb') ->
  buf rb' = buf rb -> backup rb' = backup rb ->
  wf rb'.
Proof.
  intros (Hb & Hk & Ha & Hbk) (Hk' & Hg & Hfr) Eb Ebk.
  unfold wf, backup_ok in *. rewrite Eb, Ebk.
  split_and!; [by eapply slice_wf_grows|done|apply apart_sym, Hfr, Hb|].
  destruct (backup rb) as [bk|]; [|done].
  destruct Hbk as (? & ? & ?).
  split; [by eapply slice_wf_grows|]. split; [by apply apart_sym, Hfr|done].
Qed.

Lemma wp_pushKill s (Q : unit -> RuneBuffer -> Prop) rb :
  (forall h' k,
     elems h' k = elems (mem rb) s -> allocated (mem rb) h' k ->
     Q tt (with_lastKill k (with_mem h' rb))) ->
  wp (pushKill s) Q rb.
Proof.
  intros HQ. unfold pushKill, Copy. wp_steps. apply wp_read. wp_steps.
  apply wp_CopyAndGrow; [done|]. intros h' t Ht _ _ Hal. wp_steps.
  by apply HQ.
Qed.

(** *** Kill and yank *)

Lemma take_drop_elems h s lo s' :
  slice_wf h s -> slice_to s lo = Ok s' -> lo <= length_of s ->
  elems h s' = take (Z.to_nat lo) (elems h s).
Proof.
  intros Hwf Hr Hlo. unfold slice_to in Hr.
  rewrite (reslice_elems _ _ _ _ _ Hwf) by (done || lia).
  rewrite drop_0. f_equal. lia.
Qed.

Lemma wp_Kill rb :
  good rb -> idx rb < length_of (buf rb) ->
  wp Kill (fun a rb' =>
    good rb' /\ a = true /\
    text rb' = take (Z.to_nat (idx rb)) (text rb) /\ idx rb' = idx rb /\
    killed rb' = drop (Z.to_nat (idx rb)) (text rb)) rb.
Proof.
  intros Hg Hlt. unfold Kill. apply wp_Refresh; [done|]. intros o c.
  destruct Hg as (Hwf & Hinv & Hd). pose proof Hwf as (Hb & Hk & Ha & Hbk).
  pose proof Hb as [Hlc _]. unfold inv, length_of, capacity_of in *.
  wp_steps. simpl. destruct (Z.eqb_spec (idx rb) (Z.of_nat (len (buf rb)))); [lia|].
  wp_steps. unfold slice_from.
  apply wp_reslice; [unfold length_of; lia|unfold length_of, capacity_of; lia|].
  intros span Hspan. wp_steps.
  apply wp_pushKill. intros h1 k Hke Hal. wp_steps. unfold slice_to.
  apply wp_reslice; [lia|unfold capacity_of; lia|].
  intros pre Hpre. wp_steps. simpl in *.
  set (rb1 := with_lastKill k (with_mem h1 (redraw o c rb))).
  assert (Hwf1 : wf rb1) by (by eapply (wf_new_kill (redraw o c rb))).
  destruct Hal as (Hk1 & Hg1 & Hfr1).
  pose proof (reslice_wf _ _ _ _ _ Hb Hpre) as Hpre_wf.
  split; [split; [|split]|split; [done|]].
  - eapply (wf_new_buf rb1); simpl; try done.
    + apply grows_refl.
    + by eapply slice_wf_grows.
    + eapply reslice_apart; [|exact Hpre]. apply apart_sym, Hfr1, Hb.
  - unfold inv, length_of. simpl.
    apply reslice_fields in Hpre as (_ & _ & Hl & _). lia.
  - done.
  - intros o' c'. unfold text, killed. simpl. split_and!; try done.
    + destruct (Hfr1 _ Hpre_wf) as [-> _].
      eapply take_drop_elems; [done..|]. unfold length_of. lia.
    + rewrite Hke. rewrite (reslice_elems _ _ _ _ _ Hb) by (done || unfold length_of; lia).
      rewrite take_ge; [done|].
      rewrite length_drop, elems_length by done. unfold length_of. lia.
Qed.


(** *** Cursor motion by one step or to an edge, reset, backup and restore *)

(** Moving the cursor inside the text keeps a good buffer good. *)
Lemma good_with_idx rb i :
  good rb -> 0 <= i <= length_of (buf rb) -> good (with_idx i rb).
Proof. intros (Hwf & _ & Hd) Hi. split; [exact Hwf|]. split; [exact Hi|exact Hd]. Qed.

(** The closing steps of a rule whose closure leaves the store alone. *)
Ltac same_store Hg :=
  split; [first [exact Hg | apply good_with_idx; [exact Hg|simpl; lia]]|];
  split; [done|]; intros; simpl; split_and!; first [done | simpl; lia].

Lemma wp_MoveToLineStart rb :
  good rb ->
  wp MoveToLineStart (fun a rb' =>
    good rb' /\ a = negb (idx rb =? 0) /\ text rb' = text rb /\ idx rb' = 0 /\
    killed rb' = killed rb) rb.
Proof.
  intros Hg. unfold MoveToLineStart. apply wp_Refresh; [done|]. intros o c.
  pose proof Hg as (Hwf & Hinv & Hd). unfold inv in Hinv.
  wp_steps. simpl.
  destruct (Z.eqb_spec (idx rb) 0) as [E|E]; wp_steps; same_store Hg.
Qed.

Lemma wp_MoveToLineEnd rb :
  good rb ->
  wp MoveToLineEnd (fun a rb' =>
    good rb' /\ a = negb (idx rb =? length_of (buf rb)) /\
    text rb' = text rb /\ idx rb' = length_of (buf rb) /\
    killed rb' = killed rb) rb.
Proof.
  intros Hg. unfold MoveToLineEnd. apply wp_Refresh; [done|]. intros o c.
  pose proof Hg as (Hwf & Hinv & Hd). unfold inv in Hinv.
  wp_steps. simpl.
  destruct (Z.eqb_spec (idx rb) (length_of (buf rb))) as [E|E]; wp_steps; same_store Hg.
Qed.

Lemma wp_MoveBackward rb :
  good rb ->
  wp MoveBackward (fun a rb' =>
    good rb' /\ a = negb (idx rb =? 0) /\ text rb' = text rb /\
    idx rb' = (if idx rb =? 0 then 0 else idx rb - 1) /\
    killed rb' = killed rb) rb.
Proof.
  intros Hg. unfold MoveBackward. apply wp_Refresh; [done|]. intros o c.
  pose proof Hg as (Hwf & Hinv & Hd). unfold inv in Hinv.
  wp_steps. simpl.
  destruct (Z.eqb_spec (idx rb) 0) as [E|E]; wp_steps; unfold add_idx; wp_steps; same_store Hg.
Qed.

Lemma wp_MoveForward rb :
  good rb ->
  wp MoveForward (fun a rb' =>
    good rb' /\ a = negb (idx rb =? length_of (buf rb)) /\
    text rb' = text rb /\
    idx rb' = (if idx rb =? length_of (buf rb) then idx rb else idx rb + 1) /\
    killed rb' = killed rb) rb.
Proof.
  intros Hg. unfold MoveForward. apply wp_Refresh; [done|]. intros o c.
  pose proof Hg as (Hwf & Hinv & Hd). unfold inv in Hinv.
  wp_steps. simpl.
  destruct (Z.eqb_spec (idx rb) (length_of (buf rb))) as [E|E]; wp_steps; unfold add_idx; wp_steps; same_store Hg.
Qed.

Lemma wp_resetBuf rb :
  good rb ->
  wp resetBuf (fun _ rb' =>
    good rb' /\ interactive rb' = interactive rb /\
    w rb' = w rb /\ hadClean rb' = hadClean rb /\
    text rb' = [] /\ idx rb' = 0 /\ killed rb' = killed rb) rb.
Proof.
  intros Hg. pose proof Hg as (Hwf & Hinv & Hd).
  pose proof Hwf as (Hb & Hk & Ha & Hbk).
  unfold resetBuf. wp_steps. unfold slice_to. simpl.
  apply wp_reslice; [lia|unfold capacity_of; lia|]. intros b Hr. wp_steps. simpl.
  pose proof (reslice_fields _ _ _ _ Hr) as (_ & _ & Hl & _).
  split; [|split_and!; try done].
  - split; [|split; [|exact Hd]].
    + apply (wf_new_buf rb); simpl;
        [exact Hwf|apply grows_refl|done|done
        |exact (reslice_wf _ _ _ _ _ Hb Hr)
        |exact (reslice_apart _ _ _ _ _ Ha Hr)].
    + unfold inv, length_of. simpl. lia.
  - unfold text. simpl. apply elems_empty. lia.
Qed.

Lemma wp_Reset rb :
  good rb ->
  wp Reset (fun _ rb' =>
    good rb' /\ text rb' = [] /\ idx rb' = 0 /\ killed rb' = killed rb) rb.
Proof.
  intros Hg. unfold Reset. apply wp_Refresh; [done|]. intros o c.
  eapply wp_mono; [apply (wp_resetBuf (redraw o c rb)); exact Hg|].
  intros _ rb2 (Hg2 & Hi & _ & _ & Ht & Hi0 & Hk). simpl in *.
  split; [done|]. split; [done|]. intros o' c'. done.
Qed.

Lemma wp_Backup rb :
  good rb ->
  wp Backup (fun _ rb' =>
    good rb' /\ text rb' = text rb /\ idx rb' = idx rb /\
    killed rb' = killed rb) rb.
Proof.
  intros (Hwf & Hinv & Hd). pose proof Hwf as (Hb & Hk & Ha & Hbk).
  unfold Backup. wp_steps. split; [|done].
  split; [|split; [exact Hinv|exact Hd]].
  unfold wf, backup_ok. simpl. unfold inv in Hinv. split_and!; (done || lia).
Qed.

Lemma wp_Restore rb :
  good rb -> wp Restore (fun _ rb' => good rb' /\ killed rb' = killed rb) rb.
Proof.
  intros Hg. unfold Restore. apply wp_Refresh; [done|]. intros o c.
  pose proof Hg as (Hwf & Hinv & Hd). pose proof Hwf as (Hb & Hk & Ha & Hbk).
  wp_steps. simpl. unfold backup_ok in Hbk.
  destruct (backup rb) as [bk|] eqn:Ebk; wp_steps.
  - destruct Hbk as (Hbw & Hba & Hbi). split; [|done].
    split; [|split; [exact Hbi|exact Hd]].
    apply (wf_new_buf (redraw o c rb)); simpl;
      [exact Hwf|apply grows_refl|done..].
  - split; [exact Hg|done].
Qed.

Lemma wp_Bytes rb (Q : list byte -> RuneBuffer -> Prop) :
  Q (string_of_runes (text rb)) rb -> wp Bytes Q rb.
Proof.
  intros HQ. unfold Bytes, String_, Runes. wp_steps. apply wp_read. by wp_steps.
Qed.


(** *** Writes through the buffer *)

Lemma slice_from_elems h s lo s' :
  slice_wf h s -> slice_from s lo = Ok s' ->
  elems h s' = drop (Z.to_nat lo) (elems h s).
Proof.
  intros Hwf Hr. unfold slice_from in Hr.
  rewrite (reslice_elems _ _ _ _ _ Hwf) by (done || lia).
  apply take_ge. rewrite length_drop, elems_length by done.
  unfold length_of. lia.
Qed.

(** The drawing parameters of two states agree. *)
Definition same_conf (rb rb' : RuneBuffer) : Prop :=
  interactive rb' = interactive rb /\ screenWidth rb' = screenWidth rb /\
  promptWidth rb' = promptWidth rb.

Lemma display_ok_conf rb rb' : same_conf rb rb' -> display_ok rb -> display_ok rb'.
Proof. intros (Ei & Es & Ep) Hd. unfold display_ok. by rewrite Ei, Es, Ep. Qed.

(** After a write through the buffer's header. *)
Lemma good_written rb rb' :
  good rb -> written (mem rb) (buf rb) (mem rb') (buf rb') ->
  lastKill rb' = lastKill rb -> backup rb' = backup rb -> same_conf rb rb' ->
  inv rb' ->
  good rb' /\ killed rb' = killed rb.
Proof.
  intros (Hwf & _ & Hd) (Hb' & Hg & Hfr) Ek Ebk Hc Hi.
  pose proof Hwf as (Hb & Hk & Ha & Hbk).
  destruct (Hfr _ Hk Ha) as [He Ha'].
  split; [|unfold killed; by rewrite Ek].
  split; [|split; [done|by eapply display_ok_conf]].
  by apply (wf_new_buf rb).
Qed.

(** After a push to the kill slot. *)
Lemma good_pushed rb rb' :
  good rb -> allocated (mem rb) (mem rb') (lastKill rb') ->
  buf rb' = buf rb -> backup rb' = backup rb -> same_conf rb rb' ->
  idx rb' = idx rb ->
  good rb' /\ text rb' = text rb.
Proof.
  intros (Hwf & Hi & Hd) Hal Eb Ebk Hc Ei.
  pose proof Hwf as (Hb & Hk & Ha & Hbk).
  pose proof Hal as (_ & _ & Hfr). destruct (Hfr _ Hb) as [He _].
  split; [|unfold text; by rewrite Eb].
  split; [by apply (wf_new_kill rb)|].
  split; [unfold inv; by rewrite Ei, Eb|by eapply display_ok_conf].
Qed.

Lemma wp_cut lo hi (Q : unit -> RuneBuffer -> Prop) rb :
  slice_wf (mem rb) (buf rb) -> 0 <= lo <= hi -> hi <= length_of (buf rb) ->
  (forall h' b,
     elems h' b = take (Z.to_nat lo) (text rb) ++ drop (Z.to_nat hi) (text rb) ->
     length_of b = lo + (length_of (buf rb) - hi) ->
     written (mem rb) (buf rb) h' b ->
     Q tt (with_buf b (with_mem h' rb))) ->
  wp (cut lo hi) Q rb.
Proof.
  intros Hb Hlo Hhi HQ. pose proof Hb as [Hlc _].
  unfold cut, slice_to, slice_from. wp_steps.
  apply wp_reslice; [lia|unfold capacity_of, length_of in *; lia|].
  intros pre Hpre. wp_steps.
  apply wp_reslice; [lia|unfold capacity_of, length_of in *; lia|].
  intros post Hpost. wp_steps. apply wp_read. wp_steps.
  pose proof (reslice_wf _ _ _ _ _ Hb Hpre) as Hpw.
  apply wp_append; [done|]. intros h' b He Hl (Hbw & Hg & Hfr). wp_steps.
  apply HQ.
  - rewrite He. unfold text. f_equal.
    + eapply take_drop_elems; [done..|lia].
    + by eapply slice_from_elems.
  - unfold length_of in *. rewrite Hl.
    apply reslice_fields in Hpre as (_ & _ & -> & _).
    rewrite (slice_from_elems _ _ _ _ Hb Hpost).
    rewrite length_drop, elems_length by done. lia.
  - split; [done|]. split; [done|]. intros t Ht Hat.
    apply Hfr; [done|]. by eapply reslice_apart.
Qed.

Lemma wp_Backspace rb :
  good rb ->
  wp Backspace (fun a rb' =>
    good rb' /\ a = negb (idx rb =? 0) /\
    text rb' = take (Z.to_nat (idx rb - 1)) (text rb)
                 ++ drop (Z.to_nat (idx rb)) (text rb) /\
    idx rb' = (if idx rb =? 0 then 0 else idx rb - 1) /\
    killed rb' = killed rb) rb.
Proof.
  intros Hg. unfold Backspace. apply wp_Refresh; [done|]. intros o c.
  pose proof Hg as (Hwf & Hinv & Hd). unfold inv in Hinv.
  pose proof Hwf as (Hb & _).
  wp_steps. simpl. destruct (Z.eqb_spec (idx rb) 0) as [E|E]; wp_steps.
  - split; [exact Hg|]. split; [done|]. intros. rewrite E. simpl.
    rewrite drop_0. done.
  - unfold add_idx. wp_steps. simpl.
    apply wp_cut; simpl; [done|lia|lia|].
    intros h' b He Hl Hw. wp_steps.
    destruct (good_written (redraw o c rb)
                (with_buf b (with_mem h' (with_idx (idx rb + -1) (redraw o c rb)))))
      as [Hg' Hk']; simpl; try done.
    { unfold inv. simpl. lia. }
    split; [done|]. split; [done|]. intros o' c'. split_and!; try done.
    unfold text in *. simpl in *. rewrite He. do 3 f_equal; lia.
Qed.

Lemma wp_Delete rb :
  good rb ->
  wp Delete (fun a rb' =>
    good rb' /\ a = negb (idx rb =? length_of (buf rb)) /\
    text rb' = take (Z.to_nat (idx rb)) (text rb)
                 ++ drop (Z.to_nat (idx rb + 1)) (text rb) /\
    idx rb' = idx rb /\
    (idx rb < length_of (buf rb) ->
     killed rb' = take 1 (drop (Z.to_nat (idx rb)) (text rb)))) rb.
Proof.
  intros Hg. unfold Delete. apply wp_Refresh; [done|]. intros o c.
  pose proof Hg as (Hwf & Hinv & Hd). unfold inv in Hinv.
  pose proof Hwf as (Hb & _). pose proof Hb as [Hlc _].
  wp_steps. simpl.
  destruct (Z.eqb_spec (idx rb) (length_of (buf rb))) as [E|E]; wp_steps.
  - split; [exact Hg|]. split; [done|]. intros. split_and!; try done; [|lia].
    rewrite (drop_ge _ (Z.to_nat (idx rb + 1)))
      by (unfold text; rewrite elems_length by done; unfold length_of in *; lia).
    rewrite app_nil_r, take_ge; [done|].
    unfold text; rewrite elems_length by done; unfold length_of in *; lia.
  - apply wp_reslice; [lia|unfold capacity_of, length_of in *; lia|].
    intros one Hone. wp_steps.
    apply wp_pushKill. intros h1 k Hke Hal. wp_steps. simpl in *.
    set (rb1 := with_lastKill k (with_mem h1 (redraw o c rb))).
    destruct (good_pushed (redraw o c rb) rb1) as [Hg1 Ht1]; try done.
    apply wp_cut; simpl; [apply Hg1|lia|lia|].
    intros h' b He Hl Hw. wp_steps.
    destruct (good_written rb1 (with_buf b (with_mem h' rb1)))
      as [Hg' Hk']; simpl; try done.
    { unfold inv. simpl. lia. }
    split; [done|]. split; [done|]. intros o' c'. split_and!; try done.
    + unfold text in *. simpl in *. by rewrite He, Ht1.
    + intros _. unfold killed in *. simpl in *. rewrite Hk', Hke.
      assert (Hhi : idx rb + 1 <= length_of (buf rb)) by lia.
      rewrite (reslice_elems _ _ _ _ _ Hb Hhi Hone).
      f_equal. lia.
Qed.


(** *** Typing *)

Lemma wp_WriteRunes s rb :
  good rb ->
  wp (WriteRunes s) (fun _ rb' =>
    good rb' /\
    text rb' = take (Z.to_nat (idx rb)) (text rb) ++ s
                 ++ drop (Z.to_nat (idx rb)) (text rb) /\
    idx rb' = idx rb + Z.of_nat (length s) /\
    killed rb' = killed rb) rb.
Proof.
  intros Hg. unfold WriteRunes. apply wp_Refresh; [done|]. intros o c.
  pose proof Hg as (Hwf & Hinv & Hd). unfold inv in Hinv.
  pose proof Hwf as (Hb & Hk & Ha & Hbk). pose proof Hb as [Hlc _].
  wp_steps. simpl. unfold slice_from, slice_to.
  apply wp_reslice; [lia|unfold capacity_of, length_of in *; lia|].
  intros rem Hrem. wp_steps.
  pose proof (reslice_wf _ _ _ _ _ Hb Hrem) as Hrw.
  apply wp_CopyAndGrow; [unfold length_of; lia|].
  intros h1 t Hte Htl Htc (Htw & Hg1 & Hfr1). wp_steps. simpl in *.
  apply wp_read. wp_steps. simpl.
  apply wp_append; [done|]. intros h2 tail Hte2 Htl2 (Htw2 & Hg2 & Hfr2).
  wp_steps. simpl in *.
  apply wp_reslice; [lia|unfold capacity_of, length_of in *; lia|].
  intros pre Hpre. wp_steps.
  pose proof (reslice_wf _ _ _ _ _ Hb Hpre) as Hpw.
  apply wp_read. wp_steps. simpl.
  assert (Hpw2 : slice_wf h2 pre) by eauto using slice_wf_grows.
  apply wp_append; [done|]. intros h3 b He3 Hl3 (Hbw3 & Hg3 & Hfr3).
  wp_steps. unfold add_idx. wp_steps. simpl in *.
  (* what the headers show after each step *)
  destruct (Hfr1 _ Hrw) as [Er1 _]. destruct (Hfr1 _ Hpw) as [Ep1 Hapt].
  destruct (Hfr1 _ Hk) as [Ek1 Hakt].
  assert (Hk1 : slice_wf h1 (lastKill rb)) by eauto using slice_wf_grows.
  assert (Hp1 : slice_wf h1 pre) by eauto using slice_wf_grows.
  destruct (Hfr2 _ Hp1 Hapt) as [Ep2 _]. destruct (Hfr2 _ Hk1 Hakt) as [Ek2 _].
  assert (Hk2 : slice_wf h2 (lastKill rb)) by eauto using slice_wf_grows.
  pose proof (reslice_apart _ _ _ _ _ Ha Hpre) as Hap.
  destruct (Hfr3 _ Hk2 Hap) as [Ek3 Hakb].
  assert (Htext : elems h3 b = take (Z.to_nat (idx rb)) (text rb) ++ s
                    ++ drop (Z.to_nat (idx rb)) (text rb)).
  { rewrite He3, Ep2, Ep1, Hte2, Hte, Er1. unfold text. f_equal.
    - eapply take_drop_elems; [done..|lia].
    - f_equal. by eapply slice_from_elems. }
  split; [|split; [done|]].
  - split; [|split; [|exact Hd]].
    + apply (wf_new_buf (redraw o c rb)); simpl;
        [exact Hwf|eauto using grows_trans|done..].
    + unfold inv, length_of. simpl.
      apply (f_equal length) in Htext.
      rewrite elems_length in Htext by done. rewrite Htext.
      rewrite !length_app, length_take, length_drop.
      unfold text. rewrite elems_length by done. unfold length_of in *. lia.
  - intros o' c'. unfold text, killed in *. simpl.
    split_and!; [done|done|]. by rewrite Ek3, Ek2, Ek1.
Qed.


Lemma written_parent h s lo hi s' h' s'' :
  reslice s lo hi = Ok s' -> written h s' h' s'' -> written h s h' s''.
Proof.
  intros Hr (Hw & Hg & Hfr). split; [done|]. split; [done|].
  intros t Ht Hat. apply Hfr; [done|]. by eapply reslice_apart.
Qed.

(** A write in place through a part of [s], seen from [s]. *)
Lemma written_inside h s lo hi s' h' :
  slice_wf h s -> reslice s lo hi = Ok s' -> written h s' h' s' ->
  written h s h' s.
Proof.
  intros Hs Hr (Hw & Hg & Hfr). split; [by eapply slice_wf_grows|].
  split; [done|]. intros t Ht Hat. split; [|done].
  apply Hfr; [done|]. by eapply reslice_apart.
Qed.

Lemma written_trans h1 s1 h2 s2 h3 s3 :
  written h1 s1 h2 s2 -> written h2 s2 h3 s3 -> written h1 s1 h3 s3.
Proof.
  intros (Hw2 & Hg2 & Hfr2) (Hw3 & Hg3 & Hfr3).
  split; [done|]. split; [by eapply grows_trans|].
  intros t Ht Hat. destruct (Hfr2 _ Ht Hat) as [E2 A2].
  destruct (Hfr3 t) as [E3 A3]; [by eapply slice_wf_grows|done|].
  split; [by rewrite E3|done].
Qed.

(** [InsertRunes] overtypes: it replaces what follows the cursor length for
    length and extends the buffer for the excess. *)
Lemma wp_InsertRunes s rb :
  good rb ->
  wp (InsertRunes s) (fun _ rb' =>
    good rb' /\
    text rb' = take (Z.to_nat (idx rb)) (text rb) ++ s
                 ++ drop (Z.to_nat (idx rb) + length s) (text rb) /\
    idx rb' = idx rb + Z.of_nat (length s) /\
    killed rb' = killed rb) rb.
Proof.
  intros Hg. unfold InsertRunes. apply wp_Refresh; [done|]. intros o c.
  pose proof Hg as (Hwf & Hinv & Hd). unfold inv in Hinv.
  pose proof Hwf as (Hb & Hk & Ha & Hbk). pose proof Hb as [Hlc _].
  wp_steps. simpl. unfold slice_from.
  apply wp_reslice; [lia|unfold capacity_of, length_of in *; lia|].
  intros rem Hrem. wp_steps.
  pose proof (reslice_wf _ _ _ _ _ Hb Hrem) as Hrw.
  apply wp_copy; [done|]. intros h1 n Hcopy Hn _ Hw1. wp_steps. simpl in *.
  pose proof (copy_tail_spec _ _ _ _ _ _ _ Hb Hrem Hcopy) as Ht1.
  pose proof (written_inside _ _ _ _ _ _ Hb Hrem Hw1) as Hw1'.
  assert (Hb1 : slice_wf h1 (buf rb)) by (eapply slice_wf_grows; [apply Hw1|done]).
  apply wp_append; [done|]. intros h2 b He2 Hl2 Hw2.
  wp_steps. unfold add_idx. wp_steps. simpl in *.
  pose proof (reslice_fields _ _ _ _ Hrem) as (_ & _ & Hlr & _).
  assert (Hlt : length (text rb) = len (buf rb))
    by (unfold text; by rewrite elems_length).
  destruct (good_written (redraw o c rb)
              (with_idx (idx rb + Z.of_nat (length s))
                 (with_buf b (with_mem h2 (redraw o c rb)))))
    as [Hg' Hk']; simpl; try done.
  { eapply written_trans; [exact Hw1'|exact Hw2]. }
  { unfold inv, length_of in *. simpl. rewrite Hl2, length_drop. lia. }
  split; [done|]. split; [done|]. intros o' c'. split_and!; try done.
  unfold text in *. simpl. rewrite He2, Ht1. rewrite <- !app_assoc. f_equal.
  unfold length_of in *.
  destruct (decide (length s <= len rem)%nat) as [Hle|Hgt].
  - replace (Z.to_nat n) with (length s) by lia.
    rewrite (take_ge s), (drop_ge s), app_nil_r by lia. done.
  - replace (Z.to_nat n) with (len rem) by lia.
    rewrite !(drop_ge (elems _ _)) by lia.
    rewrite app_nil_l, app_nil_r. apply take_drop.
Qed.


(** *** Yank, erase, kill to the front, transpose *)

Lemma wp_Yank rb :
  good rb ->
  wp Yank (fun a rb' =>
    good rb' /\ a = negb (length_of (lastKill rb) =? 0) /\
    text rb' = take (Z.to_nat (idx rb)) (text rb) ++ killed rb
                 ++ drop (Z.to_nat (idx rb)) (text rb) /\
    idx rb' = idx rb + Z.of_nat (length (killed rb)) /\
    killed rb' = killed rb) rb.
Proof.
  intros Hg. pose proof Hg as (Hwf & Hinv & Hd). unfold inv in Hinv.
  pose proof Hwf as (Hb & Hk & Ha & Hbk). pose proof Hb as [Hlc _].
  assert (Hkl : length (killed rb) = len (lastKill rb))
    by (unfold killed; by rewrite elems_length).
  unfold Yank. wp_steps.
  destruct (Z.eqb_spec (length_of (lastKill rb)) 0) as [E|E]; wp_steps.
  { split; [done|]. split; [done|]. unfold length_of in E.
    destruct (killed rb); [|simpl in *; lia].
    simpl. rewrite take_drop. split_and!; (done || lia). }
  apply wp_mono with (Q := fun a rb' => good rb' /\ a = true /\
    text rb' = take (Z.to_nat (idx rb)) (text rb) ++ killed rb
                 ++ drop (Z.to_nat (idx rb)) (text rb) /\
    idx rb' = idx rb + Z.of_nat (length (killed rb)) /\
    killed rb' = killed rb); [|naive_solver].
  apply wp_Refresh; [done|]. intros o c. wp_steps. simpl.
  apply wp_make; [unfold length_of; lia|].
  intros h1 b0 He0 Hl0 Hc0 (Hw0 & Hg1 & Hfr1). wp_steps. simpl in *.
  unfold slice_to, slice_from.
  apply wp_reslice; [lia|unfold capacity_of, length_of in *; lia|].
  intros pre Hpre. wp_steps. apply wp_read. wp_steps. simpl.
  apply wp_append; [done|]. intros h2 b1 He1 Hl1 (Hw1 & Hg2 & Hfr2).
  wp_steps. simpl in *. apply wp_read. wp_steps. simpl.
  apply wp_append; [done|]. intros h3 b2 He2 Hl2 (Hw2 & Hg3 & Hfr3).
  wp_steps. simpl in *.
  apply wp_reslice; [lia|unfold capacity_of, length_of in *; lia|].
  intros post Hpost. wp_steps. apply wp_read. wp_steps. simpl.
  apply wp_append; [done|]. intros h4 b3 He3 Hl3 (Hw3 & Hg4 & Hfr4).
  wp_steps. unfold add_idx. wp_steps. simpl in *.
  pose proof (reslice_wf _ _ _ _ _ Hb Hpre) as Hprew.
  pose proof (reslice_wf _ _ _ _ _ Hb Hpost) as Hpostw.
  (* the three parts keep their elements while the new array is filled *)
  destruct (Hfr1 _ Hprew) as [Ep1 _].
  destruct (Hfr1 _ Hk) as [Ek1 Ak1]. destruct (Hfr1 _ Hpostw) as [Eq1 Aq1].
  assert (Hk1 : slice_wf h1 (lastKill rb)) by eauto using slice_wf_grows.
  assert (Hq1 : slice_wf h1 post) by eauto using slice_wf_grows.
  destruct (Hfr2 _ Hk1 Ak1) as [Ek2 Ak2]. destruct (Hfr2 _ Hq1 Aq1) as [Eq2 Aq2].
  assert (Hk2 : slice_wf h2 (lastKill rb)) by eauto using slice_wf_grows.
  assert (Hq2 : slice_wf h2 post) by eauto using slice_wf_grows.
  destruct (Hfr3 _ Hk2 Ak2) as [Ek3 Ak3]. destruct (Hfr3 _ Hq2 Aq2) as [Eq3 Aq3].
  assert (Hk3 : slice_wf h3 (lastKill rb)) by eauto using slice_wf_grows.
  destruct (Hfr4 _ Hk3 Ak3) as [Ek4 Ak4].
  assert (Htext : elems h4 b3 = take (Z.to_nat (idx rb)) (text rb) ++ killed rb
                    ++ drop (Z.to_nat (idx rb)) (text rb)).
  { rewrite He3, He2, He1, He0, Eq3, Eq2, Eq1, Ek2, Ek1, Ep1.
    replace (Z.to_nat 0) with 0%nat by lia. simpl.
    rewrite <- app_assoc. unfold text, killed. f_equal.
    - eapply take_drop_elems; [done..|lia].
    - f_equal. by eapply slice_from_elems. }
  split; [|split; [done|]].
  - split; [|split; [|exact Hd]].
    + apply (wf_new_buf (redraw o c rb)); simpl;
        [exact Hwf|eauto using grows_trans|done..].
    + unfold inv, length_of. simpl.
      apply (f_equal length) in Htext.
      rewrite elems_length in Htext by done. rewrite Htext.
      rewrite !length_app, length_take, length_drop.
      unfold text. rewrite elems_length by done. unfold length_of in *. lia.
  - intros o' c'. unfold text, killed in *. simpl.
    split_and!; [done|done|unfold length_of; lia|].
    by rewrite Ek4, Ek3, Ek2, Ek1.
Qed.

Lemma wp_Erase rb :
  good rb ->
  wp Erase (fun a rb' =>
    good rb' /\ a = negb (length_of (buf rb) =? 0) /\
    text rb' = [] /\
    idx rb' = (if length_of (buf rb) =? 0 then idx rb else 0) /\
    killed rb' = (if length_of (buf rb) =? 0 then killed rb else text rb)) rb.
Proof.
  intros Hg. unfold Erase. apply wp_Refresh; [done|]. intros o c.
  pose proof Hg as (Hwf & Hinv & Hd). unfold inv in Hinv.
  pose proof Hwf as (Hb & Hk & Ha & Hbk). pose proof Hb as [Hlc _].
  wp_steps. simpl.
  destruct (Z.eqb_spec (length_of (buf rb)) 0) as [E|E]; wp_steps.
  - split; [exact Hg|]. split; [done|]. intros. split_and!; try done.
    unfold text. apply elems_empty. unfold length_of in E. simpl. lia.
  - simpl. unfold slice_from, slice_to.
    apply wp_reslice; [unfold length_of; lia|unfold capacity_of, length_of; lia|].
    intros all Hall. wp_steps.
    apply wp_pushKill. intros h1 k Hke Hal. wp_steps. simpl in *.
    set (rb1 := with_lastKill k (with_mem h1 (with_idx 0 (redraw o c rb)))).
    destruct (good_pushed (with_idx 0 (redraw o c rb)) rb1) as [Hg1 Ht1];
      try done.
    { apply good_with_idx; [exact Hg|simpl; lia]. }
    apply wp_reslice; [lia|unfold capacity_of; lia|].
    intros b Hr. wp_steps.
    pose proof Hg1 as (Hwf1 & _ & Hd1).
    pose proof Hwf1 as (Hb1 & Hk1 & Ha1 & _).
    pose proof (reslice_fields _ _ _ _ Hr) as (_ & _ & Hl & _).
    split; [|split; [done|]].
    + split; [|split; [|exact Hd]].
      * apply (wf_new_buf rb1); simpl;
          [exact Hwf1|apply grows_refl|done|done
          |exact (reslice_wf _ _ _ _ _ Hb1 Hr)
          |exact (reslice_apart _ _ _ _ _ Ha1 Hr)].
      * unfold inv, length_of. simpl. lia.
    + intros o' c'. unfold text, killed. simpl. split_and!; try done.
      * apply elems_empty. lia.
      * rewrite Hke. rewrite (slice_from_elems _ _ _ _ Hb Hall). by rewrite drop_0.
Qed.

Lemma wp_KillFront rb :
  good rb ->
  wp KillFront (fun a rb' =>
    good rb' /\ a = negb (idx rb =? 0) /\
    text rb' = drop (Z.to_nat (idx rb)) (text rb) /\ idx rb' = 0 /\
    killed rb' = (if idx rb =? 0 then killed rb
                  else take (Z.to_nat (idx rb)) (text rb))) rb.
Proof.
  intros Hg. unfold KillFront. apply wp_Refresh; [done|]. intros o c.
  pose proof Hg as (Hwf & Hinv & Hd). unfold inv in Hinv.
  pose proof Hwf as (Hb & Hk & Ha & Hbk). pose proof Hb as [Hlc _].
  wp_steps. simpl. destruct (Z.eqb_spec (idx rb) 0) as [E|E]; wp_steps.
  - split; [exact Hg|]. split; [done|]. intros. rewrite E. simpl.
    by rewrite drop_0.
  - simpl. unfold slice_from, slice_to.
    apply wp_reslice; [lia|unfold capacity_of, length_of in *; lia|].
    intros span Hspan. wp_steps.
    apply wp_pushKill. intros h1 k Hke Hal. wp_steps. simpl in *.
    set (rb1 := with_lastKill k (with_mem h1 (redraw o c rb))).
    destruct (good_pushed (redraw o c rb) rb1) as [Hg1 Ht1]; try done.
    pose proof Hg1 as (Hwf1 & _ & _). pose proof Hwf1 as (Hb1 & Hk1 & Ha1 & _).
    apply wp_reslice; [lia|unfold capacity_of, length_of in *; lia|].
    intros dst Hdst. wp_steps.
    apply wp_reslice; [lia|unfold capacity_of, length_of in *; lia|].
    intros src Hsrc. wp_steps. apply wp_read. wp_steps. simpl.
    pose proof (reslice_wf _ _ _ _ _ Hb1 Hdst) as Hdw.
    apply wp_copy; [done|]. intros h2 n _ Hn He2 Hw2. wp_steps. simpl in *.
    apply wp_reslice; [lia|unfold capacity_of, length_of in *; lia|].
    intros b Hr. wp_steps. assert (b = dst) as -> by congruence.
    pose proof (reslice_fields _ _ _ _ Hdst) as (_ & _ & Hld & _).
    pose proof (slice_from_elems _ _ _ _ Hb1 Hsrc) as Hse. simpl in Hse.
    assert (Hsl : length (elems h1 src) = len dst).
    { rewrite Hse, length_drop, elems_length by done.
      unfold length_of in *. lia. }
    destruct (good_written rb1 (with_buf dst (with_mem h2 (with_idx 0 rb1))))
      as [Hg' Hk']; simpl; try done.
    { by eapply written_parent. }
    { unfold inv, length_of. simpl. lia. }
    split; [done|]. split; [done|]. intros o' c'. split_and!; try done.
    + unfold text in *. simpl in *. rewrite He2.
      replace (Z.to_nat n) with (len dst) by lia.
      rewrite take_ge by lia.
      rewrite drop_ge by (rewrite elems_length by done; lia).
      rewrite app_nil_r, Hse. by rewrite Ht1.
    + unfold killed in *. simpl in *. rewrite Hk', Hke.
      eapply take_drop_elems; [done..|lia].
Qed.

Lemma wp_Transpose rb :
  good rb ->
  wp Transpose (fun _ rb' => good rb' /\ killed rb' = killed rb /\
                             length (text rb') = length (text rb)) rb.
Proof.
  intros Hg. unfold Transpose.
  apply wp_mono with (Q := fun _ rb' => good rb' /\ (killed rb' = killed rb /\
      length (text rb') = length (text rb))); [|naive_solver].
  apply wp_Refresh; [done|]. intros o c.
  pose proof Hg as (Hwf & Hinv & Hd). unfold inv in Hinv.
  pose proof Hwf as (Hb & Hk & Ha & Hbk). pose proof Hb as [Hlc _].
  wp_steps. simpl.
  destruct (Z.leb_spec (length_of (buf rb)) 1) as [E|E]; wp_steps.
  { split; [exact Hg|done]. }
  destruct (Z.eqb_spec (idx rb) 0) as [E0|E0]; wp_steps.
  { split; [exact Hg|done]. }
  (* the cursor the swap works at *)
  set (i := if length_of (buf rb) <=? idx rb
            then length_of (buf rb) - 1 else idx rb).
  assert (Hi : 0 < i < length_of (buf rb))
    by (subst i; destruct (Z.leb_spec (length_of (buf rb)) (idx rb)); lia).
  apply wp_mono with (Q := fun _ rb1 => rb1 = with_idx i (redraw o c rb)).
  { subst i. destruct (length_of (buf rb) <=? idx rb); wp_steps; [done|].
    by destruct rb. }
  intros _ ? ->. wp_steps. simpl.
  apply wp_at; [done|lia|]. intros x _. wp_steps.
  apply wp_at; [done|lia|]. intros y _. wp_steps.
  apply wp_assign; [done|lia|]. intros h1 He1 Hw1. wp_steps. simpl in *.
  assert (Hb1 : slice_wf h1 (buf rb)) by apply Hw1.
  apply wp_assign; [done|lia|]. intros h2 He2 Hw2. wp_steps.
  unfold add_idx. wp_steps. simpl in *.
  destruct (good_written (redraw o c rb)
              (with_idx (i + 1) (with_mem h2 (with_mem h1 (with_idx i (redraw o c rb))))))
    as [Hg' Hk']; simpl; try done.
  { by eapply written_trans. }
  { unfold inv. simpl. lia. }
  split; [done|]. split; [done|]. intros o' c'. split; [done|].
  unfold text. simpl. by rewrite He2, He1, !length_insert.
Qed.


(** *** Scanning for word boundaries *)

Lemma wp_wordStart b i (Q : bool -> RuneBuffer -> Prop) rb :
  slice_wf (mem rb) b -> 0 < i < length_of b ->
  Q (word_start (elems (mem rb) b) (Z.to_nat i)) rb ->
  wp (wordStart b i) Q rb.
Proof.
  intros Hb Hi HQ. unfold wordStart. wp_steps.
  apply wp_at; [done|lia|]. intros c Hc. wp_steps.
  destruct (Z.to_nat i) as [|j] eqn:Ej; [lia|].
  simpl in HQ. rewrite Hc in HQ.
  destruct (IsWordBreak c) eqn:Ec; wp_steps.
  - destruct (elems (mem rb) b !! j); exact HQ.
  - apply wp_at; [done|lia|]. intros p Hp. wp_steps.
    replace (Z.to_nat (i - 1)) with j in Hp by lia. by rewrite Hp in HQ.
Qed.

Lemma wp_scan_down n b (Q : option Z -> RuneBuffer -> Prop) rb :
  slice_wf (mem rb) b -> Z.of_nat n < length_of b ->
  (forall p, prev_word (elems (mem rb) b) (S n) p ->
             Q (if decide (p = 0%nat) then None else Some (Z.of_nat p)) rb) ->
  wp (scan_down n b) Q rb.
Proof.
  intros Hb. induction n as [|k IH]; intros Hn HQ.
  - simpl. wp_steps. apply (HQ 0%nat). split; [lia|]. split; [by left|]. lia.
  - cbn [scan_down]. wp_steps. apply wp_wordStart; [done|lia|].
    rewrite Nat2Z.id.
    destruct (word_start (elems (mem rb) b) (S k)) eqn:Ew; wp_steps.
    + apply (HQ (S k)). split; [lia|]. split; [by right|]. lia.
    + apply IH; [lia|]. intros p (Hp1 & Hp2 & Hp3). apply HQ.
      split; [lia|]. split; [done|]. intros j Hj.
      destruct (decide (j = S k)) as [->|]; [done|]. apply Hp3. lia.
Qed.

Lemma wp_scan_up n i b (Q : option Z -> RuneBuffer -> Prop) rb :
  slice_wf (mem rb) b -> 0 < i ->
  ((0 < n)%nat -> i + Z.of_nat n <= length_of b) ->
  (forall p, (Z.to_nat i <= p <= Z.to_nat i + n)%nat ->
             (p = (Z.to_nat i + n)%nat \/
              word_start (elems (mem rb) b) p = true) ->
             (forall j, (Z.to_nat i <= j < p)%nat ->
                        word_start (elems (mem rb) b) j = false) ->
             Q (if decide (p = (Z.to_nat i + n)%nat) then None
                else Some (Z.of_nat p)) rb) ->
  wp (scan_up n i b) Q rb.
Proof.
  intros Hb. revert i. induction n as [|k IH]; intros i Hi Hn HQ.
  - simpl. wp_steps. specialize (HQ (Z.to_nat i)).
    rewrite Nat.add_0_r in HQ. rewrite decide_True in HQ by done.
    apply HQ; [lia|by left|lia].
  - specialize (Hn ltac:(lia)).
    cbn [scan_up]. wp_steps. apply wp_wordStart; [done|lia|].
    destruct (word_start (elems (mem rb) b) (Z.to_nat i)) eqn:Ew; wp_steps.
    + specialize (HQ (Z.to_nat i)). rewrite decide_False in HQ by lia.
      rewrite Z2Nat.id in HQ by lia. apply HQ; [lia|by right|lia].
    + apply IH; [lia|lia|]. intros p Hp1 Hp2 Hp3.
      replace (Z.to_nat (i + 1) + k)%nat with (Z.to_nat i + S k)%nat by lia.
      replace (Z.to_nat (i + 1) + k)%nat with (Z.to_nat i + S k)%nat in Hp2 by lia.
      apply HQ; [lia|done|]. intros j Hj.
      destruct (decide (j = Z.to_nat i)) as [->|]; [done|]. apply Hp3. lia.
Qed.

(** *** Word motion *)

Lemma wp_MoveToPrevWord rb :
  good rb ->
  wp MoveToPrevWord (fun a rb' =>
    good rb' /\ a = negb (idx rb =? 0) /\ text rb' = text rb /\
    killed rb' = killed rb /\
    (idx rb = 0 -> idx rb' = 0) /\
    (0 < idx rb ->
     exists p, prev_word (text rb) (Z.to_nat (idx rb)) p /\
               idx rb' = Z.of_nat p)) rb.
Proof.
  intros Hg. unfold MoveToPrevWord. apply wp_Refresh; [done|]. intros o c.
  pose proof Hg as (Hwf & Hinv & Hd). unfold inv in Hinv.
  pose proof Hwf as (Hb & _).
  wp_steps. simpl. destruct (Z.eqb_spec (idx rb) 0) as [E|E]; wp_steps.
  - split; [exact Hg|]. split; [done|]. intros. split_and!; (done || lia).
  - apply wp_scan_down; [done|lia|]. simpl.
    replace (S (Z.to_nat (idx rb - 1))) with (Z.to_nat (idx rb)) by lia.
    intros p Hp. pose proof Hp as (Hp1 & _).
    case_decide as Hz; wp_steps.
    + split; [apply good_with_idx; [exact Hg|simpl; lia]|].
      split; [done|]. intros. simpl. split_and!; try (done || lia).
      intros _. exists p. split; [done|]. simpl. lia.
    + split; [apply good_with_idx; [exact Hg|simpl; lia]|].
      split; [done|]. intros. simpl. split_and!; try (done || lia).
      intros _. by exists p.
Qed.

Lemma wp_MoveToNextWord rb :
  good rb ->
  wp MoveToNextWord (fun a rb' =>
    good rb' /\ a = true /\ text rb' = text rb /\ killed rb' = killed rb /\
    exists p, next_word (text rb) (Z.to_nat (idx rb)) p /\
              idx rb' = Z.of_nat p) rb.
Proof.
  intros Hg. unfold MoveToNextWord. apply wp_Refresh; [done|]. intros o c.
  pose proof Hg as (Hwf & Hinv & Hd). unfold inv in Hinv.
  pose proof Hwf as (Hb & _).
  assert (Hlt : length (text rb) = len (buf rb))
    by (unfold text; by rewrite elems_length).
  wp_steps. simpl. unfold length_of in *.
  apply wp_scan_up; [done|lia|unfold length_of; lia|]. simpl.
  intros p Hp1 Hp2 Hp3.
  assert (Hnext : idx rb < Z.of_nat (len (buf rb)) ->
                  next_word (text rb) (Z.to_nat (idx rb)) p).
  { intros Hlt'. split; [lia|]. split.
    - destruct Hp2 as [->|Hp2]; [left; lia|]. right. split; [lia|done].
    - intros j Hj. apply Hp3. lia. }
  assert (Hend : idx rb = Z.of_nat (len (buf rb)) ->
                 next_word (text rb) (Z.to_nat (idx rb)) (len (buf rb))).
  { intros Heq. split; [lia|]. split; [left; lia|]. intros j Hj. lia. }
  case_decide as Hz; wp_steps.
  - split; [apply good_with_idx; [exact Hg|simpl; unfold length_of; lia]|].
    split; [done|]. intros. simpl. split_and!; try done.
    exists (len (buf rb)). split; [|done].
    destruct (decide (idx rb = Z.of_nat (len (buf rb)))); [by apply Hend|].
    replace (len (buf rb)) with p by lia. apply Hnext. lia.
  - split; [apply good_with_idx; [exact Hg|simpl; unfold length_of; lia]|].
    split; [done|]. intros. simpl. split_and!; try done.
    exists p. split; [|done]. apply Hnext. lia.
Qed.


(** *** Word kills *)

(** What [KillWordFront] does: with a word start [p] before the cursor it
    removes the span from [p] to the cursor and stores it; with none it
    empties the whole buffer and leaves the kill slot alone. *)
Lemma wp_KillWordFront rb :
  good rb ->
  wp KillWordFront (fun a rb' =>
    good rb' /\ a = negb (idx rb =? 0) /\
    (idx rb = 0 ->
     text rb' = text rb /\ idx rb' = 0 /\ killed rb' = killed rb) /\
    (0 < idx rb ->
     exists p, prev_word (text rb) (Z.to_nat (idx rb)) p /\
       idx rb' = Z.of_nat p /\
       if decide (p = 0%nat) then text rb' = [] /\ killed rb' = killed rb
       else text rb' = take p (text rb) ++ drop (Z.to_nat (idx rb)) (text rb) /\
            killed rb' = take (Z.to_nat (idx rb) - p) (drop p (text rb)))) rb.
Proof.
  intros Hg. unfold KillWordFront. apply wp_Refresh; [done|]. intros o c.
  pose proof Hg as (Hwf & Hinv & Hd). unfold inv in Hinv.
  pose proof Hwf as (Hb & Hk & Ha & Hbk). pose proof Hb as [Hlc _].
  wp_steps. simpl. destruct (Z.eqb_spec (idx rb) 0) as [E|E]; wp_steps.
  { split; [exact Hg|]. split; [done|]. intros. split_and!; (done || lia). }
  apply wp_scan_down; [done|lia|]. simpl.
  replace (S (Z.to_nat (idx rb - 1))) with (Z.to_nat (idx rb)) by lia.
  intros p Hp. pose proof Hp as (Hp1 & _).
  case_decide as Hz; wp_steps.
  - (* no word start: the buffer is emptied *)
    unfold slice_to. apply wp_reslice; [lia|unfold capacity_of; lia|].
    intros b Hr. wp_steps.
    pose proof (reslice_fields _ _ _ _ Hr) as (_ & _ & Hl & _).
    split; [|split; [done|]].
    + split; [|split; [|exact Hd]].
      * apply (wf_new_buf (redraw o c rb)); simpl;
          [exact Hwf|apply grows_refl|done|done
          |exact (reslice_wf _ _ _ _ _ Hb Hr)
          |exact (reslice_apart _ _ _ _ _ Ha Hr)].
      * unfold inv, length_of. simpl. lia.
    + intros o' c'. split; [done|]. split; [lia|]. intros _.
      exists p. split; [done|]. split; [simpl; lia|].
      rewrite decide_True by done. split; [|done].
      unfold text. simpl. apply elems_empty. lia.
  - (* a word start at p *)
    apply wp_reslice; [lia|unfold capacity_of, length_of in *; lia|].
    intros span Hspan. wp_steps.
    apply wp_pushKill. intros h1 k Hke Hal. wp_steps. simpl in *.
    set (rb1 := with_lastKill k (with_mem h1 (redraw o c rb))).
    destruct (good_pushed (redraw o c rb) rb1) as [Hg1 Ht1]; try done.
    apply wp_cut; simpl; [apply Hg1|lia|lia|].
    intros h' b He Hl Hw. wp_steps.
    destruct (good_written rb1 (with_idx (Z.of_nat p) (with_buf b (with_mem h' rb1))))
      as [Hg' Hk']; simpl; try done.
    { unfold inv. simpl. lia. }
    split; [done|]. split; [done|]. intros o' c'.
    split; [done|]. split; [lia|]. intros _.
    exists p. split; [done|]. split; [done|].
    rewrite decide_False by done. split.
    + unfold text in *. simpl in *. rewrite He, Ht1. by rewrite Nat2Z.id.
    + unfold killed in *. simpl in *. rewrite Hk', Hke.
      assert (Hhi : idx rb <= length_of (buf rb)) by lia.
      rewrite (reslice_elems _ _ _ _ _ Hb Hhi Hspan).
      rewrite Nat2Z.id. f_equal. lia.
Qed.

Lemma wp_skip_breaks n i b (Q : Z -> RuneBuffer -> Prop) rb :
  slice_wf (mem rb) b -> 0 <= i -> i + Z.of_nat n <= length_of b ->
  (forall j, i <= j <= i + Z.of_nat n -> Q j rb) ->
  wp (skip_breaks n i b) Q rb.
Proof.
  intros Hb. revert i. induction n as [|k IH]; intros i Hi Hn HQ.
  - simpl. wp_steps. apply HQ. lia.
  - cbn [skip_breaks]. wp_steps. apply wp_at; [done|lia|]. intros c _.
    destruct (IsWordBreak c); wp_steps.
    + apply IH; [lia|lia|]. intros j Hj. apply HQ. lia.
    + apply HQ. lia.
Qed.

Lemma wp_KillWord rb :
  good rb ->
  wp KillWord (fun a rb' =>
    good rb' /\ a = negb (idx rb =? length_of (buf rb)) /\ idx rb' = idx rb) rb.
Proof.
  intros Hg. unfold KillWord.
  apply wp_mono with (Q := fun a rb' => good rb' /\
    (a = negb (idx rb =? length_of (buf rb)) /\ idx rb' = idx rb));
    [|naive_solver].
  apply wp_Refresh; [done|]. intros o c.
  pose proof Hg as (Hwf & Hinv & Hd). unfold inv in Hinv.
  pose proof Hwf as (Hb & Hk & Ha & Hbk). pose proof Hb as [Hlc _].
  wp_steps. simpl.
  destruct (Z.eqb_spec (idx rb) (length_of (buf rb))) as [E|E]; wp_steps.
  { split; [exact Hg|done]. }
  apply wp_skip_breaks; [done|lia|lia|]. intros init Hinit. wp_steps.
  apply wp_scan_up; [done|lia|unfold length_of in *; lia|]. simpl.
  intros p Hp1 _ _. case_decide as Hz; wp_steps.
  - unfold slice_from, slice_to.
    apply wp_reslice; [lia|unfold capacity_of, length_of in *; lia|].
    intros span Hspan. wp_steps.
    apply wp_pushKill. intros h1 k Hke Hal. wp_steps. simpl in *.
    set (rb1 := with_lastKill k (with_mem h1 (redraw o c rb))).
    destruct (good_pushed (redraw o c rb) rb1) as [Hg1 Ht1]; try done.
    pose proof Hg1 as (Hwf1 & _ & _). pose proof Hwf1 as (Hb1 & Hk1 & Ha1 & _).
    apply wp_reslice; [lia|unfold capacity_of, length_of in *; lia|].
    intros b Hr. wp_steps.
    pose proof (reslice_fields _ _ _ _ Hr) as (_ & _ & Hl & _).
    split; [|done].
    split; [|split; [|exact Hd]].
    + apply (wf_new_buf rb1); simpl;
        [exact Hwf1|apply grows_refl|done|done
        |exact (reslice_wf _ _ _ _ _ Hb1 Hr)
        |exact (reslice_apart _ _ _ _ _ Ha1 Hr)].
    + unfold inv, length_of. simpl. lia.
  - assert (Hpr : idx rb <= Z.of_nat p - 1 /\ Z.of_nat p - 1 < length_of (buf rb))
      by (unfold length_of in *; lia).
    apply wp_reslice; [lia|unfold capacity_of, length_of in *; lia|].
    intros span Hspan. wp_steps.
    apply wp_pushKill. intros h1 k Hke Hal. wp_steps. simpl in *.
    set (rb1 := with_lastKill k (with_mem h1 (redraw o c rb))).
    destruct (good_pushed (redraw o c rb) rb1) as [Hg1 Ht1]; try done.
    apply wp_cut; simpl; [apply Hg1|lia|lia|].
    intros h' b He Hl Hw. wp_steps.
    destruct (good_written rb1 (with_buf b (with_mem h' rb1)))
      as [Hg' Hk']; simpl; try done.
    unfold inv. simpl. lia.
Qed.


(** *** Moving to the end of a word, and to a codepoint *)

(** [Refresh] around a closure that may panic. *)
Lemma wpp_Refresh {A} (f : R A) (Q : A -> RuneBuffer -> Prop) (P : Prop) rb :
  good rb ->
  (forall o c,
     wpp f (fun a rb2 =>
              good rb2 /\ interactive rb2 = interactive rb /\
              forall o' c', Q a (redraw o' c' rb2)) P
         (redraw o c rb)) ->
  wpp (Refresh f) (fun a rb' => good rb' /\ Q a rb') P rb.
Proof.
  intros (Hwf & Hinv & Hd) Hf. unfold Refresh.
  apply wpp_wp_bind, wp_get.
  destruct (interactive rb) eqn:Ei; simpl.
  - destruct Hd as (Hsw & Hpw & Htab & Hsp); [done|].
    apply wpp_wp_bind. apply wp_clean; [apply Hwf|done..|]. intros o c.
    apply wpp_bind. eapply wpp_mono; [apply Hf| |done].
    intros a rb2 (Hg2 & Hi2 & HQ).
    pose proof Hg2 as ((Hwf2 & _) & _ & Hd2).
    destruct Hd2 as (Hsw2 & Hpw2 & Htab2 & Hsp2); [by rewrite Hi2|].
    apply wp_wpp. wp_steps. apply wp_print; [done..|]. intros o'. wp_steps.
    split; [exact Hg2|apply HQ].
  - specialize (Hf (w rb) (hadClean rb)). rewrite redraw_eta in Hf.
    eapply wpp_mono; [exact Hf| |done].
    intros a rb2 (Hg2 & _ & HQ). split; [done|].
    specialize (HQ (w rb2) (hadClean rb2)). by rewrite redraw_eta in HQ.
Qed.

Lemma wp_wordEnd b i (Q : bool -> RuneBuffer -> Prop) rb :
  slice_wf (mem rb) b -> 0 < i < length_of b ->
  (forall t, Q t rb) -> wp (wordEnd b i) Q rb.
Proof.
  intros Hb Hi HQ. unfold wordEnd. wp_steps.
  apply wp_at; [done|lia|]. intros c _.
  destruct (IsWordBreak c); wp_steps; [|apply HQ].
  apply wp_at; [done|lia|]. intros p _. wp_steps. apply HQ.
Qed.

Lemma wp_scan_end n i b (Q : option Z -> RuneBuffer -> Prop) rb :
  slice_wf (mem rb) b -> 0 < i ->
  ((0 < n)%nat -> i + Z.of_nat n <= length_of b) ->
  Q None rb -> (forall j, i <= j < i + Z.of_nat n -> Q (Some j) rb) ->
  wp (scan_end n i b) Q rb.
Proof.
  intros Hb. revert i. induction n as [|k IH]; intros i Hi Hn HN HS.
  - simpl. by wp_steps.
  - specialize (Hn ltac:(lia)).
    cbn [scan_end]. wp_steps. apply wp_wordEnd; [done|lia|].
    intros [|]; wp_steps.
    + apply HS. lia.
    + apply IH; [lia|lia|done|]. intros j Hj. apply HS. lia.
Qed.

(** The cursor is on the last codepoint and that codepoint is not a break
    character: the state in which [MoveToEndWord] reads past the end. *)
Definition at_last_letter (rb : RuneBuffer) : Prop :=
  idx rb = length_of (buf rb) - 1 /\
  exists c, text rb !! Z.to_nat (idx rb) = Some c /\ IsWordBreak c = false.

Lemma wpp_MoveToEndWord rb :
  good rb ->
  wpp MoveToEndWord (fun _ rb' => good rb' /\ killed rb' = killed rb /\
                                  text rb' = text rb)
      (at_last_letter rb) rb.
Proof.
  intros Hg. unfold MoveToEndWord.
  apply wpp_mono with (Q := fun _ rb' => good rb' /\ (killed rb' = killed rb /\
      text rb' = text rb)) (P := at_last_letter rb); [|naive_solver|done].
  apply wpp_Refresh; [done|]. intros o c.
  pose proof Hg as (Hwf & Hinv & Hd). unfold inv in Hinv.
  pose proof Hwf as (Hb & _).
  apply wpp_wp_bind, wp_get. simpl.
  destruct (Z.eqb_spec (idx rb) (length_of (buf rb))) as [E|E].
  { apply wp_wpp. wp_steps. split; [exact Hg|done]. }
  apply wpp_wp_bind. apply wp_at; [done|lia|]. intros ch Hch.
  (* the scan, from a cursor [i] inside the text *)
  assert (Hscan : forall i, idx rb <= i <= length_of (buf rb) ->
    wp (rb0 <- get;;
        r <- scan_end (Z.to_nat (length_of (buf rb0) - (idx rb0 + 1)))
               (idx rb0 + 1) (buf rb0);;
        match r with
        | Some i => bind (modify (with_idx (i - 1))) (fun _ => ret true)
        | None => bind (modify (with_idx (length_of (buf rb0))))
                       (fun _ => ret true)
        end)%go
       (fun _ rb2 => good rb2 /\ interactive rb2 = interactive rb /\
          forall o' c' : _, killed (redraw o' c' rb2) = killed rb /\
                            text (redraw o' c' rb2) = text rb)
       (with_idx i (redraw o c rb))).
  { intros i Hi. wp_steps. simpl.
    apply wp_scan_end; simpl; [done|lia|unfold length_of in *; lia| |].
    - wp_steps. split; [|done].
      apply (good_with_idx (with_idx i (redraw o c rb)));
        [apply (good_with_idx (redraw o c rb)); [exact Hg|simpl; lia]|simpl; lia].
    - intros j Hj. wp_steps. split; [|done].
      apply (good_with_idx (with_idx i (redraw o c rb)));
        [apply (good_with_idx (redraw o c rb)); [exact Hg|simpl; lia]
        |simpl; unfold length_of in *; lia]. }
  assert (Heta : with_idx (idx rb) (redraw o c rb) = redraw o c rb)
    by (by destruct rb).
  destruct (IsWordBreak ch) eqn:Ech.
  - apply wp_wpp. apply wp_bind, wp_ret. cbv beta.
    rewrite <- Heta. apply (Hscan (idx rb)). lia.
  - destruct (decide (idx rb + 1 < length_of (buf rb))) as [Hin|Hout].
    + apply wp_wpp. do 2 apply wp_bind. apply wp_at; [done|lia|]. intros nx _.
      destruct (IsWordBreak nx); unfold add_idx.
      * apply wp_modify. cbv beta. simpl. apply (Hscan (idx rb + 1)). lia.
      * apply wp_ret. cbv beta. rewrite <- Heta. apply (Hscan (idx rb)). lia.
    + (* the read of [rb.buf[rb.idx+1]] is out of range *)
      unfold wpp, bind, at_, index. simpl.
      destruct (Z.ltb_spec (idx rb + 1) (length_of (buf rb))); [lia|].
      rewrite andb_false_r. simpl.
      split; [lia|]. exists ch. done.
Qed.

Lemma wp_find_down n ch b (Q : option Z -> RuneBuffer -> Prop) rb :
  slice_wf (mem rb) b -> Z.of_nat n <= length_of b ->
  Q None rb -> (forall j, 0 <= j < Z.of_nat n -> Q (Some j) rb) ->
  wp (find_down n ch b) Q rb.
Proof.
  intros Hb. induction n as [|k IH]; intros Hn HN HS.
  - simpl. by wp_steps.
  - cbn [find_down]. wp_steps. apply wp_at; [done|lia|]. intros c _.
    destruct (c =? ch); wp_steps.
    + apply HS. lia.
    + apply IH; [lia|done|]. intros j Hj. apply HS. lia.
Qed.

Lemma wp_find_up n i ch b (Q : option Z -> RuneBuffer -> Prop) rb :
  slice_wf (mem rb) b -> 0 <= i ->
  ((0 < n)%nat -> i + Z.of_nat n <= length_of b) ->
  Q None rb -> (forall j, i <= j < i + Z.of_nat n -> Q (Some j) rb) ->
  wp (find_up n i ch b) Q rb.
Proof.
  intros Hb. revert i. induction n as [|k IH]; intros i Hi Hn HN HS.
  - simpl. by wp_steps.
  - specialize (Hn ltac:(lia)).
    cbn [find_up]. wp_steps. apply wp_at; [done|lia|]. intros c _.
    destruct (c =? ch); wp_steps.
    + apply HS. lia.
    + apply IH; [lia|lia|done|]. intros j Hj. apply HS. lia.
Qed.

Lemma wp_MoveTo ch prevChar reverse rb :
  good rb ->
  wp (MoveTo ch prevChar reverse) (fun _ rb' =>
    good rb' /\ killed rb' = killed rb /\ text rb' = text rb) rb.
Proof.
  intros Hg. unfold MoveTo.
  apply wp_mono with (Q := fun _ rb' => good rb' /\ (killed rb' = killed rb /\
      text rb' = text rb)); [|naive_solver].
  apply wp_Refresh; [done|]. intros o c.
  pose proof Hg as (Hwf & Hinv & Hd). unfold inv in Hinv.
  pose proof Hwf as (Hb & _).
  wp_steps. simpl. destruct reverse; wp_steps.
  - apply wp_find_down; simpl; [done|lia| |].
    + wp_steps. split; [exact Hg|done].
    + intros j Hj. wp_steps. destruct prevChar; unfold add_idx; wp_steps.
      * split; [|done].
        apply (good_with_idx (with_idx j (redraw o c rb)));
          [apply (good_with_idx (redraw o c rb)); [exact Hg|simpl; lia]
          |simpl; lia].
      * split; [|done].
        apply (good_with_idx (redraw o c rb)); [exact Hg|simpl; lia].
  - apply wp_find_up; simpl; [done|lia|unfold length_of in *; lia| |].
    + wp_steps. split; [exact Hg|done].
    + intros j Hj. wp_steps. destruct prevChar; unfold add_idx; wp_steps.
      * split; [|done].
        apply (good_with_idx (with_idx j (redraw o c rb)));
          [apply (good_with_idx (redraw o c rb));
             [exact Hg|simpl; unfold length_of in *; lia]
          |simpl; unfold length_of in *; lia].
      * split; [|done].
        apply (good_with_idx (redraw o c rb));
          [exact Hg|simpl; unfold length_of in *; lia].
Qed.


(** *** Every editing operation keeps a good buffer good *)

Lemma wp_Kill_any rb :
  good rb -> wp Kill (fun _ rb' => good rb') rb.
Proof.
  intros Hg. pose proof Hg as (_ & Hinv & _). unfold inv in Hinv.
  destruct (decide (idx rb < length_of (buf rb))) as [Hlt|Hge].
  - eapply wp_mono; [by apply wp_Kill|]. by intros ? ? [? _].
  - unfold Kill.
    apply wp_mono with (Q := fun (_ : bool) rb' => good rb' /\ True);
      [|by intros ? ? [? _]].
    apply wp_Refresh; [done|]. intros o c. wp_steps. simpl.
    destruct (Z.eqb_spec (idx rb) (length_of (buf rb))); [|lia]. wp_steps.
    split; [exact Hg|done].
Qed.

(** An operation other than [MoveToEndWord] returns. *)
Lemma wp_run_op o rb :
  good rb -> o <> OpMoveToEndWord -> wp (run_op o) (fun _ rb' => good rb') rb.
Proof.
  intros Hg Ho.
  destruct o; simpl; unfold drop_result; try done; try wp_step.
  - eapply wp_mono; [by apply wp_WriteRunes|]. by intros ? ? [? _]; wp_steps.
  - eapply wp_mono; [by apply wp_InsertRunes|]. by intros ? ? [? _]; wp_steps.
  - eapply wp_mono; [by apply wp_MoveToLineStart|]. by intros ? ? [? _]; wp_steps.
  - eapply wp_mono; [by apply wp_MoveToLineEnd|]. by intros ? ? [? _]; wp_steps.
  - eapply wp_mono; [by apply wp_MoveBackward|]. by intros ? ? [? _]; wp_steps.
  - eapply wp_mono; [by apply wp_MoveForward|]. by intros ? ? [? _]; wp_steps.
  - eapply wp_mono; [by apply wp_MoveToPrevWord|]. by intros ? ? [? _]; wp_steps.
  - eapply wp_mono; [by apply wp_MoveToNextWord|]. by intros ? ? [? _]; wp_steps.
  - eapply wp_mono; [by apply wp_MoveTo|]. by intros ? ? [? _]; wp_steps.
  - eapply wp_mono; [by apply wp_Backspace|]. by intros ? ? [? _]; wp_steps.
  - eapply wp_mono; [by apply wp_Delete|]. by intros ? ? [? _]; wp_steps.
  - eapply wp_mono; [by apply wp_Transpose|]. by intros ? ? [? _]; wp_steps.
  - eapply wp_mono; [by apply wp_Kill_any|]. by intros; wp_steps.
  - eapply wp_mono; [by apply wp_KillFront|]. by intros ? ? [? _]; wp_steps.
  - eapply wp_mono; [by apply wp_KillWord|]. by intros ? ? [? _]; wp_steps.
  - eapply wp_mono; [by apply wp_KillWordFront|]. by intros ? ? [? _]; wp_steps.
  - eapply wp_mono; [by apply wp_Yank|]. by intros ? ? [? _]; wp_steps.
  - eapply wp_mono; [by apply wp_Erase|]. by intros ? ? [? _]; wp_steps.
  - eapply wp_mono; [by apply wp_Reset|]. by intros ? ? [? _]; wp_steps.
  - eapply wp_mono; [by apply wp_Backup|]. by intros ? ? [? _]; wp_steps.
  - eapply wp_mono; [by apply wp_Restore|]. by intros ? ? [? _]; wp_steps.
Qed.

Lemma wpp_run_op o rb :
  good rb ->
  wpp (run_op o) (fun _ rb' => good rb')
      (o = OpMoveToEndWord /\ at_last_letter rb) rb.
Proof.
  intros Hg. destruct o; try (by apply wp_wpp, wp_run_op).
  simpl. unfold drop_result. apply wpp_bind.
  eapply wpp_mono; [by apply wpp_MoveToEndWord| |done].
  intros _ rb' (Hg' & _). by apply wp_wpp, wp_ret.
Qed.

End Facts.











End runeutil_facts.

(** ** The screen width *)

Module width_facts.
Import gort gort_facts runeutil wp_rules runeutil_facts.

(** A method that leaves the screen width as it found it, whenever it
    returns. *)
Definition keeps_width {A} (m : R A) : Prop :=
  forall rb a rb', m rb = Ok (a, rb') -> screenWidth rb' = screenWidth rb.

Create HintDb keeps discriminated.

Lemma keeps_ret {A} (a : A) : keeps_width (ret a).
Proof. by intros rb ? ? [= _ <-]. Qed.

Lemma keeps_panic {A} : keeps_width (@panic RuneBuffer A).
Proof. by intros rb ? ?. Qed.

Lemma keeps_get : keeps_width get.
Proof. by intros rb ? ? [= _ <-]. Qed.

Lemma keeps_bind {A B} (m : R A) (k : A -> R B) :
  keeps_width m -> (forall a, keeps_width (k a)) -> keeps_width (bind m k).
Proof.
  intros Hm Hk rb b rb'. unfold bind.
  destruct (m rb) as [[a rb1]| |] eqn:E; [|done..].
  intros Hr. rewrite (Hk _ _ _ _ Hr). by eapply Hm.
Qed.

Lemma keeps_modify (f : RuneBuffer -> RuneBuffer) :
  (forall rb, screenWidth (f rb) = screenWidth rb) -> keeps_width (modify f).
Proof. intros Hf rb ? ? [= _ <-]. apply Hf. Qed.

Lemma keeps_lift {A} (x : outcome A) : keeps_width (lift x).
Proof. intros rb ? ?. unfold lift. destruct x; [|done..]. by intros [= _ <-]. Qed.

Lemma keeps_at s i : keeps_width (at_ s i).
Proof.
  intros rb ? ?. unfold at_. destruct (index _ _ _); [|done..].
  by intros [= _ <-].
Qed.

Lemma keeps_assign s i v : keeps_width (assign s i v).
Proof.
  intros rb ? ?. unfold assign. destruct (store _ _ _ _); [|done..].
  by intros [= _ <-].
Qed.

Lemma keeps_read s : keeps_width (read s).
Proof. by intros rb ? ? [= _ <-]. Qed.

Lemma keeps_append `{GoRuntime} s xs : keeps_width (append_ s xs).
Proof.
  intros rb ? ?. unfold append_. destruct (append _ _ _).
  by intros [= _ <-].
Qed.

Lemma keeps_copy dst xs : keeps_width (copy_ dst xs).
Proof.
  intros rb ? ?. unfold copy_. destruct (copy _ _ _). by intros [= _ <-].
Qed.

Lemma keeps_make n c : keeps_width (make_ n c).
Proof.
  intros rb ? ?. unfold make_. destruct (_ && _); [|done].
  by intros [= _ <-].
Qed.

Lemma keeps_CopyAndGrow s g : keeps_width (CopyAndGrow s g).
Proof.
  intros rb ? ?. unfold CopyAndGrow. destruct (_ <? _); [done|].
  by intros [= _ <-].
Qed.

#[local] Hint Resolve keeps_ret keeps_panic keeps_get keeps_lift keeps_at
  keeps_assign keeps_read keeps_append keeps_copy keeps_make keeps_CopyAndGrow
  : keeps.

(** One step through the structure of a method. *)
Ltac keeps_step :=
  lazymatch goal with
  | |- keeps_width (bind _ _) => apply keeps_bind; [|intros ?]
  | |- keeps_width (modify _) => apply keeps_modify; intros ?; reflexivity
  | |- keeps_width (if ?b then _ else _) => destruct b
  | |- keeps_width (match ?x with _ => _ end) => destruct x
  | |- keeps_width _ => solve [auto with keeps]
  end.
Ltac keeps_all := repeat keeps_step.

Section Width.
Context `{GoRuntime} `{WidthModel}.

Lemma keeps_getBackspaceSequence : keeps_width getBackspaceSequence.
Proof. unfold getBackspaceSequence. keeps_all. Qed.
#[local] Hint Resolve keeps_getBackspaceSequence : keeps.

Lemma keeps_isInLineEdge : keeps_width isInLineEdge.
Proof. unfold isInLineEdge, getSplitByLine. keeps_all. Qed.
#[local] Hint Resolve keeps_isInLineEdge : keeps.

Lemma keeps_print : keeps_width print.
Proof. unfold print, outputPrint, write. keeps_all. Qed.

Lemma keeps_clean : keeps_width clean.
Proof.
  unfold clean, idxLine, getSplitByLine, cleanWithIdxLine,
    outputCleanWithIdxLine, write.
  keeps_all.
Qed.
#[local] Hint Resolve keeps_print keeps_clean : keeps.

Lemma keeps_Refresh {A} (f : R A) : keeps_width f -> keeps_width (Refresh f).
Proof. intros Hf. unfold Refresh. keeps_all. Qed.

Lemma keeps_pushKill s : keeps_width (pushKill s).
Proof. unfold pushKill, Copy. keeps_all. Qed.

Lemma keeps_cut lo hi : keeps_width (cut lo hi).
Proof. unfold cut. keeps_all. Qed.

Lemma keeps_add_idx d : keeps_width (add_idx d).
Proof. unfold add_idx. keeps_all. Qed.

Lemma keeps_wordStart b i : keeps_width (wordStart b i).
Proof. unfold wordStart. keeps_all. Qed.

Lemma keeps_wordEnd b i : keeps_width (wordEnd b i).
Proof. unfold wordEnd. keeps_all. Qed.
#[local] Hint Resolve keeps_pushKill keeps_cut keeps_add_idx keeps_wordStart
  keeps_wordEnd : keeps.

Lemma keeps_scan_down n b : keeps_width (scan_down n b).
Proof. induction n; cbn [scan_down]; keeps_all. Qed.

Lemma keeps_scan_up n i b : keeps_width (scan_up n i b).
Proof. revert i. induction n; intros i; cbn [scan_up]; keeps_all. Qed.

Lemma keeps_scan_end n i b : keeps_width (scan_end n i b).
Proof. revert i. induction n; intros i; cbn [scan_end]; keeps_all. Qed.

Lemma keeps_find_down n ch b : keeps_width (find_down n ch b).
Proof. induction n; cbn [find_down]; keeps_all. Qed.

Lemma keeps_find_up n i ch b : keeps_width (find_up n i ch b).
Proof. revert i. induction n; intros i; cbn [find_up]; keeps_all. Qed.

Lemma keeps_skip_breaks n i b : keeps_width (skip_breaks n i b).
Proof. revert i. induction n; intros i; cbn [skip_breaks]; keeps_all. Qed.
#[local] Hint Resolve keeps_scan_down keeps_scan_up keeps_scan_end
  keeps_find_down keeps_find_up keeps_skip_breaks : keeps.

(** Every editing operation keeps the screen width. *)
Lemma keeps_run_op o : keeps_width (run_op o).
Proof.
  destruct o; cbn [run_op]; unfold drop_result;
    repeat (apply keeps_bind; [|intros ?; apply keeps_ret]).
  - unfold WriteRunes. apply keeps_Refresh. keeps_all.
  - unfold InsertRunes. apply keeps_Refresh. keeps_all.
  - unfold MoveToLineStart. apply keeps_Refresh. keeps_all.
  - unfold MoveToLineEnd. apply keeps_Refresh. keeps_all.
  - unfold MoveBackward. apply keeps_Refresh. keeps_all.
  - unfold MoveForward. apply keeps_Refresh. keeps_all.
  - unfold MoveToPrevWord. apply keeps_Refresh. keeps_all.
  - unfold MoveToNextWord. apply keeps_Refresh. keeps_all.
  - unfold MoveToEndWord. apply keeps_Refresh. keeps_all.
  - unfold MoveTo. apply keeps_Refresh. keeps_all.
  - unfold Backspace. apply keeps_Refresh. keeps_all.
  - unfold Delete. apply keeps_Refresh. keeps_all.
  - unfold Transpose. apply keeps_Refresh. keeps_all.
  - unfold Kill. apply keeps_Refresh. keeps_all.
  - unfold KillFront. apply keeps_Refresh. keeps_all.
  - unfold KillWord. apply keeps_Refresh. keeps_all.
  - unfold KillWordFront. apply keeps_Refresh. keeps_all.
  - unfold Yank. apply keeps_bind; [keeps_all|]. intros rb.
    destruct (_ =? _); [keeps_all|]. apply keeps_Refresh. keeps_all.
  - unfold Erase. apply keeps_Refresh. keeps_all.
  - unfold Reset, resetBuf. apply keeps_Refresh. keeps_all.
  - unfold Backup. keeps_all.
  - unfold Restore. apply keeps_Refresh. keeps_all.
Qed.


(** The methods that set the configuration, and the rest of the public
    methods that write to the buffer. *)
Inductive call :=
| CallOp (o : op)
| CallSetScreenWidth (v : Z)
| CallSetPrompt (p : list byte)
| CallSetMask (m : rune)
| CallSetInteractive (on : bool)
| CallSet (i : Z) (b : list rune) (spare : Z)
| CallResetBuf
| CallClear.

Definition run_call (c : call) : R unit :=
  match c with
  | CallOp o => run_op o
  | CallSetScreenWidth v => drop_result (SetScreenWidth v)
  | CallSetPrompt p => SetPrompt p
  | CallSetMask m => SetMask m
  | CallSetInteractive on => SetInteractive on
  | CallSet i b spare => Set_ i b spare
  | CallResetBuf => ResetBuf
  | CallClear => Clear
  end.

Fixpoint run_calls (cs : list call) : R unit :=
  match cs with
  | [] => ret tt
  | c :: cs' => bind (run_call c) (fun _ => run_calls cs')
  end.

(** A method that leaves a positive screen width positive. *)
Definition keeps_positive {A} (m : R A) : Prop :=
  forall rb a rb', m rb = Ok (a, rb') ->
                   0 < screenWidth rb -> 0 < screenWidth rb'.

Lemma keeps_width_positive {A} (m : R A) : keeps_width m -> keeps_positive m.
Proof. intros Hm rb a rb' Hr. by rewrite (Hm _ _ _ Hr). Qed.

Lemma positive_bind {A B} (m : R A) (k : A -> R B) :
  keeps_positive m -> (forall a, keeps_positive (k a)) ->
  keeps_positive (bind m k).
Proof.
  intros Hm Hk rb b rb'. unfold bind.
  destruct (m rb) as [[a rb1]| |] eqn:E; [|done..].
  intros Hr Hp. eapply Hk; [exact Hr|]. by eapply Hm.
Qed.

Lemma positive_setScreenWidth v : keeps_positive (setScreenWidth v).
Proof.
  intros rb e rb'. unfold setScreenWidth.
  destruct (Z.leb_spec v 0).
  - by intros [= _ <-].
  - intros [= _ <-]. simpl. lia.
Qed.

Lemma positive_SetScreenWidth v : keeps_positive (SetScreenWidth v).
Proof.
  unfold SetScreenWidth, Refresh.
  apply positive_bind; [apply keeps_width_positive; keeps_all|]. intros rb.
  destruct (negb _); [apply positive_setScreenWidth|].
  apply positive_bind; [apply keeps_width_positive; keeps_all|]. intros _.
  apply positive_bind; [apply positive_setScreenWidth|]. intros e.
  apply keeps_width_positive. keeps_all.
Qed.

Lemma positive_run_call c : keeps_positive (run_call c).
Proof.
  destruct c; cbn [run_call].
  - apply keeps_width_positive, keeps_run_op.
  - unfold drop_result. apply positive_bind; [apply positive_SetScreenWidth|].
    intros e. apply keeps_width_positive. keeps_all.
  - apply keeps_width_positive. unfold SetPrompt, setPrompt.
    apply keeps_Refresh. keeps_all.
  - apply keeps_width_positive. unfold SetMask, setMask.
    apply keeps_Refresh. keeps_all.
  - apply keeps_width_positive. unfold SetInteractive, setInteractive.
    apply keeps_bind; [keeps_all|]. intros _. apply keeps_Refresh. keeps_all.
  - apply keeps_width_positive. unfold Set_, setBuf.
    apply keeps_Refresh. keeps_all.
  - apply keeps_width_positive. unfold ResetBuf, resetBuf. keeps_all.
  - apply keeps_width_positive. unfold Clear, write.
    apply keeps_bind; [keeps_all|]. intros _. apply keeps_Refresh. keeps_all.
Qed.

Lemma positive_run_calls cs : keeps_positive (run_calls cs).
Proof.
  induction cs as [|c cs IH]; cbn [run_calls].
  - apply keeps_width_positive, keeps_ret.
  - apply positive_bind; [apply positive_run_call|]. by intros _.
Qed.

Lemma NewRuneBuffer_positive out p m on sw rb0 :
  NewRuneBuffer out p m on sw = Ok (inl rb0) ->
  0 < sw /\ screenWidth rb0 = sw.
Proof.
  unfold NewRuneBuffer, setPrompt, setMask, setInteractive, setScreenWidth,
    bind, modify, ret. simpl.
  destruct (Z.leb_spec sw 0); simpl; [done|].
  intros [= <-]. simpl. split; [lia|done].
Qed.

Lemma NewRuneBuffer_refuses out p m on sw :
  sw <= 0 -> NewRuneBuffer out p m on sw = Ok (inr (ErrInvalidScreenWidth sw)).
Proof.
  intros Hsw.
  unfold NewRuneBuffer, setPrompt, setMask, setInteractive, setScreenWidth,
    bind, modify, ret. simpl.
  destruct (Z.leb_spec sw 0); simpl; [done|lia].
Qed.

(** The public setter returns on a good buffer; a positive width has to leave
    room for the prompt when the buffer draws itself. *)
Lemma wp_SetScreenWidth v rb :
  good rb ->
  (0 < v -> interactive rb = true ->
   promptWidth rb <= v /\ forall s, SplitByLine (promptWidth rb) v s <> []) ->
  wp (SetScreenWidth v) (fun e rb' =>
    if v <=? 0
    then e = Some (ErrInvalidScreenWidth v) /\ screenWidth rb' = screenWidth rb
    else e = None /\ screenWidth rb' = v) rb.
Proof.
  intros Hg Hv. unfold SetScreenWidth.
  eapply wp_mono; [apply wp_Refresh with (Q := fun e rb' =>
    if v <=? 0
    then e = Some (ErrInvalidScreenWidth v) /\ screenWidth rb' = screenWidth rb
    else e = None /\ screenWidth rb' = v); [done|]|by intros ? ? [_ ?]].
  intros o c. unfold setScreenWidth.
  destruct (Z.leb_spec v 0) as [Hle|Hgt]; wp_steps.
  - split; [exact Hg|]. split; [done|]. intros. done.
  - destruct Hg as (Hwf & Hinv & Hd).
    split; [|split; [done|intros; done]].
    split; [exact Hwf|]. split; [exact Hinv|].
    intros Hi. simpl in *. destruct (Hd Hi) as (Hsw & Hpw & Htab & Hsp).
    destruct (Hv Hgt Hi) as [Hpv Hsv]. split_and!; (done || lia).
Qed.

End Width.

End width_facts.

(** ** The claims about the rune buffer *)

Module runeutil_claims.
Import gort gort_facts runeutil wp_rules runeutil_facts width_facts.

(** A buffer that holds the text [l] with the cursor at [i]: not
    interactive, no mask, no prompt, an empty kill slot, a screen of 80
    columns. *)
Definition buffer_of (l : list rune) (i : Z) : RuneBuffer :=
  {| w := []; prompt := []; promptWidth := 0; mask := 0;
     interactive := false; screenWidth := 80; idx := i;
     buf := Slice 0 0 (length l) (length l);
     backup := None; hadClean := false; lastKill := nil_slice;
     mem := [l] |}.

(** The same with the text [k] in the kill slot. *)
Definition buffer_with_kill (l : list rune) (i : Z) (k : list rune)
  : RuneBuffer :=
  with_lastKill (Slice 1 0 (length k) (length k))
    (with_mem [l; k] (buffer_of l i)).

(** A runtime that doubles the capacity of a slice that has to grow. *)
Definition doubling : GoRuntime :=
  {| growcap := fun old need => Nat.max need (2 * old) |}.

(** A width model for plain ASCII text: letters and digits make words, every
    codepoint is one column wide, nothing is filtered, and the text is one
    line. *)
Definition ascii_model : WidthModel :=
  {| IsWordBreak := fun r =>
       negb (((97 <=? r) && (r <=? 122)) || ((65 <=? r) && (r <=? 90))
             || ((48 <=? r) && (r <=? 57)));
     WidthAll := fun s => Z.of_nat (length s);
     ColorFilter := fun s => s;
     SplitByLine := fun _ _ s => [string_of_runes s];
     TabWidth := 4 |}.

(** The masked rendering of a text: the mask for every codepoint, except
    that a newline at the very end is written as a newline. *)
Fixpoint masked (m : rune) (l : list rune) : list byte :=
  match l with
  | [] => []
  | [c] => if c =? 10 then [10] else encode_rune m
  | _ :: l' => encode_rune m ++ masked m l'
  end.

(** The masked rendering as the specification words it: the mask for every
    codepoint except the last, which is written as itself. *)
Fixpoint masked_but_last (m : rune) (l : list rune) : list byte :=
  match l with
  | [] => []
  | [c] => encode_rune c
  | _ :: l' => encode_rune m ++ masked_but_last m l'
  end.

Section Claims.
Context `{GoRuntime} `{WidthModel}.

Lemma good_buffer_of l i :
  0 <= i <= Z.of_nat (length l) -> good (buffer_of l i).
Proof.
  intros Hi. split; [|split; [exact Hi|done]].
  unfold wf, backup_ok, slice_wf, apart, array_at. simpl.
  split_and!; first [lia | tauto].
Qed.

Lemma good_buffer_with_kill l i k :
  0 <= i <= Z.of_nat (length l) -> good (buffer_with_kill l i k).
Proof.
  intros Hi. split; [|split; [exact Hi|done]].
  unfold wf, backup_ok, slice_wf, apart, array_at. simpl.
  split_and!; first [lia | tauto | (right; right; lia)].
Qed.



(** C4.  With the cursor before the end of a good buffer, [Kill] and then
    [Yank] both succeed and restore the text; the cursor ends where it was
    plus the length of the killed span, which is the end of the buffer. *)
Theorem kill_yank_round_trip (rb : RuneBuffer) :
  good rb -> idx rb < length_of (buf rb) ->
  exists rb1 rb2,
    Kill rb = Ok (true, rb1) /\ Yank rb1 = Ok (true, rb2) /\
    text rb2 = text rb /\
    idx rb2 = idx rb + Z.of_nat (length (drop (Z.to_nat (idx rb)) (text rb))) /\
    idx rb2 = Z.of_nat (length (text rb)).
Proof.
  intros Hg Hlt. pose proof Hg as ((Hb & _) & Hinv & _). unfold inv in Hinv.
  assert (Hlen : length (text rb) = len (buf rb))
    by (unfold text; by rewrite elems_length).
  destruct (wp_elim _ _ _ (wp_Kill rb Hg Hlt))
    as (a1 & rb1 & Hr1 & Hg1 & -> & Ht1 & Hi1 & Hk1).
  destruct (wp_elim _ _ _ (wp_Yank rb1 Hg1))
    as (a2 & rb2 & Hr2 & Hg2 & Ha2 & Ht2 & Hi2 & Hk2).
  pose proof Hg1 as ((_ & Hkw & _) & _).
  assert (Hkl : length (killed rb1) = len (lastKill rb1))
    by (unfold killed; by rewrite elems_length).
  assert (Hpos : (0 < len (lastKill rb1))%nat).
  { rewrite <- Hkl, Hk1, length_drop. unfold length_of in *. lia. }
  exists rb1, rb2. split_and!; try done.
  - rewrite Hr2, Ha2. unfold length_of.
    destruct (Z.eqb_spec (Z.of_nat (len (lastKill rb1))) 0); [lia|done].
  - rewrite Ht2, Hk1, Ht1, Hi1.
    rewrite take_take, Nat.min_id.
    rewrite (drop_ge (take _ _)) by (rewrite length_take; lia).
    by rewrite app_nil_r, take_drop.
  - by rewrite Hi2, Hk1, Hi1.
  - rewrite Hi2, Hk1, Hi1, length_drop. unfold length_of in *. lia.
Qed.




(** The decomposition of [masked] that [outputPrint] computes. *)
Lemma masked_repeat m l c :
  last l = Some c ->
  masked m l = concat (replicate (length l - 1) (encode_rune m))
                 ++ (if c =? 10 then [10] else encode_rune m).
Proof.
  induction l as [|x l IH]; [done|]. destruct l as [|y l].
  - by intros [= ->].
  - intros Hl. rewrite last_cons_cons in Hl. specialize (IH Hl).
    change (masked m (x :: y :: l)) with (encode_rune m ++ masked m (y :: l)).
    rewrite IH.
    replace (length (x :: y :: l) - 1)%nat with (S (length (y :: l) - 1))
      by (simpl; lia).
    by rewrite replicate_S, concat_cons, app_assoc.
Qed.



(** C5, at the failing input.  With the text "ab" and the cursor after "a",
    where no word starts before the cursor, [KillWordFront] returns true with
    the whole buffer gone, "b" included, and nothing stored in the kill
    slot. *)
Theorem KillWordFront_empties_buffer :
  exists rb',
    KillWordFront (buffer_of [97; 98] 1) = Ok (true, rb') /\
    text rb' = [] /\ idx rb' = 0 /\ killed rb' = [].
Proof. eexists. split; [vm_compute; reflexivity|]. by vm_compute. Qed.

End Claims.


(** *** The claims at concrete buffers *)

Section Examples.
#[local] Existing Instance doubling.
#[local] Existing Instance ascii_model.

(** The text "ab" with the cursor between the two letters. *)
Definition ab1 : RuneBuffer := buffer_of [97; 98] 1.

(** The text "ab cd" with the cursor at the end, "xy" in the kill slot. *)
Definition words : RuneBuffer :=
  buffer_with_kill [97; 98; 32; 99; 100] 5 [120; 121].

(** The text "ab" behind the mask "*", cursor at the end, drawn on a screen
    of 80 columns. *)
Definition secret : RuneBuffer :=
  with_interactive true (with_mask 42 (buffer_of [97; 98] 2)).

Lemma good_secret : good secret.
Proof.
  split; [|split].
  - unfold wf, backup_ok, slice_wf, apart, array_at. simpl.
    split_and!; first [lia | tauto].
  - unfold inv, length_of. simpl. lia.
  - intros _. simpl. split_and!; try lia. done.
Qed.




Lemma kill_yank_round_trip_witness :
  good ab1 /\ idx ab1 < length_of (buf ab1) /\
  exists rb1 rb2,
    Kill ab1 = Ok (true, rb1) /\ Yank rb1 = Ok (true, rb2) /\
    text rb2 = text ab1 /\
    idx rb2 = idx ab1
              + Z.of_nat (length (drop (Z.to_nat (idx ab1)) (text ab1))) /\
    idx rb2 = Z.of_nat (length (text ab1)).
Proof.
  split; [apply good_buffer_of; simpl; lia|].
  split; [vm_compute; reflexivity|].
  apply (kill_yank_round_trip ab1); [apply good_buffer_of; simpl; lia|].
  vm_compute. reflexivity.
Defined.







End Examples.

End runeutil_claims.

(** ** The input loop *)

Module readline_facts.
Import gort gort_facts runeutil wp_rules runeutil_facts readline.

(** The escape buffer of the loop stays within the sixteen bytes it was made
    with, and while the loop is in escape mode there is room left in it. *)
Definition esc_inv (l : loop) : Prop :=
  (length (escBuf l) <= 16)%nat /\ escCap l = 16%nat /\
  (escaped l = true -> (length (escBuf l) < 16)%nat).

#[local] Arguments dispatch : simpl never.
#[local] Arguments run_term : simpl never.

Section Facts.
Context `{GoRuntime} `{GoRuntimeBytes} `{WidthModel} `{Keys} `{Decoder}.

(** The bytes the switch of the loop has a case for. *)
Definition is_control (c : byte) : bool :=
  (c =? CharLineStart) || (c =? CharBackward) || (c =? CharInterrupt)
  || (c =? CharDelete) || (c =? CharLineEnd) || (c =? CharForward)
  || (c =? CharBell) || (c =? CharBackspace) || (c =? CharBackspaceEx)
  || (c =? CharTab) || (c =? CharFeed) || (c =? CharReturn)
  || (c =? CharKill) || (c =? CharClear) || (c =? CharNext)
  || (c =? CharPrev) || (c =? CharBckSearch) || (c =? CharFwdSearch)
  || (c =? CharTranspose) || (c =? CharKillFront)
  || (c =? CharKillWordFront) || (c =? CharYank).

(** The states the loop goes through from its start on the terminal [t]:
    a round is run on a state without error, and [finish] on one with an
    error. *)
Inductive reach (t : Terminal) : loop -> Prop :=
| reach_start : reach t (start t)
| reach_round l evs l' evs' :
    reach t l -> err l = None -> round l evs = Ok (l', evs') -> reach t l'
| reach_finish l l' :
    reach t l -> err l <> None -> finish l = Ok l' -> reach t l'.

(** The escape decoder gives no event on the bytes [p]: it does not
    recognise them, or the loop's [escape] declines what it recognised. *)
Definition no_event (p : list byte) (t : Terminal) : Prop :=
  match decodeEscapeKeyPair p with
  | None => True
  | Some k => escape k t = Ok (false, t)
  end.

(** What a byte [b] read in escape mode does when it completes no event: it
    is kept in the buffer while that leaves room, and when it fills the
    buffer the loop leaves escape mode and takes the escape character and
    the buffer as typed text. *)
Definition accumulates (l : loop) : Prop :=
  forall b, escaped l = true -> no_event (escBuf l ++ [b]) (term l) ->
    handle b [b] l =
      let l' := with_escBuf (escBuf l ++ [b]) 16 l in
      if (length (escBuf l ++ [b]) <? 16)%nat then Ok l'
      else run_term (literal (CharEscape :: escBuf l ++ [b]))
                    (with_escaped false l').

Lemma wp_on_rb {A} (m : R A) (Q : A -> Terminal -> Prop) t :
  wp m (fun a x => Q a (with_rb x t)) (rb t) -> wp (on_rb m) Q t.
Proof. unfold wp, on_rb. by destruct (m (rb t)) as [[a x]| |]. Qed.

Lemma dispatch_literal c p l :
  is_control c = false -> dispatch (c :: p) l = run_term (literal (c :: p)) l.
Proof.
  unfold is_control, dispatch. intros Hc.
  repeat (apply orb_false_elim in Hc as [Hc ?]).
  repeat match goal with
         | E : (_ =? _) = false |- _ => rewrite E; clear E
         end.
  done.
Qed.

Lemma run_term_frame m l l' :
  run_term m l = Ok l' ->
  escaped l' = escaped l /\ escBuf l' = escBuf l /\ escCap l' = escCap l.
Proof.
  unfold run_term. destruct (m (term l)) as [[[] t]| |]; simpl; [|done..].
  by intros [= <-].
Qed.

(** The switch changes the terminal and the error, nothing else. *)
Lemma dispatch_frame p l l' :
  dispatch p l = Ok l' ->
  escaped l' = escaped l /\ escBuf l' = escBuf l /\ escCap l' = escCap l.
Proof.
  unfold dispatch. destruct p as [|c p]; [by intros [= <-]|].
  repeat match goal with
         | |- context [if ?b then _ else _] => destruct b
         end;
    first [apply run_term_frame | by intros [= <-]].
Qed.

Lemma esc_append_fits p l :
  esc_inv l -> escaped l = true -> length p = 1%nat ->
  esc_append p l = with_escBuf (escBuf l ++ p) 16 l.
Proof.
  intros (Hl & Hc & He) Hesc Hp. specialize (He Hesc).
  unfold esc_append. rewrite Hc, Hp.
  by destruct (Nat.leb_spec (length (escBuf l) + 1) 16); [|lia].
Qed.

Lemma handle_esc_inv b p l l' :
  esc_inv l -> (escaped l = true -> length p = 1%nat) ->
  handle b p l = Ok l' -> esc_inv l'.
Proof.
  intros Hi Hp. unfold handle.
  destruct ((b =? CharEscape) || escaped l) eqn:Eb; cycle 1.
  { intros (E1 & E2 & E3)%dispatch_frame. unfold esc_inv.
    by rewrite E1, E2, E3. }
  set (l1 := if negb (escaped l) then _ else _).
  assert (Hl1 : (length (escBuf l1) <= 16)%nat /\ escCap l1 = 16%nat).
  { subst l1. destruct (escaped l) eqn:Ee; simpl.
    - rewrite esc_append_fits by auto. simpl.
      destruct Hi as (_ & _ & Hlt). specialize (Hlt Ee).
      rewrite length_app, (Hp eq_refl). split; [lia|done].
    - split; [lia|apply Hi]. }
  destruct Hl1 as [Hlen Hcap].
  assert (Hflush : forall t l',
    (if (length (escBuf (with_term t l1)) <? escCap (with_term t l1))%nat
     then Ok (with_term t l1)
     else dispatch (CharEscape :: escBuf (with_term t l1))
                   (with_escaped false (with_term t l1))) = Ok l' ->
    esc_inv l').
  { intros t l2. simpl. rewrite Hcap.
    destruct (Nat.ltb_spec (length (escBuf l1)) 16).
    - intros [= <-]. unfold esc_inv. simpl. by rewrite Hcap.
    - intros (E1 & E2 & E3)%dispatch_frame. unfold esc_inv.
      rewrite E1, E2, E3. simpl. by rewrite Hcap. }
  destruct (decodeEscapeKeyPair (escBuf l1)) as [k|].
  - destruct (escape k (term l1)) as [[[] t]| |]; simpl; [| |done..].
    + intros (E1 & E2 & E3)%dispatch_frame. unfold esc_inv.
      rewrite E1, E2, E3. simpl. by rewrite Hcap.
    + apply Hflush.
  - intros Hf. apply (Hflush (term l1)). by destruct l1.
Qed.

Lemma round_esc_inv l evs l' evs' :
  esc_inv l -> round l evs = Ok (l', evs') -> esc_inv l'.
Proof.
  intros Hi. unfold round. destruct evs as [|[b| |e|] evs].
  - by intros [= <- <-].
  - destruct ((RuneSelf <=? b) && negb (escaped l)) eqn:Eb.
    + destruct (decode_rune b (pending evs)) as [r n].
      destruct (handle b (encode_rune r) l) as [l2| |] eqn:Eh; simpl;
        [|done..].
      intros [= <- <-]. apply (handle_esc_inv _ _ _ _ Hi) in Eh; [done|].
      intros Ee. rewrite Ee, andb_false_r in Eb. done.
    + destruct (handle b [b] l) as [l2| |] eqn:Eh; simpl; [|done..].
      intros [= <- <-]. by apply (handle_esc_inv _ _ _ _ Hi) in Eh.
  - intros [= <- <-]. destruct Hi as (? & ? & ?). unfold esc_inv. simpl.
    split; [lia|done].
  - by intros [= <- <-].
  - by intros [= <- <-].
Qed.

Lemma finish_esc_inv l l' : esc_inv l -> finish l = Ok l' -> esc_inv l'.
Proof.
  intros Hi (E1 & E2 & E3)%run_term_frame. unfold esc_inv.
  by rewrite E1, E2, E3.
Qed.

Lemma reach_esc_inv t l : reach t l -> esc_inv l.
Proof.
  induction 1 as [|l evs l' evs' _ IH _ Hr|l l' _ IH _ Hf].
  - unfold esc_inv. simpl. split; [lia|]. split; [done|]. lia.
  - exact (round_esc_inv _ _ _ _ IH Hr).
  - exact (finish_esc_inv _ _ IH Hf).
Qed.

(** The loop on a list of events goes through reachable states only. *)
Lemma rounds_reach t k l evs l' :
  reach t l -> rounds k l evs = Ok l' -> reach t l'.
Proof.
  revert l evs. induction k as [|k IH]; intros l evs Hl; simpl.
  - destruct (err l) eqn:Ee.
    + intros Hf. apply (reach_finish t l); [done|by rewrite Ee|done].
    + destruct evs; [|done]. by intros [= <-].
  - destruct (err l) eqn:Ee.
    + intros Hf. apply (reach_finish t l); [done|by rewrite Ee|done].
    + destruct evs as [|e evs]; [by intros [= <-]|].
      destruct (round l (e :: evs)) as [[l2 evs2]| |] eqn:Er; simpl;
        [|done..].
      apply IH. exact (reach_round t l (e :: evs) l2 evs2 Hl Ee Er).
Qed.

Lemma ioloop_reach t evs l : ioloop t evs = Ok l -> reach t l.
Proof. apply rounds_reach, reach_start. Qed.

Lemma with_term_same l : with_term (term l) l = l.
Proof. by destruct l. Qed.

Lemma handle_accumulates l :
  is_control CharEscape = false -> esc_inv l -> accumulates l.
Proof.
  intros Hesc Hi b He Hn. unfold handle. rewrite He, orb_true_r. simpl negb.
  cbv iota. rewrite esc_append_fits by done.
  set (l1 := with_escBuf (escBuf l ++ [b]) 16 l).
  change (escBuf l1) with (escBuf l ++ [b]).
  change (escCap l1) with 16%nat.
  assert (Hflush :
    (if (length (escBuf l ++ [b]) <? 16)%nat then Ok l1
     else dispatch (CharEscape :: escBuf l ++ [b]) (with_escaped false l1))
    = (if (length (escBuf l ++ [b]) <? 16)%nat then Ok l1
       else run_term (literal (CharEscape :: escBuf l ++ [b]))
                     (with_escaped false l1))).
  { destruct (_ <? _)%nat; [done|]. by apply dispatch_literal. }
  unfold no_event in Hn.
  destruct (decodeEscapeKeyPair (escBuf l ++ [b])) as [k|]; [|exact Hflush].
  change (term l1) with (term l). rewrite Hn. simpl obind.
  replace (with_term (term l) l1) with l1
    by (symmetry; exact (with_term_same l1)).
  exact Hflush.
Qed.

(** *** Rounds on a byte of typed text, on Ctrl-B and on Enter *)

Lemma runes_of_ascii c : c < RuneSelf -> runes_of_string [c] = [c].
Proof.
  unfold RuneSelf. intros Hc. unfold runes_of_string. simpl.
  unfold decode_rune, first, RuneSelf.
  repeat match goal with
         | |- context [?a <=? ?b] =>
             destruct (Z.leb_spec a b); [lia|]; simpl
         | |- context [?a =? ?b] =>
             destruct (Z.eqb_spec a b); [lia|]; simpl
         end.
  by destruct (Z.ltb_spec c 128); [|lia].
Qed.

Lemma good_text_length rb :
  good rb -> Z.of_nat (length (text rb)) = length_of (buf rb).
Proof.
  intros ((Hb & _) & _). unfold text, length_of. by rewrite elems_length.
Qed.

Lemma run_term_start m t t' :
  m t = Ok (tt, t') -> run_term m (start t) = Ok (start t').
Proof. unfold run_term. simpl. by intros ->. Qed.

Lemma rounds_cons k l e evs l' evs' :
  err l = None -> round l (e :: evs) = Ok (l', evs') ->
  rounds (S k) l (e :: evs) = rounds k l' evs'.
Proof. intros E Hr. cbn [rounds]. by rewrite E, Hr. Qed.

Lemma rounds_start k t e evs l' evs' :
  round (start t) (e :: evs) = Ok (l', evs') ->
  rounds (S k) (start t) (e :: evs) = rounds k l' evs'.
Proof. by apply rounds_cons. Qed.

Lemma round_start_byte b t evs :
  b < RuneSelf -> b <> CharEscape ->
  round (start t) (Byte b :: evs)
  = obind (dispatch [b] (start t)) (fun l' => Ok (l', evs)).
Proof.
  intros Hb He. unfold round.
  destruct (Z.leb_spec RuneSelf b); [lia|]. simpl andb. cbv iota.
  unfold handle. simpl escaped.
  by destruct (Z.eqb_spec b CharEscape).
Qed.

(** A byte of plain text typed with the insert mode off goes into the
    buffer at the cursor. *)
Lemma round_literal c t evs :
  is_control c = false -> c <> CharEscape -> c < RuneSelf ->
  encodeControlChars [c] = [c] ->
  ioInsMode t = false -> good (rb t) ->
  exists t',
    round (start t) (Byte c :: evs) = Ok (start t', evs) /\
    good (rb t') /\
    text (rb t') = take (Z.to_nat (idx (rb t))) (text (rb t))
                     ++ c :: drop (Z.to_nat (idx (rb t))) (text (rb t)) /\
    idx (rb t') = idx (rb t) + 1 /\
    lineResultCh t' = lineResultCh t /\ ioInsMode t' = ioInsMode t /\
    ioErr t' = ioErr t.
Proof.
  intros Hc He Hlt Henc Hins Hg.
  rewrite round_start_byte, dispatch_literal by done.
  assert (Hw : wp (literal [c]) (fun _ t' =>
    good (rb t') /\
    text (rb t') = take (Z.to_nat (idx (rb t))) (text (rb t))
                     ++ c :: drop (Z.to_nat (idx (rb t))) (text (rb t)) /\
    idx (rb t') = idx (rb t) + 1 /\
    lineResultCh t' = lineResultCh t /\ ioInsMode t' = ioInsMode t /\
    ioErr t' = ioErr t) t).
  { unfold literal. rewrite Henc. wp_steps. rewrite Hins. simpl negb.
    cbv iota. apply wp_on_rb. unfold WriteBytes, WriteString.
    rewrite runes_of_ascii by done.
    eapply wp_mono; [by apply wp_WriteRunes|].
    intros _ x (Hgx & Htx & Hix & _). simpl. by rewrite Hins. }
  apply wp_elim in Hw as ([] & t' & Et & Ht).
  exists t'. pose proof (run_term_start (literal [c]) t t' Et) as Er.
  unfold byte in *. by rewrite Er.
Qed.

(** Ctrl-B with the cursor past the start moves it one codepoint back. *)
Lemma round_backward t evs :
  CharEscape <> CharBackward -> good (rb t) -> idx (rb t) <> 0 ->
  exists t',
    round (start t) (Byte CharBackward :: evs) = Ok (start t', evs) /\
    good (rb t') /\ text (rb t') = text (rb t) /\
    idx (rb t') = idx (rb t) - 1 /\
    lineResultCh t' = lineResultCh t /\ ioInsMode t' = ioInsMode t /\
    ioErr t' = ioErr t.
Proof.
  intros He Hg Hi.
  rewrite round_start_byte
    by (unfold RuneSelf, CharBackward, CharCtrlB; done || lia).
  assert (Hw : wp opBackward (fun _ t' =>
    good (rb t') /\ text (rb t') = text (rb t) /\
    idx (rb t') = idx (rb t) - 1 /\
    lineResultCh t' = lineResultCh t /\ ioInsMode t' = ioInsMode t /\
    ioErr t' = ioErr t) t).
  { unfold opBackward, or_bell. wp_step. apply wp_on_rb.
    eapply wp_mono; [by apply wp_MoveBackward|].
    intros a x (Hgx & -> & Htx & Hix & _).
    destruct (Z.eqb_spec (idx (rb t)) 0); [done|]. simpl negb. cbv iota.
    by wp_step. }
  apply wp_elim in Hw as ([] & t' & Et & Ht).
  exists t'. split; [|done].
  change (dispatch [CharBackward] (start t))
    with (run_term opBackward (start t)).
  pose proof (run_term_start opBackward t t' Et) as Er.
  unfold byte in *. by rewrite Er.
Qed.

Lemma string_of_runes_app l l' :
  string_of_runes (l ++ l') = string_of_runes l ++ string_of_runes l'.
Proof. unfold string_of_runes. by rewrite fmap_app, concat_app. Qed.

(** Enter publishes the text of the buffer on an empty channel and empties
    the buffer. *)
Lemma round_return t evs :
  CharEscape <> 13 -> CharBackspaceEx <> 13 ->
  CharFeed = 13 \/ CharReturn = 13 ->
  good (rb t) -> lineResultCh t = [] ->
  exists t',
    round (start t) (Byte 13 :: evs) = Ok (start t', evs) /\
    good (rb t') /\ text (rb t') = [] /\ idx (rb t') = 0 /\
    lineResultCh t'
    = [{| Line := string_of_runes (text (rb t)); Err := None |}] /\
    ioInsMode t' = ioInsMode t /\ ioErr t' = ioErr t.
Proof.
  intros He Hbs Hret Hg Hch.
  rewrite round_start_byte by (unfold RuneSelf; done || lia).
  assert (Hw : wp opReturn (fun _ t' =>
    good (rb t') /\ text (rb t') = [] /\ idx (rb t') = 0 /\
    lineResultCh t'
    = [{| Line := string_of_runes (text (rb t)); Err := None |}] /\
    ioInsMode t' = ioInsMode t /\ ioErr t' = ioErr t) t).
  { unfold opReturn. wp_step. apply wp_on_rb.
    eapply wp_mono; [by apply wp_MoveToLineEnd|].
    intros a x1 (Hg1 & _ & Ht1 & Hi1 & _). wp_step. apply wp_on_rb.
    simpl rb. unfold WriteRune.
    eapply wp_mono; [by apply wp_WriteRunes|].
    intros _ x2 (Hg2 & Ht2 & Hi2 & _). wp_step. apply wp_on_rb.
    simpl rb. apply wp_Bytes. cbv zeta.
    rewrite Ht2, Hi1, Ht1, <- (good_text_length _ Hg), Nat2Z.id.
    rewrite firstn_all, drop_all, app_nil_r, string_of_runes_app.
    change (string_of_runes [10]) with [10].
    rewrite length_app. simpl length.
    destruct (Z.ltb_spec 0
      (Z.of_nat (length (string_of_runes (text (rb t))) + 1))); [|lia].
    replace (length (string_of_runes (text (rb t))) + 1 - 1)%nat
      with (length (string_of_runes (text (rb t)))) by lia.
    rewrite take_app_length.
    wp_step. unfold sendLineResult. wp_step. simpl lineResultCh.
    rewrite Hch. apply wp_on_rb. simpl rb. unfold ResetBuf.
    eapply wp_mono; [by apply wp_resetBuf|].
    intros _ x3 (Hg3 & _ & _ & _ & Ht3 & Hi3 & _). by simpl. }
  apply wp_elim in Hw as ([] & t' & Et & Ht).
  exists t'. split; [|done].
  assert (Hd : dispatch [13] (start t) = run_term opReturn (start t)).
  { unfold dispatch.
    destruct (Z.eqb_spec 13 CharBackspaceEx) as [E|_]; [by destruct Hbs|].
    assert (Hor : (13 =? CharFeed) || (13 =? CharReturn) = true).
    { destruct Hret as [-> | ->]; [done|]. apply orb_true_r. }
    rewrite Hor. done. }
  pose proof (run_term_start opReturn t t' Et) as Er.
  unfold byte in *. by rewrite Hd, Er.
Qed.

End Facts.

End readline_facts.

(** ** The claims about the input loop *)

Module readline_claims.
Import gort gort_facts runeutil wp_rules runeutil_facts readline.
Import readline_facts.

(** A terminal on the buffer [x]: nothing published, the loop's error not
    stored yet, the insert mode off. *)
Definition terminal_of (x : RuneBuffer) : Terminal :=
  {| rb := x; lineResultCh := []; ioErr := None; ioInsMode := false |}.

(** The keys of a usual terminal for the constants that are not declared
    among the sources. *)
Definition usual_keys : Keys :=
  {| CharEscape := 27; CharBackspaceEx := 8; CharFeed := 10;
     CharReturn := 13; CharClear := 12; CharKillFront := 21;
     CharKillWordFront := 23; CharYank := 25 |}.

(** A decoder that recognises no escape sequence, with control characters
    left as they are. *)
Definition no_decoder : Decoder :=
  {| decodeEscapeKeyPair := fun _ => None;
     encodeControlChars := fun p => p |}.

Definition doubling_bytes : GoRuntimeBytes :=
  {| growcap_bytes := fun old need => Nat.max need (2 * old) |}.

Section Claims.
Context `{GoRuntime} `{GoRuntimeBytes} `{WidthModel} `{Keys} `{Decoder}.

(** What the session on [a b Ctrl-B c Enter] needs of the constants and the
    encoder that are not among the sources: the three letters are typed text
    that the encoder leaves alone, the escape character is none of the five
    bytes, and Enter is what the switch takes for a line feed or a return
    and not for a backspace. *)
Definition abc_keys : Prop :=
  (forall c, c ∈ [97; 98; 99] ->
     is_control c = false /\ c <> CharEscape /\
     encodeControlChars [c] = [c]) /\
  CharEscape <> CharBackward /\ CharEscape <> 13 /\
  CharBackspaceEx <> 13 /\ (CharFeed = 13 \/ CharReturn = 13).



End Claims.

Section Examples.
#[local] Existing Instance runeutil_claims.doubling.
#[local] Existing Instance runeutil_claims.ascii_model.
#[local] Existing Instance doubling_bytes.
#[local] Existing Instance usual_keys.
#[local] Existing Instance no_decoder.

(** A terminal on an empty buffer. *)
Definition fresh : Terminal := terminal_of (runeutil_claims.buffer_of [] 0).

(** The escape character followed by fifteen digits. *)
Definition fifteen : list event := Byte 27 :: replicate 15 (Byte 49).

(** The state of the loop after it has read [fifteen]. *)
Definition waiting : loop :=
  match ioloop fresh fifteen with
  | Ok l => l
  | _ => start fresh
  end.



End Examples.

End readline_claims.

(** ** More on the editing operations *)

Module runeutil_more.
Import gort gort_facts runeutil wp_rules runeutil_facts width_facts.
Import runeutil_claims.

Section Facts.
Context `{GoRuntime} `{WidthModel}.

Lemma text_length rb :
  good rb -> length (text rb) = len (buf rb).
Proof. intros ((Hb & _) & _). unfold text. by rewrite elems_length. Qed.

(** [Delete] with the cursor at the end changes nothing. *)
Lemma wp_Delete_at_end rb :
  good rb -> idx rb = length_of (buf rb) ->
  wp Delete (fun a rb' =>
    good rb' /\ a = false /\ text rb' = text rb /\ idx rb' = idx rb /\
    killed rb' = killed rb) rb.
Proof.
  intros Hg He. unfold Delete. apply wp_Refresh; [done|]. intros o c.
  wp_steps. simpl.
  destruct (Z.eqb_spec (idx rb) (length_of (buf rb))) as [E|E]; [|done].
  wp_steps. split; [exact Hg|]. split; [done|]. intros. done.
Qed.

(** What [Yank] does after an operation that has just saved [k] from a text
    that is now [l]. *)
Lemma Yank_after rb1 :
  good rb1 -> killed rb1 <> [] ->
  exists rb2,
    Yank rb1 = Ok (true, rb2) /\
    text rb2 = take (Z.to_nat (idx rb1)) (text rb1) ++ killed rb1
                 ++ drop (Z.to_nat (idx rb1)) (text rb1) /\
    idx rb2 = idx rb1 + Z.of_nat (length (killed rb1)) /\
    killed rb2 = killed rb1 /\ good rb2.
Proof.
  intros Hg Hk.
  destruct (wp_elim _ _ _ (wp_Yank rb1 Hg)) as (a & rb2 & Hr & Hg2 & Ha & Ht & Hi & Hk2).
  exists rb2. split_and!; try done.
  rewrite Hr, Ha. do 2 f_equal.
  pose proof Hg as ((_ & Hkw & _) & _).
  assert (Hl : length (killed rb1) = len (lastKill rb1))
    by (unfold killed; by rewrite elems_length).
  unfold length_of. destruct (Z.eqb_spec (Z.of_nat (len (lastKill rb1))) 0); [|done].
  destruct (killed rb1); [done|simpl in Hl; lia].
Qed.

(** [Transpose] in full: the two codepoints around the cursor change places,
    in the array the buffer already has. *)
Lemma wp_Transpose_spec rb :
  good rb ->
  wp Transpose (fun a rb' =>
    good rb' /\
    (killed rb' = killed rb /\ buf rb' = buf rb /\ backup rb' = backup rb /\
     if (length_of (buf rb) <=? 1) || (idx rb =? 0)
     then a = false /\ text rb' = text rb /\ idx rb' = idx rb
     else
       let j := Z.to_nat (Z.min (idx rb) (length_of (buf rb) - 1)) in
       exists x y,
         text rb !! (j - 1)%nat = Some x /\ text rb !! j = Some y /\
         a = true /\
         text rb' = <[(j - 1)%nat := y]> (<[j := x]> (text rb)) /\
         idx rb' = Z.of_nat j + 1)) rb.
Proof.
  intros Hg. unfold Transpose.
  apply wp_Refresh; [done|]. intros o c.
  pose proof Hg as (Hwf & Hinv & Hd). unfold inv in Hinv.
  pose proof Hwf as (Hb & Hk & Ha & Hbk). pose proof Hb as [Hlc _].
  wp_steps. simpl.
  destruct (Z.leb_spec (length_of (buf rb)) 1) as [E|E]; wp_steps.
  { split; [exact Hg|]. split; [done|]. intros. done. }
  destruct (Z.eqb_spec (idx rb) 0) as [E0|E0]; wp_steps.
  { split; [exact Hg|]. split; [done|]. intros. done. }
  set (i := if length_of (buf rb) <=? idx rb
            then length_of (buf rb) - 1 else idx rb).
  assert (Hi : 0 < i < length_of (buf rb))
    by (subst i; destruct (Z.leb_spec (length_of (buf rb)) (idx rb)); lia).
  assert (Hmin : Z.min (idx rb) (length_of (buf rb) - 1) = i)
    by (subst i; destruct (Z.leb_spec (length_of (buf rb)) (idx rb)); lia).
  apply wp_mono with (Q := fun _ rb1 => rb1 = with_idx i (redraw o c rb)).
  { subst i. destruct (length_of (buf rb) <=? idx rb); wp_steps; [done|].
    by destruct rb. }
  intros _ ? ->. wp_steps. simpl.
  apply wp_at; [done|lia|]. intros x Hx. wp_steps.
  apply wp_at; [done|lia|]. intros y Hy. wp_steps.
  apply wp_assign; [done|lia|]. intros h1 He1 Hw1. wp_steps. simpl in *.
  assert (Hb1 : slice_wf h1 (buf rb)) by apply Hw1.
  apply wp_assign; [done|lia|]. intros h2 He2 Hw2. wp_steps.
  unfold add_idx. wp_steps. simpl in *.
  destruct (good_written (redraw o c rb)
              (with_idx (i + 1) (with_mem h2 (with_mem h1 (with_idx i (redraw o c rb))))))
    as [Hg' Hk']; simpl; try done.
  { by eapply written_trans. }
  { unfold inv. simpl. lia. }
  split; [done|]. split; [done|]. intros o' c'. simpl.
  split; [done|]. split; [done|]. split; [done|].
  rewrite Hmin. exists x, y. unfold text. simpl.
  replace (Z.to_nat i - 1)%nat with (Z.to_nat (i - 1)) by lia.
  split; [done|]. split; [done|]. split; [done|].
  split; [by rewrite He2, He1|lia].
Qed.

(** [skip_breaks] stops on the first codepoint that is not a break
    character. *)
Lemma wp_skip_breaks_spec n i b (Q : Z -> RuneBuffer -> Prop) rb :
  slice_wf (mem rb) b -> 0 <= i -> i + Z.of_nat n <= length_of b ->
  (forall j, i <= j <= i + Z.of_nat n ->
     (forall k, (Z.to_nat i <= k < Z.to_nat j)%nat ->
        exists c, elems (mem rb) b !! k = Some c /\ IsWordBreak c = true) ->
     (j < i + Z.of_nat n ->
        exists c, elems (mem rb) b !! Z.to_nat j = Some c /\
                  IsWordBreak c = false) ->
     Q j rb) ->
  wp (skip_breaks n i b) Q rb.
Proof.
  intros Hb. revert i. induction n as [|k IH]; intros i Hi Hn HQ.
  - simpl. wp_steps. apply HQ; [lia|intros; lia|lia].
  - cbn [skip_breaks]. wp_steps. apply wp_at; [done|lia|]. intros c Hc.
    destruct (IsWordBreak c) eqn:Ec; wp_steps.
    + apply IH; [lia|lia|]. intros j Hj Hbr Hstop. apply HQ; [lia| |].
      * intros k0 Hk0. destruct (decide (k0 = Z.to_nat i)) as [->|].
        -- by exists c.
        -- apply Hbr. lia.
      * intros Hlt. apply Hstop. lia.
    + apply HQ; [lia|intros; lia|]. intros _. by exists c.
Qed.

End Facts.

(** Where the span that [KillWord] removes from position [i] ends: [init] is
    the first codepoint at or after [i] that is not a break character, [p]
    the next word start after [init], and the span ends one codepoint before
    [p], or at the end of the text when no word starts after [init]. *)
Definition kill_word_end `{WidthModel} (l : list rune) (i q : nat) : Prop :=
  exists init p,
    (i <= init <= length l)%nat /\
    (forall k, (i <= k < init)%nat ->
       exists c, l !! k = Some c /\ IsWordBreak c = true) /\
    ((init < length l)%nat ->
       exists c, l !! init = Some c /\ IsWordBreak c = false) /\
    next_word l init p /\
    q = if decide (p = length l) then length l else (p - 1)%nat.

Section Facts2.
Context `{GoRuntime} `{WidthModel}.

Lemma wp_KillWord_spec rb :
  good rb ->
  wp KillWord (fun a rb' =>
    good rb' /\
    (a = negb (idx rb =? length_of (buf rb)) /\ idx rb' = idx rb /\
     (idx rb = length_of (buf rb) ->
      text rb' = text rb /\ killed rb' = killed rb) /\
     (idx rb < length_of (buf rb) ->
      exists q, (Z.to_nat (idx rb) < q <= length (text rb))%nat /\
        kill_word_end (text rb) (Z.to_nat (idx rb)) q /\
        text rb' = take (Z.to_nat (idx rb)) (text rb) ++ drop q (text rb) /\
        killed rb' = take (q - Z.to_nat (idx rb))
                          (drop (Z.to_nat (idx rb)) (text rb))))) rb.
Proof.
  intros Hg. unfold KillWord.
  apply wp_Refresh; [done|]. intros o c.
  pose proof Hg as (Hwf & Hinv & Hd). unfold inv in Hinv.
  pose proof Hwf as (Hb & Hk & Ha & Hbk). pose proof Hb as [Hlc _].
  pose proof (text_length rb Hg) as Hlen.
  wp_steps. simpl.
  destruct (Z.eqb_spec (idx rb) (length_of (buf rb))) as [E|E]; wp_steps.
  { split; [exact Hg|]. split; [done|]. intros. split_and!; try done. lia. }
  apply wp_skip_breaks_spec; [done|lia|lia|]. simpl.
  intros init Hinit Hbr Hstop. wp_steps.
  apply wp_scan_up; [done|lia|unfold length_of in *; lia|]. simpl.
  intros p Hp1 Hp2 Hp3.
  (* the word start the scan reports, as a position of the text *)
  set (p' := if decide (init = length_of (buf rb)) then length (text rb) else p).
  assert (Hnext : next_word (text rb) (Z.to_nat init) p').
  { unfold p'. destruct (decide (init = length_of (buf rb))) as [Hz|Hz].
    - split; [unfold length_of in *; lia|]. split; [by left|].
      intros j Hj. unfold length_of in *. lia.
    - unfold length_of in *. split; [lia|]. split.
      + destruct Hp2 as [->|Hp2]; [left; lia|]. right. split; [lia|done].
      + intros j Hj. apply Hp3. lia. }
  assert (Hkwe : forall q,
    q = (if decide (p' = length (text rb)) then length (text rb)
         else (p' - 1)%nat) ->
    kill_word_end (text rb) (Z.to_nat (idx rb)) q).
  { intros q Hq. exists (Z.to_nat init), p'.
    split; [unfold length_of in *; lia|]. split; [exact Hbr|].
    split; [|done]. intros Hlt. apply Hstop. unfold length_of in *. lia. }
  match goal with
  | |- context [decide (p = ?x)] => destruct (decide (p = x)) as [Hz|Hz]
  end; wp_steps.
  - (* no word starts after [init]: the text is cut at the cursor *)
    unfold slice_from, slice_to.
    apply wp_reslice; [lia|unfold capacity_of, length_of in *; lia|].
    intros span Hspan. wp_steps.
    apply wp_pushKill. intros h1 k Hke Hal. wp_steps. simpl in *.
    set (rb1 := with_lastKill k (with_mem h1 (redraw o c rb))).
    destruct (good_pushed (redraw o c rb) rb1) as [Hg1 Ht1]; try done.
    pose proof Hg1 as (Hwf1 & _ & _). pose proof Hwf1 as (Hb1 & Hk1 & Ha1 & _).
    apply wp_reslice; [lia|unfold capacity_of, length_of in *; lia|].
    intros b Hr. wp_steps.
    pose proof (reslice_fields _ _ _ _ Hr) as (_ & _ & Hl & _).
    assert (Hp' : p' = length (text rb)).
    { unfold p'. destruct (decide (init = length_of (buf rb))); [done|].
      unfold length_of in *. lia. }
    split; [|split; [done|]].
    + split; [|split; [|exact Hd]].
      * apply (wf_new_buf rb1); simpl;
          [exact Hwf1|apply grows_refl|done|done
          |exact (reslice_wf _ _ _ _ _ Hb1 Hr)
          |exact (reslice_apart _ _ _ _ _ Ha1 Hr)].
      * unfold inv, length_of. simpl. lia.
    + intros o' c'. simpl. split; [done|]. split; [done|].
      split; [intros; lia|]. intros _.
      exists (length (text rb)).
      split; [unfold length_of in *; lia|].
      split; [apply Hkwe; by rewrite decide_True|].
      unfold text, killed in *. simpl in *. split.
      * rewrite drop_all, app_nil_r.
        rewrite (take_drop_elems _ _ _ _ Hb1 Hr)
          by (unfold length_of in *; lia).
        by rewrite Ht1.
      * rewrite Hke, (slice_from_elems _ _ _ _ Hb Hspan).
        symmetry. apply take_ge. rewrite length_drop. lia.
  - (* a word starts at [p]: the span ends one codepoint before it *)
    assert (Hne : init <> length_of (buf rb)) by (unfold length_of in *; lia).
    assert (Hp' : p' = p) by (unfold p'; by rewrite decide_False).
    assert (Hws : word_start (text rb) p = true)
      by (destruct Hp2 as [->|Hp2]; [done|exact Hp2]).
    (* the codepoint before [p] is a break character, the one at [init] is
       not, so [p - 1] is past [init] *)
    assert (Hgt : init < Z.of_nat p - 1).
    { destruct (Hstop ltac:(lia)) as (ci & Hci & Hcb).
      destruct (decide (Z.to_nat init = (p - 1)%nat)) as [Heq|]; [|lia].
      exfalso. unfold word_start in Hws.
      destruct p as [|p0]; [done|].
      replace (S p0 - 1)%nat with p0 in Heq by lia. rewrite <- Heq in Hws.
      unfold text in Hws. rewrite Hci in Hws.
      destruct (elems (mem rb) (buf rb) !! S (Z.to_nat init)); [|done].
      rewrite Hcb in Hws. by rewrite andb_false_r in Hws. }
    assert (Hpr : idx rb <= Z.of_nat p - 1 /\
                  Z.of_nat p - 1 < length_of (buf rb))
      by (unfold length_of in *; lia).
    apply wp_reslice; [lia|unfold capacity_of, length_of in *; lia|].
    intros span Hspan. wp_steps.
    apply wp_pushKill. intros h1 k Hke Hal. wp_steps. simpl in *.
    set (rb1 := with_lastKill k (with_mem h1 (redraw o c rb))).
    destruct (good_pushed (redraw o c rb) rb1) as [Hg1 Ht1]; try done.
    apply wp_cut; simpl; [apply Hg1|lia|lia|].
    intros h' b He Hl Hw. wp_steps.
    destruct (good_written rb1 (with_buf b (with_mem h' rb1)))
      as [Hg' Hk']; simpl; try done.
    { unfold inv. simpl. lia. }
    split; [done|]. split; [done|]. intros o' c'. simpl.
    split; [done|]. split; [done|]. split; [intros; lia|]. intros _.
    exists (p - 1)%nat.
    split; [unfold length_of in *; lia|].
    split; [apply Hkwe; rewrite Hp', decide_False;
            [done|unfold length_of in *; lia]|].
    unfold text, killed in *. simpl in *. split.
    + rewrite He, Ht1. do 2 f_equal. lia.
    + rewrite Hk', Hke.
      assert (Hhi : Z.of_nat p - 1 <= length_of (buf rb)) by lia.
      rewrite (reslice_elems _ _ _ _ _ Hb Hhi Hspan). f_equal. lia.
Qed.

End Facts2.

(** The codepoint [ch] does not occur in [l] from [lo] up to [hi]. *)
Definition absent (l : list rune) (ch : rune) (lo hi : nat) : Prop :=
  forall k, (lo <= k < hi)%nat -> l !! k <> Some ch.

Section Facts3.
Context `{GoRuntime} `{WidthModel}.

Lemma wp_find_down_spec n ch b (Q : option Z -> RuneBuffer -> Prop) rb :
  slice_wf (mem rb) b -> Z.of_nat n <= length_of b ->
  (absent (elems (mem rb) b) ch 0 n -> Q None rb) ->
  (forall j, (j < n)%nat -> elems (mem rb) b !! j = Some ch ->
             absent (elems (mem rb) b) ch (S j) n ->
             Q (Some (Z.of_nat j)) rb) ->
  wp (find_down n ch b) Q rb.
Proof.
  intros Hb. induction n as [|k IH]; intros Hn HN HS.
  - simpl. wp_steps. apply HN. intros k Hk. lia.
  - cbn [find_down]. wp_steps. apply wp_at; [done|lia|]. intros c Hc.
    rewrite Nat2Z.id in Hc.
    destruct (Z.eqb_spec c ch) as [->|Hne]; wp_steps.
    + apply HS; [lia|done|]. intros j Hj. lia.
    + apply IH; [lia| |].
      * intros Habs. apply HN. intros j Hj.
        destruct (decide (j = k)) as [->|]; [congruence|]. apply Habs. lia.
      * intros j Hj Hjc Habs. apply HS; [lia|done|]. intros j' Hj'.
        destruct (decide (j' = k)) as [->|]; [congruence|]. apply Habs. lia.
Qed.

Lemma wp_find_up_spec n i ch b (Q : option Z -> RuneBuffer -> Prop) rb :
  slice_wf (mem rb) b -> 0 <= i ->
  ((0 < n)%nat -> i + Z.of_nat n <= length_of b) ->
  (absent (elems (mem rb) b) ch (Z.to_nat i) (Z.to_nat i + n) -> Q None rb) ->
  (forall j, (Z.to_nat i <= j < Z.to_nat i + n)%nat ->
             elems (mem rb) b !! j = Some ch ->
             absent (elems (mem rb) b) ch (Z.to_nat i) j ->
             Q (Some (Z.of_nat j)) rb) ->
  wp (find_up n i ch b) Q rb.
Proof.
  intros Hb. revert i. induction n as [|k IH]; intros i Hi Hn HN HS.
  - simpl. wp_steps. apply HN. intros k Hk. lia.
  - specialize (Hn ltac:(lia)).
    cbn [find_up]. wp_steps. apply wp_at; [done|lia|]. intros c Hc.
    destruct (Z.eqb_spec c ch) as [->|Hne]; wp_steps.
    + specialize (HS (Z.to_nat i)). rewrite Z2Nat.id in HS by lia.
      apply HS; [lia|done|]. intros j Hj. lia.
    + apply IH; [lia|lia| |].
      * intros Habs. apply HN. intros j Hj.
        destruct (decide (j = Z.to_nat i)) as [->|]; [congruence|].
        apply Habs. lia.
      * intros j Hj Hjc Habs. apply HS; [lia|done|]. intros j' Hj'.
        destruct (decide (j' = Z.to_nat i)) as [->|]; [congruence|].
        apply Habs. lia.
Qed.

(** [MoveTo] in full: backwards it finds the last [ch] before the cursor,
    forwards the first one after it. *)
Lemma wp_MoveTo_spec ch prevChar reverse rb :
  good rb ->
  wp (MoveTo ch prevChar reverse) (fun a rb' =>
    good rb' /\
    (killed rb' = killed rb /\ text rb' = text rb /\
     let i := Z.to_nat (idx rb) in
     let d := if prevChar : bool then 1 else 0 in
     if reverse : bool then
       (a = false /\ idx rb' = idx rb /\ absent (text rb) ch 0 i) \/
       (a = true /\ exists j, (j < i)%nat /\ text rb !! j = Some ch /\
          absent (text rb) ch (S j) i /\ idx rb' = Z.of_nat j + d)
     else
       (a = false /\ idx rb' = idx rb /\
        absent (text rb) ch (S i) (length (text rb))) \/
       (a = true /\ exists j, (i < j < length (text rb))%nat /\
          text rb !! j = Some ch /\ absent (text rb) ch (S i) j /\
          idx rb' = Z.of_nat j - d))) rb.
Proof.
  intros Hg. unfold MoveTo.
  apply wp_Refresh; [done|]. intros o c.
  pose proof Hg as (Hwf & Hinv & Hd). unfold inv in Hinv.
  pose proof Hwf as (Hb & _).
  pose proof (text_length rb Hg) as Hlen.
  wp_steps. simpl. destruct reverse; wp_steps.
  - apply wp_find_down_spec; simpl; [done|lia| |].
    + intros Habs. wp_steps. split; [exact Hg|]. split; [done|]. intros.
      split; [done|]. split; [done|]. left. done.
    + intros j Hj Hjc Habs. wp_steps.
      destruct prevChar; unfold add_idx; wp_steps.
      * split; [|split; [done|]].
        -- apply (good_with_idx (with_idx (Z.of_nat j) (redraw o c rb)));
             [apply (good_with_idx (redraw o c rb)); [exact Hg|simpl; lia]
             |simpl; lia].
        -- intros. split; [done|]. split; [done|]. right. split; [done|].
           exists j. simpl. split_and!; (done || lia).
      * split; [|split; [done|]].
        -- apply (good_with_idx (redraw o c rb)); [exact Hg|simpl; lia].
        -- intros. split; [done|]. split; [done|]. right. split; [done|].
           exists j. simpl. split_and!; (done || lia).
  - assert (Hrange : (Z.to_nat (idx rb + 1)
                      + Z.to_nat (length_of (buf rb) - (idx rb + 1)))%nat
                     = Nat.max (S (Z.to_nat (idx rb))) (length (text rb)))
      by (unfold length_of in *; lia).
    apply wp_find_up_spec; simpl; [done|lia|unfold length_of in *; lia| |].
    + intros Habs. wp_steps. split; [exact Hg|]. split; [done|]. intros.
      split; [done|]. split; [done|]. left. split; [done|]. split; [done|].
      intros k Hk. apply Habs. lia.
    + intros j Hj Hjc Habs. wp_steps.
      assert (Hjl : (j < length (text rb))%nat)
        by (apply lookup_lt_Some in Hjc; done).
      destruct prevChar; unfold add_idx; wp_steps.
      * split; [|split; [done|]].
        -- apply (good_with_idx (with_idx (Z.of_nat j) (redraw o c rb)));
             [apply (good_with_idx (redraw o c rb));
                [exact Hg|simpl; unfold length_of in *; lia]
             |simpl; unfold length_of in *; lia].
        -- intros. split; [done|]. split; [done|]. right. split; [done|].
           exists j. simpl. split; [lia|]. split; [done|].
           split; [|lia]. intros k Hk. apply Habs. lia.
      * split; [|split; [done|]].
        -- apply (good_with_idx (redraw o c rb));
             [exact Hg|simpl; unfold length_of in *; lia].
        -- intros. split; [done|]. split; [done|]. right. split; [done|].
           exists j. simpl. split; [lia|]. split; [done|].
           split; [|lia]. intros k Hk. apply Habs. lia.
Qed.

(** [Refresh] around a closure that panics after the erase: the call
    panics. *)
Lemma Refresh_panics {A} (f : R A) rb :
  good rb -> (forall o c, f (redraw o c rb) = Panic) -> Refresh f rb = Panic.
Proof.
  intros (Hwf & Hinv & Hd) Hf. unfold Refresh, bind, get.
  destruct (interactive rb) eqn:Ei; simpl.
  - destruct Hd as (Hsw & Hpw & Htab & Hsp); [done|].
    pose proof (wp_clean (fun _ rb' => exists o c, rb' = redraw o c rb) rb
                  (proj1 Hwf) Hinv Hsw) as Hc.
    destruct (wp_elim _ _ _ (Hc ltac:(intros o c; by exists o, c)))
      as ([] & rb1 & -> & o & c & ->).
    by rewrite Hf.
  - specialize (Hf (w rb) (hadClean rb)). by rewrite redraw_eta in Hf.
Qed.

(** On the last codepoint of the text, when it is not a break character,
    [MoveToEndWord] reads [rb.buf[rb.idx+1]], one past the end. *)
Lemma MoveToEndWord_panics rb :
  good rb -> at_last_letter rb -> MoveToEndWord rb = Panic.
Proof.
  intros Hg (Hi & ch & Hch & Hbr). unfold MoveToEndWord.
  apply Refresh_panics; [done|]. intros o c.
  pose proof Hg as ((Hb & _) & Hinv & _). unfold inv in Hinv.
  destruct (index_ok (mem rb) (buf rb) (idx rb) Hb) as (x & Hx & Hl); [lia|].
  unfold text in Hch. rewrite Hch in Hl. injection Hl as <-.
  unfold bind, get. simpl.
  destruct (Z.eqb_spec (idx rb) (length_of (buf rb))); [lia|].
  unfold at_ at 1. simpl. rewrite Hx. simpl. rewrite Hbr.
  unfold at_, index. simpl.
  destruct (Z.ltb_spec (idx rb + 1) (length_of (buf rb))); [lia|].
  by rewrite andb_false_r.
Qed.

(** [Restore] puts the saved header and cursor back; the store is not
    touched, so the header shows what its array holds now. *)
Lemma wp_Restore_spec rb :
  good rb ->
  wp Restore (fun _ rb' =>
    good rb' /\
    (killed rb' = killed rb /\ backup rb' = backup rb /\ mem rb' = mem rb /\
     match backup rb with
     | Some b => buf rb' = bbuf b /\ idx rb' = bidx b
     | None => buf rb' = buf rb /\ idx rb' = idx rb
     end)) rb.
Proof.
  intros Hg. unfold Restore. apply wp_Refresh; [done|]. intros o c.
  pose proof Hg as (Hwf & Hinv & Hd). pose proof Hwf as (Hb & Hk & Ha & Hbk).
  wp_steps. simpl. unfold backup_ok in Hbk.
  destruct (backup rb) as [bk|] eqn:Ebk; wp_steps.
  - destruct Hbk as (Hbw & Hba & Hbi). split; [|split; [done|]].
    + split; [|split; [exact Hbi|exact Hd]].
      apply (wf_new_buf (redraw o c rb)); simpl;
        [exact Hwf|apply grows_refl|done..].
    + intros. simpl. by rewrite Ebk.
  - split; [exact Hg|]. split; [done|]. intros. simpl. by rewrite Ebk.
Qed.

(** [Kill] with what it leaves alone: the snapshot, and every array that was
    there before. *)
Lemma wp_Kill_frame rb :
  good rb -> idx rb < length_of (buf rb) ->
  wp Kill (fun a rb' =>
    good rb' /\
    (a = true /\
     text rb' = take (Z.to_nat (idx rb)) (text rb) /\ idx rb' = idx rb /\
     killed rb' = drop (Z.to_nat (idx rb)) (text rb) /\
     backup rb' = backup rb /\
     forall u, slice_wf (mem rb) u -> elems (mem rb') u = elems (mem rb) u))
    rb.
Proof.
  intros Hg Hlt. unfold Kill. apply wp_Refresh; [done|]. intros o c.
  destruct Hg as (Hwf & Hinv & Hd). pose proof Hwf as (Hb & Hk & Ha & Hbk).
  pose proof Hb as [Hlc _]. unfold inv, length_of, capacity_of in *.
  wp_steps. simpl. destruct (Z.eqb_spec (idx rb) (Z.of_nat (len (buf rb)))); [lia|].
  wp_steps. unfold slice_from.
  apply wp_reslice; [unfold length_of; lia|unfold length_of, capacity_of; lia|].
  intros span Hspan. wp_steps.
  apply wp_pushKill. intros h1 k Hke Hal. wp_steps. unfold slice_to.
  apply wp_reslice; [lia|unfold capacity_of; lia|].
  intros pre Hpre. wp_steps. simpl in *.
  set (rb1 := with_lastKill k (with_mem h1 (redraw o c rb))).
  assert (Hwf1 : wf rb1) by (by eapply (wf_new_kill (redraw o c rb))).
  destruct Hal as (Hk1 & Hg1 & Hfr1).
  pose proof (reslice_wf _ _ _ _ _ Hb Hpre) as Hpre_wf.
  split; [split; [|split]|split; [done|]].
  - eapply (wf_new_buf rb1); simpl; try done.
    + apply grows_refl.
    + by eapply slice_wf_grows.
    + eapply reslice_apart; [|exact Hpre]. apply apart_sym, Hfr1, Hb.
  - unfold inv, length_of. simpl.
    apply reslice_fields in Hpre as (_ & _ & Hl & _). lia.
  - done.
  - intros o' c'. unfold text, killed. simpl. split_and!; try done.
    + destruct (Hfr1 _ Hpre_wf) as [-> _].
      eapply take_drop_elems; [done..|]. unfold length_of. lia.
    + rewrite Hke. rewrite (reslice_elems _ _ _ _ _ Hb) by (done || unfold length_of; lia).
      rewrite take_ge; [done|].
      rewrite length_drop, elems_length by done. unfold length_of. lia.
    + intros u Hu. by destruct (Hfr1 _ Hu).
Qed.

(** *** The cursor moves of a redraw *)

(** The first loop of [getBackspaceSequence] with a prompt whose width is a
    positive multiple of [screenWidth + 1]: the index comes back to 0, where
    the prompt width is subtracted again, so the loop never ends. *)
Lemma sep_loop_never fuel i size pw sw sep (j k : Z) :
  0 <= sw -> 0 < size -> 1 <= k -> pw = k * (sw + 1) ->
  0 <= j -> i = - j * (sw + 1) ->
  sep_loop fuel i size pw sw sep = Hang.
Proof.
  intros Hsw Hsize Hk Hpw. revert i j sep.
  induction fuel as [|f IH]; intros i j sep Hj Hi; [done|].
  cbn [sep_loop].
  destruct (Z.ltb_spec i size) as [_|Hge]; [|nia].
  destruct (Z.eqb_spec i 0) as [E0|E0].
  - apply (IH _ (k - 1)); [lia|]. nia.
  - apply (IH _ (j - 1)); [nia|]. nia.
Qed.

(** The keys the first loop adds are not below [sw - pw]. *)
Lemma sep_loop_below fuel i size pw sw sep m (B : Z) :
  0 <= sw -> pw <= sw -> 0 <= i ->
  (i = 0 -> B <= sw - pw) -> (i <> 0 -> B <= i + sw) ->
  sep_loop fuel i size pw sw sep = Ok m ->
  forall key, key < B -> m !! key = sep !! key.
Proof.
  intros Hsw Hpw. revert i sep.
  induction fuel as [|f IH]; intros i sep Hi HB0 HB1; [done|].
  cbn [sep_loop]. destruct (Z.ltb_spec i size) as [Hlt|Hge].
  - intros Hm key Hkey.
    destruct (Z.eqb_spec i 0) as [E0|E0].
    + transitivity (<[i - pw + sw := true]> sep !! key).
      * apply (IH (i - pw + sw + 1)); [lia|lia|lia|exact Hm|exact Hkey].
      * apply lookup_insert_ne. lia.
    + transitivity (<[i + sw := true]> sep !! key).
      * apply (IH (i + sw + 1)); [lia|lia|lia|exact Hm|exact Hkey].
      * apply lookup_insert_ne. lia.
  - by intros [= <-].
Qed.

Lemma bs_loop_plain n i sw (m : gmap Z bool) :
  (forall key, key <= i -> m !! key = None) ->
  bs_loop n i sw m = replicate n 8.
Proof.
  revert i. induction n as [|n IH]; intros i Hm; [done|].
  cbn [bs_loop]. rewrite Hm by lia. simpl. f_equal.
  apply IH. intros key Hkey. apply Hm. lia.
Qed.

(** While the text ends before the first line break, the cursor goes back
    by one backspace for each codepoint after it. *)
Lemma getBackspaceSequence_plain rb :
  0 < screenWidth rb -> 0 <= promptWidth rb <= screenWidth rb ->
  length_of (buf rb) < screenWidth rb - promptWidth rb ->
  getBackspaceSequence rb
  = Ok (replicate (Z.to_nat (length_of (buf rb) - idx rb)) 8, rb).
Proof.
  intros Hsw Hpw Hfit. unfold getBackspaceSequence, bind, get, read, lift, ret.
  match goal with |- context [sep_loop ?f ?i ?sz ?pw ?sw ?m] =>
    destruct (sep_loop_ok f i sz pw sw m) as [sep Hs]; try done; try lia
  end.
  rewrite Hs. do 2 f_equal. apply bs_loop_plain. intros key Hkey.
  transitivity ((∅ : gmap Z bool) !! key); [|apply lookup_empty].
  eapply (sep_loop_below _ 0 _ _ _ _ _ (screenWidth rb - promptWidth rb));
    [| | | | |exact Hs|]; lia.
Qed.

End Facts3.

(** *** What an editing operation leaves alone *)

(** The two states show the same screen: the bytes written, the erase flag
    and the configuration of the display agree. *)
Definition same_screen (rb rb' : RuneBuffer) : Prop :=
  w rb' = w rb /\ hadClean rb' = hadClean rb /\
  interactive rb' = interactive rb /\ prompt rb' = prompt rb /\
  promptWidth rb' = promptWidth rb /\ mask rb' = mask rb /\
  screenWidth rb' = screenWidth rb.

Lemma same_screen_refl rb : same_screen rb rb.
Proof. by repeat split. Qed.

Lemma same_screen_trans rb1 rb2 rb3 :
  same_screen rb1 rb2 -> same_screen rb2 rb3 -> same_screen rb1 rb3.
Proof.
  intros (?&?&?&?&?&?&?) (?&?&?&?&?&?&?). repeat split; congruence.
Qed.

(** A method that works on the text, the cursor, the kill slot and the
    snapshot only. *)
Definition edits_only {A} (m : R A) : Prop :=
  forall rb a rb', m rb = Ok (a, rb') -> same_screen rb rb'.

(** A method that writes nothing while the buffer is not interactive. *)
Definition quiet {A} (m : R A) : Prop :=
  forall rb a rb', interactive rb = false -> m rb = Ok (a, rb') ->
                   same_screen rb rb'.

Create HintDb edits discriminated.

Lemma edits_ret {A} (a : A) : edits_only (ret a).
Proof. intros rb ? ? [= _ <-]. apply same_screen_refl. Qed.

Lemma edits_panic {A} : edits_only (@panic RuneBuffer A).
Proof. by intros rb ? ?. Qed.

Lemma edits_get : edits_only get.
Proof. intros rb ? ? [= _ <-]. apply same_screen_refl. Qed.

Lemma edits_bind {A B} (m : R A) (k : A -> R B) :
  edits_only m -> (forall a, edits_only (k a)) -> edits_only (bind m k).
Proof.
  intros Hm Hk rb b rb'. unfold bind.
  destruct (m rb) as [[a rb1]| |] eqn:E; [|done..].
  intros Hr. eapply same_screen_trans; [by eapply Hm|by eapply Hk].
Qed.

Lemma edits_modify (f : RuneBuffer -> RuneBuffer) :
  (forall rb, same_screen rb (f rb)) -> edits_only (modify f).
Proof. intros Hf rb ? ? [= _ <-]. apply Hf. Qed.

Lemma edits_lift {A} (x : outcome A) : edits_only (lift x).
Proof.
  intros rb ? ?. unfold lift. destruct x; [|done..].
  intros [= _ <-]. apply same_screen_refl.
Qed.

Lemma edits_at s i : edits_only (at_ s i).
Proof.
  intros rb ? ?. unfold at_. destruct (index _ _ _); [|done..].
  intros [= _ <-]. apply same_screen_refl.
Qed.

Lemma edits_assign s i v : edits_only (assign s i v).
Proof.
  intros rb ? ?. unfold assign. destruct (store _ _ _ _); [|done..].
  intros [= _ <-]. by repeat split.
Qed.

Lemma edits_read s : edits_only (read s).
Proof. intros rb ? ? [= _ <-]. apply same_screen_refl. Qed.

Lemma edits_append `{GoRuntime} s xs : edits_only (append_ s xs).
Proof.
  intros rb ? ?. unfold append_. destruct (append _ _ _).
  intros [= _ <-]. by repeat split.
Qed.

Lemma edits_copy dst xs : edits_only (copy_ dst xs).
Proof.
  intros rb ? ?. unfold copy_. destruct (copy _ _ _).
  intros [= _ <-]. by repeat split.
Qed.

Lemma edits_make n c : edits_only (make_ n c).
Proof.
  intros rb ? ?. unfold make_. destruct (_ && _); [|done].
  intros [= _ <-]. by repeat split.
Qed.

Lemma edits_CopyAndGrow s g : edits_only (CopyAndGrow s g).
Proof.
  intros rb ? ?. unfold CopyAndGrow. destruct (_ <? _); [done|].
  intros [= _ <-]. by repeat split.
Qed.

#[local] Hint Resolve edits_ret edits_panic edits_get edits_lift edits_at
  edits_assign edits_read edits_append edits_copy edits_make
  edits_CopyAndGrow : edits.

Ltac edits_step :=
  lazymatch goal with
  | |- edits_only (bind _ _) => apply edits_bind; [|intros ?]
  | |- edits_only (modify _) =>
      apply edits_modify; intros ?; by repeat split
  | |- edits_only (if ?b then _ else _) => destruct b
  | |- edits_only (match ?x with _ => _ end) => destruct x
  | |- edits_only _ => solve [auto with edits]
  end.
Ltac edits_all := repeat edits_step.

Section Quiet.
Context `{GoRuntime} `{WidthModel}.

Lemma edits_pushKill s : edits_only (pushKill s).
Proof. unfold pushKill, Copy. edits_all. Qed.

Lemma edits_cut lo hi : edits_only (cut lo hi).
Proof. unfold cut. edits_all. Qed.

Lemma edits_add_idx d : edits_only (add_idx d).
Proof. unfold add_idx. edits_all. Qed.

Lemma edits_wordStart b i : edits_only (wordStart b i).
Proof. unfold wordStart. edits_all. Qed.

Lemma edits_wordEnd b i : edits_only (wordEnd b i).
Proof. unfold wordEnd. edits_all. Qed.
#[local] Hint Resolve edits_pushKill edits_cut edits_add_idx edits_wordStart
  edits_wordEnd : edits.

Lemma edits_scan_down n b : edits_only (scan_down n b).
Proof. induction n; cbn [scan_down]; edits_all. Qed.

Lemma edits_scan_up n i b : edits_only (scan_up n i b).
Proof. revert i. induction n; intros i; cbn [scan_up]; edits_all. Qed.

Lemma edits_scan_end n i b : edits_only (scan_end n i b).
Proof. revert i. induction n; intros i; cbn [scan_end]; edits_all. Qed.

Lemma edits_find_down n ch b : edits_only (find_down n ch b).
Proof. induction n; cbn [find_down]; edits_all. Qed.

Lemma edits_find_up n i ch b : edits_only (find_up n i ch b).
Proof. revert i. induction n; intros i; cbn [find_up]; edits_all. Qed.

Lemma edits_skip_breaks n i b : edits_only (skip_breaks n i b).
Proof. revert i. induction n; intros i; cbn [skip_breaks]; edits_all. Qed.
#[local] Hint Resolve edits_scan_down edits_scan_up edits_scan_end
  edits_find_down edits_find_up edits_skip_breaks : edits.

Lemma edits_quiet {A} (m : R A) : edits_only m -> quiet m.
Proof. intros Hm rb a rb' _. apply Hm. Qed.

Lemma quiet_bind {A B} (m : R A) (k : A -> R B) :
  quiet m -> (forall a, quiet (k a)) -> quiet (bind m k).
Proof.
  intros Hm Hk rb b rb' Hi. unfold bind.
  destruct (m rb) as [[a rb1]| |] eqn:E; [|done..].
  intros Hr. pose proof (Hm _ _ _ Hi E) as H1.
  eapply same_screen_trans; [exact H1|].
  eapply Hk; [|exact Hr]. destruct H1 as (_ & _ & -> & _). exact Hi.
Qed.

(** Without a terminal to draw on, [Refresh] runs its closure and nothing
    else. *)
Lemma quiet_Refresh {A} (f : R A) : edits_only f -> quiet (Refresh f).
Proof.
  intros Hf rb a rb' Hi. unfold Refresh, bind, get. rewrite Hi. simpl.
  apply Hf.
Qed.

Lemma quiet_run_op o : quiet (run_op o).
Proof.
  destruct o; cbn [run_op]; unfold drop_result;
    repeat (apply quiet_bind; [|intros ?; apply edits_quiet, edits_ret]).
  - unfold WriteRunes. apply quiet_Refresh. edits_all.
  - unfold InsertRunes. apply quiet_Refresh. edits_all.
  - unfold MoveToLineStart. apply quiet_Refresh. edits_all.
  - unfold MoveToLineEnd. apply quiet_Refresh. edits_all.
  - unfold MoveBackward. apply quiet_Refresh. edits_all.
  - unfold MoveForward. apply quiet_Refresh. edits_all.
  - unfold MoveToPrevWord. apply quiet_Refresh. edits_all.
  - unfold MoveToNextWord. apply quiet_Refresh. edits_all.
  - unfold MoveToEndWord. apply quiet_Refresh. edits_all.
  - unfold MoveTo. apply quiet_Refresh. edits_all.
  - unfold Backspace. apply quiet_Refresh. edits_all.
  - unfold Delete. apply quiet_Refresh. edits_all.
  - unfold Transpose. apply quiet_Refresh. edits_all.
  - unfold Kill. apply quiet_Refresh. edits_all.
  - unfold KillFront. apply quiet_Refresh. edits_all.
  - unfold KillWord. apply quiet_Refresh. edits_all.
  - unfold KillWordFront. apply quiet_Refresh. edits_all.
  - unfold Yank. apply quiet_bind; [apply edits_quiet; edits_all|]. intros rb.
    destruct (_ =? _); [apply edits_quiet; edits_all|].
    apply quiet_Refresh. edits_all.
  - unfold Erase. apply quiet_Refresh. edits_all.
  - unfold Reset, resetBuf. apply quiet_Refresh. edits_all.
  - unfold Backup. apply edits_quiet. edits_all.
  - unfold Restore. apply quiet_Refresh. edits_all.
Qed.

Lemma quiet_run_ops os : quiet (run_ops os).
Proof.
  induction os as [|o os IH]; cbn [run_ops].
  - apply edits_quiet, edits_ret.
  - apply quiet_bind; [apply quiet_run_op|]. by intros _.
Qed.

End Quiet.


End runeutil_more.

(** ** Reading parts of the buffer *)

Module runeutil_queries.
Import gort runeutil.

Section Methods.
Context `{GoRuntime} `{WidthModel}.
Local Open Scope go_scope.

Definition bufAt (i count : Z) : R slice :=
  rb <- get;;
  let i := if i <? 0 then idx rb else i in
  let i := if length_of (buf rb) <? i then length_of (buf rb) else i in
  if 0 <=? count then
    s <- lift (slice_from (buf rb) i);;
    if count <? length_of s then lift (slice_to s count) else ret s
  else
    let start := i + count in
    let start := if start <? 0 then 0 else start in
    lift (reslice (buf rb) start i).

(** As [Runes], the three methods hand a copy to their caller: the caller
    gets the elements. *)
Definition RunesAt (i count : Z) : R (list rune) :=
  s <- bufAt i count;; read s.

Definition RunesTo (lastIdx : Z) : R (list rune) :=
  s <- bufAt 0 lastIdx;; read s.

Definition RunesSub (count : Z) : R (list rune) :=
  s <- bufAt (-1) count;; read s.

Definition Width : R Z := rb <- get;; s <- read (buf rb);; ret (WidthAll s).

Definition widthAt (i count : Z) : R Z :=
  s <- bufAt i count;; xs <- read s;; ret (WidthAll xs).

Definition WidthTo (lastIdx : Z) : R Z := widthAt 0 lastIdx.
Definition WidthSub (count : Z) : R Z := widthAt (-1) count.
Definition WidthAt (i count : Z) : R Z := widthAt i count.

Definition isCursorInEnd : R bool :=
  rb <- get;; ret (idx rb =? length_of (buf rb)).

End Methods.

End runeutil_queries.

Module runeutil_queries_facts.
Import gort gort_facts runeutil wp_rules runeutil_facts runeutil_queries.

(** The part of [l] that [bufAt(i, count)] selects when the cursor is at
    [cur]: [count] codepoints from [i] on, or [-count] codepoints before
    [i], as many as there are; a negative [i] stands for the cursor and an
    [i] past the end for the end. *)
Definition span_at (l : list rune) (cur i count : Z) : list rune :=
  let i := if i <? 0 then cur else i in
  let i := Z.to_nat (Z.min i (Z.of_nat (length l))) in
  if 0 <=? count then take (Z.to_nat count) (drop i l)
  else drop (i - Z.to_nat (- count)) (take i l).

Section Facts.
Context `{GoRuntime} `{WidthModel}.

Lemma wp_bufAt i count (Q : slice -> RuneBuffer -> Prop) rb :
  good rb ->
  (forall s, slice_wf (mem rb) s ->
             elems (mem rb) s = span_at (text rb) (idx rb) i count ->
             Q s rb) ->
  wp (bufAt i count) Q rb.
Proof.
  intros Hg HQ. pose proof Hg as ((Hb & _) & Hinv & _). unfold inv in Hinv.
  pose proof Hb as [Hlc _].
  assert (Hlen : length (text rb) = len (buf rb))
    by (unfold text; by rewrite elems_length).
  unfold bufAt. wp_steps.
  set (i1 := if i <? 0 then idx rb else i).
  set (i2 := if length_of (buf rb) <? i1 then length_of (buf rb) else i1).
  assert (Hi1 : 0 <= i1) by (subst i1; destruct (Z.ltb_spec i 0); lia).
  assert (Hi2 : 0 <= i2 <= length_of (buf rb) /\
                i2 = Z.min i1 (length_of (buf rb)))
    by (subst i2; destruct (Z.ltb_spec (length_of (buf rb)) i1); lia).
  destruct Hi2 as [Hi2 Hmin].
  assert (Hspan : span_at (text rb) (idx rb) i count =
    if 0 <=? count then take (Z.to_nat count) (drop (Z.to_nat i2) (text rb))
    else drop (Z.to_nat i2 - Z.to_nat (- count)) (take (Z.to_nat i2) (text rb))).
  { unfold span_at. fold i1. rewrite Hlen. fold (length_of (buf rb)).
    by rewrite <- Hmin. }
  rewrite Hspan in HQ. clear Hspan.
  destruct (Z.leb_spec 0 count) as [Hc|Hc].
  - unfold slice_from. wp_steps.
    apply wp_reslice; [lia|unfold capacity_of, length_of in *; lia|].
    intros s Hs. wp_steps.
    pose proof (reslice_wf _ _ _ _ _ Hb Hs) as Hsw.
    pose proof (slice_from_elems _ _ _ _ Hb Hs) as Hse.
    pose proof (reslice_fields _ _ _ _ Hs) as (_ & _ & Hsl & _).
    destruct (Z.ltb_spec count (length_of s)) as [Hlt|Hge].
    + unfold slice_to.
      apply wp_reslice; [lia|destruct Hsw; unfold capacity_of, length_of in *; lia|].
      intros s' Hs'. apply HQ; [exact (reslice_wf _ _ _ _ _ Hsw Hs')|].
      rewrite (take_drop_elems _ _ _ _ Hsw Hs') by lia. by rewrite Hse.
    + wp_steps. apply HQ; [done|]. rewrite Hse. symmetry. apply take_ge.
      fold (text rb). rewrite length_drop. unfold length_of in *. lia.
  - set (st := if i2 + count <? 0 then 0 else i2 + count).
    assert (Hst : 0 <= st <= i2 /\ Z.to_nat st = (Z.to_nat i2 - Z.to_nat (- count))%nat)
      by (subst st; destruct (Z.ltb_spec (i2 + count) 0); lia).
    destruct Hst as [Hst Hst'].
    apply wp_reslice; [lia|unfold capacity_of, length_of in *; lia|].
    intros s Hs. apply HQ; [exact (reslice_wf _ _ _ _ _ Hb Hs)|].
    rewrite (reslice_elems _ _ _ _ _ Hb (proj2 Hi2) Hs).
    rewrite <- Hst'. unfold text. rewrite take_drop_commute.
    f_equal. f_equal. lia.
Qed.

End Facts.

End runeutil_queries_facts.

(** ** More on the input loop *)

Module readline_more.
Import gort gort_facts runeutil wp_rules runeutil_facts readline.
Import readline_facts runeutil_more.

#[local] Arguments dispatch : simpl never.
#[local] Arguments run_term : simpl never.

(** What [sendLineResult] leaves in the channel of capacity one: the result,
    when the channel was empty; what was there, when it was not. *)
Definition sent (ch : list lineResult) (line : list byte) (e : option error)
  : list lineResult :=
  match ch with
  | [] => [{| Line := line; Err := e |}]
  | _ => ch
  end.

(** The error the loop ends with, as it is stored and published: a context
    error becomes [io.EOF]. *)
Definition final_error (e : error) : error :=
  match e with
  | ErrCanceled => EOF
  | _ => e
  end.

Section Facts.
Context `{GoRuntime} `{GoRuntimeBytes} `{WidthModel} `{Keys} `{Decoder}.

(** [opReturn] on any text and any channel. *)
Lemma wp_opReturn t :
  good (rb t) ->
  wp opReturn (fun _ t' =>
    good (rb t') /\ text (rb t') = [] /\ idx (rb t') = 0 /\
    killed (rb t') = killed (rb t) /\
    lineResultCh t'
    = sent (lineResultCh t) (string_of_runes (text (rb t))) None /\
    ioInsMode t' = ioInsMode t /\ ioErr t' = ioErr t) t.
Proof.
  intros Hg. unfold opReturn. wp_step. apply wp_on_rb.
  eapply wp_mono; [by apply wp_MoveToLineEnd|].
  intros a x1 (Hg1 & _ & Ht1 & Hi1 & Hk1). wp_step. apply wp_on_rb.
  simpl rb. unfold WriteRune.
  eapply wp_mono; [by apply wp_WriteRunes|].
  intros _ x2 (Hg2 & Ht2 & Hi2 & Hk2). wp_step. apply wp_on_rb.
  simpl rb. apply wp_Bytes. cbv zeta.
  rewrite Ht2, Hi1, Ht1, <- (good_text_length _ Hg), Nat2Z.id.
  rewrite firstn_all, drop_all, app_nil_r, string_of_runes_app.
  change (string_of_runes [10]) with [10].
  rewrite length_app. simpl length.
  destruct (Z.ltb_spec 0
    (Z.of_nat (length (string_of_runes (text (rb t))) + 1))); [|lia].
  replace (length (string_of_runes (text (rb t))) + 1 - 1)%nat
    with (length (string_of_runes (text (rb t)))) by lia.
  rewrite take_app_length.
  wp_step. unfold sendLineResult. wp_step. simpl lineResultCh.
  apply wp_on_rb. unfold ResetBuf.
  destruct (lineResultCh t) eqn:Ech; simpl rb;
    (eapply wp_mono; [by apply wp_resetBuf|]);
    intros _ x3 (Hg3 & _ & _ & _ & Ht3 & Hi3 & Hk3); simpl;
    split_and!; try done; congruence.
Qed.

(** The end of the loop: the error is stored, and the bytes of the buffer
    are offered to the reader with it. *)
Lemma finish_spec l e :
  err l = Some e ->
  exists l',
    finish l = Ok l' /\ err l' = Some (final_error e) /\
    ioErr (term l') = Some (Some (final_error e)) /\
    rb (term l') = rb (term l) /\
    lineResultCh (term l')
    = sent (lineResultCh (term l)) (string_of_runes (text (rb (term l))))
           (Some (final_error e)) /\
    ioInsMode (term l') = ioInsMode (term l) /\
    escaped l' = escaped l /\ escBuf l' = escBuf l.
Proof.
  intros He. unfold finish, run_term. rewrite He.
  unfold bind, modify, on_rb, Bytes, String_, Runes, bind, get, read, ret,
    sendLineResult, modify. simpl.
  destruct e; simpl; destruct (lineResultCh (term l)) eqn:Ech; simpl;
    eexists; (split; [reflexivity|]); simpl; rewrite ?Ech; by split_and!.
Qed.

Lemma rounds_finish k l evs e :
  err l = Some e -> rounds k l evs = finish l.
Proof. intros He. destruct k; simpl; by rewrite He. Qed.

(** A byte of the ASCII range that is not the escape character, read
    outside an escape sequence, goes to the switch. *)
Lemma round_byte b l evs :
  b < RuneSelf -> b <> CharEscape -> escaped l = false ->
  round l (Byte b :: evs) = obind (dispatch [b] l) (fun l' => Ok (l', evs)).
Proof.
  intros Hb He Hesc. unfold round.
  destruct (Z.leb_spec RuneSelf b); [lia|]. simpl andb. cbv iota.
  unfold handle. rewrite Hesc.
  by destruct (Z.eqb_spec b CharEscape).
Qed.

(** With the insert mode on, a byte of plain text replaces the codepoint
    under the cursor. *)
Lemma round_literal_insert c t evs :
  is_control c = false -> c <> CharEscape -> c < RuneSelf ->
  encodeControlChars [c] = [c] ->
  ioInsMode t = true -> good (rb t) ->
  exists t',
    round (start t) (Byte c :: evs) = Ok (start t', evs) /\
    good (rb t') /\
    text (rb t') = take (Z.to_nat (idx (rb t))) (text (rb t))
                     ++ c :: drop (S (Z.to_nat (idx (rb t)))) (text (rb t)) /\
    idx (rb t') = idx (rb t) + 1 /\
    lineResultCh t' = lineResultCh t /\ ioInsMode t' = ioInsMode t /\
    ioErr t' = ioErr t.
Proof.
  intros Hc He Hlt Henc Hins Hg.
  rewrite round_start_byte, dispatch_literal by done.
  assert (Hw : wp (literal [c]) (fun _ t' =>
    good (rb t') /\
    text (rb t') = take (Z.to_nat (idx (rb t))) (text (rb t))
                     ++ c :: drop (S (Z.to_nat (idx (rb t)))) (text (rb t)) /\
    idx (rb t') = idx (rb t) + 1 /\
    lineResultCh t' = lineResultCh t /\ ioInsMode t' = ioInsMode t /\
    ioErr t' = ioErr t) t).
  { unfold literal. rewrite Henc. wp_steps. rewrite Hins. simpl negb.
    cbv iota. apply wp_on_rb. unfold InsertBytes, InsertString.
    rewrite runes_of_ascii by done.
    eapply wp_mono; [by apply wp_InsertRunes|].
    intros _ x (Hgx & Htx & Hix & _). simpl. rewrite Hins.
    split_and!; try done. rewrite Htx. simpl. do 3 f_equal. lia. }
  apply wp_elim in Hw as ([] & t' & Et & Ht).
  exists t'. pose proof (run_term_start (literal [c]) t t' Et) as Er.
  unfold byte in *. by rewrite Er.
Qed.

End Facts.

End readline_more.

(** ** Further properties of the rune buffer *)

Module runeutil_extras.
Import gort gort_facts runeutil wp_rules runeutil_facts width_facts.
Import runeutil_claims runeutil_more runeutil_queries runeutil_queries_facts.

(** [n] calls of [Backspace]. *)
Fixpoint backspaces `{GoRuntime} `{WidthModel} (n : nat) : R unit :=
  match n with
  | O => ret tt
  | S k => bind Backspace (fun _ => backspaces k)
  end.

Section Extras.
Context `{GoRuntime} `{WidthModel}.



(** X3.  [Erase] on an empty buffer returns false and changes nothing.  On
    a text that is not empty it empties the buffer, puts the cursor at 0 and
    saves the whole text in the kill slot, so that [Yank] brings the text
    back, with the cursor at its end. *)
Theorem Erase_saves_text (rb : RuneBuffer) :
  good rb ->
  (text rb = [] ->
   exists rb',
     Erase rb = Ok (false, rb') /\ text rb' = [] /\ idx rb' = idx rb /\
     killed rb' = killed rb) /\
  (text rb <> [] ->
   exists rb1 rb2,
     Erase rb = Ok (true, rb1) /\ text rb1 = [] /\ idx rb1 = 0 /\
     killed rb1 = text rb /\
     Yank rb1 = Ok (true, rb2) /\ text rb2 = text rb /\
     idx rb2 = Z.of_nat (length (text rb))).
Proof.
  intros Hg. pose proof (text_length rb Hg) as Hlen.
  destruct (wp_elim _ _ _ (wp_Erase rb Hg))
    as (a & rb1 & Hr & Hg1 & Ha & Ht & Hi & Hk).
  unfold length_of in *. split.
  - intros He. rewrite He in Hlen. simpl in Hlen.
    destruct (Z.eqb_spec (Z.of_nat (len (buf rb))) 0); [|lia].
    exists rb1. by rewrite Hr, Ha.
  - intros Hne.
    destruct (Z.eqb_spec (Z.of_nat (len (buf rb))) 0) as [E|E].
    { destruct (text rb); [done|simpl in Hlen; lia]. }
    destruct (Yank_after rb1 Hg1) as (rb2 & Hy & Ht2 & Hi2 & _);
      [by rewrite Hk|].
    exists rb1, rb2. rewrite Hr, Ha. split_and!; try done.
    + rewrite Ht2, Ht, Hk. by rewrite take_nil, drop_nil, app_nil_r.
    + rewrite Hi2, Hi, Hk. lia.
Qed.









(** X12.  With a screen width that is not negative, a prompt whose width is
    a positive multiple of [screenWidth + 1] and a text of positive width,
    the first loop of [getBackspaceSequence] does not end, however many
    rounds it is given: its index comes back to 0, where the prompt width is
    subtracted again.  So [getBackspaceSequence] does not return, nor does
    [outputPrint], which calls it when the cursor is before the end of the
    text. *)
Theorem getBackspaceSequence_hangs (k : Z) (rb : RuneBuffer) :
  0 <= screenWidth rb -> 1 <= k ->
  promptWidth rb = k * (screenWidth rb + 1) -> 0 < WidthAll (text rb) ->
  (forall fuel,
     sep_loop fuel 0 (WidthAll (text rb)) (promptWidth rb) (screenWidth rb) ∅
     = Hang) /\
  getBackspaceSequence rb = Hang /\
  (slice_wf (mem rb) (buf rb) -> 0 <= idx rb < length_of (buf rb) ->
   0 <= TabWidth ->
   (forall s, SplitByLine (promptWidth rb) (screenWidth rb) s <> []) ->
   outputPrint rb = Hang).
Proof.
  intros Hsw Hk Hpw Hsize.
  assert (Hloop : forall fuel,
    sep_loop fuel 0 (WidthAll (text rb)) (promptWidth rb) (screenWidth rb) ∅
    = Hang).
  { intros fuel. by apply (sep_loop_never _ _ _ _ _ _ 0 k). }
  assert (Hbs : getBackspaceSequence rb = Hang).
  { unfold getBackspaceSequence, bind, get, read. fold (text rb).
    by rewrite Hloop. }
  split; [exact Hloop|]. split; [exact Hbs|].
  intros Hb Hi Htab Hsp. unfold outputPrint.
  set (gbs := getBackspaceSequence) in *. clearbody gbs.
  unfold bind, get.
  destruct (negb (mask rb =? 0) && (0 <? length_of (buf rb))) eqn:Em.
  - unfold lift, Repeat.
    destruct (Z.ltb_spec (length_of (buf rb) - 1) 0); [lia|].
    destruct (index_ok (mem rb) (buf rb) (length_of (buf rb) - 1) Hb)
      as (c & Hc & _); [lia|].
    unfold at_. rewrite Hc. simpl.
    destruct (Z.ltb_spec (idx rb) (length_of (buf rb))); [|lia].
    by rewrite Hbs.
  - unfold read. fold (text rb).
    destruct (print_runes_ok (text rb) Htab) as [o Ho].
    unfold lift. rewrite Ho.
    cbv [isInLineEdge getSplitByLine bind get read ret panic].
    fold (text rb).
    destruct (last (SplitByLine (promptWidth rb) (screenWidth rb) (text rb)))
      as [l|] eqn:El.
    2:{ apply last_None in El. by apply Hsp in El. }
    destruct (Z.ltb_spec (idx rb) (length_of (buf rb))); [|lia].
    by rewrite Hbs.
Qed.



(** X15.  On a buffer that is not interactive, every sequence of editing
    operations that returns leaves the bytes written, the erase flag, the
    prompt, the mask and the screen width as they were: nothing is drawn.
    [Clear] is the exception: it writes ESC [ H whether the buffer is
    interactive or not. *)
Theorem no_output_when_not_interactive (os : list op) (rb rb' : RuneBuffer) :
  interactive rb = false ->
  (run_ops os rb = Ok (tt, rb') -> same_screen rb rb') /\
  Clear rb = Ok (tt, with_w (w rb ++ [27; 91; 72]) rb).
Proof.
  intros Hi. split.
  - intros Hr. by eapply quiet_run_ops.
  - unfold Clear, Refresh, write, bind, modify, get, ret. simpl.
    by rewrite Hi.
Qed.

(** X16.  On a good buffer [RunesAt], [RunesTo], [RunesSub] and [WidthAt]
    return for every pair of arguments, however far out of range, and leave
    the buffer alone.  [RunesAt(i, count)] is the span of the text that
    starts at [i] (at the cursor for a negative [i], at the end for an [i]
    past it) and runs for [count] codepoints, or the [-count] codepoints
    before that position, as many as there are; [RunesTo(n)] is the first
    [n] codepoints and [RunesSub(n)] the [n] codepoints after the cursor or
    the [-n] before it. *)
Theorem RunesAt_total (i count n : Z) (rb : RuneBuffer) :
  good rb ->
  RunesAt i count rb = Ok (span_at (text rb) (idx rb) i count, rb) /\
  WidthAt i count rb
  = Ok (WidthAll (span_at (text rb) (idx rb) i count), rb) /\
  RunesTo n rb = Ok (take (Z.to_nat n) (text rb), rb) /\
  RunesSub n rb
  = Ok (if 0 <=? n
        then take (Z.to_nat n) (drop (Z.to_nat (idx rb)) (text rb))
        else drop (Z.to_nat (idx rb) - Z.to_nat (- n))
                  (take (Z.to_nat (idx rb)) (text rb)), rb).
Proof.
  intros Hg. pose proof (text_length rb Hg) as Hlen.
  pose proof Hg as (_ & Hinv & _). unfold inv, length_of in Hinv.
  assert (Hat : forall i count,
    RunesAt i count rb = Ok (span_at (text rb) (idx rb) i count, rb)).
  { intros i' c'.
    assert (Hw : wp (RunesAt i' c')
      (fun xs rb' => xs = span_at (text rb) (idx rb) i' c' /\ rb' = rb) rb).
    { unfold RunesAt. wp_steps. apply wp_bufAt; [done|].
      intros s Hs He. by apply wp_read. }
    by destruct (wp_elim _ _ _ Hw) as (xs & rb' & -> & -> & ->). }
  split; [apply Hat|]. split.
  - pose proof (Hat i count) as Hr.
    unfold WidthAt, widthAt. unfold RunesAt in Hr. unfold bind in *.
    destruct (bufAt i count rb) as [[s rb1]| |]; [|done..].
    unfold read in *. injection Hr as Hs ->. unfold ret. by rewrite Hs.
  - split.
    + change (RunesTo n rb) with (RunesAt 0 n rb). rewrite Hat. do 2 f_equal.
      unfold span_at. simpl.
      replace (Z.to_nat (0 `min` Z.of_nat (length (text rb)))) with 0%nat
        by lia.
      destruct (Z.leb_spec 0 n); [by rewrite drop_0|].
      rewrite take_0. simpl. replace (Z.to_nat n) with 0%nat by lia. done.
    + change (RunesSub n rb) with (RunesAt (-1) n rb). rewrite Hat.
      do 2 f_equal. unfold span_at. simpl.
      by replace (Z.to_nat (idx rb `min` Z.of_nat (length (text rb))))
        with (Z.to_nat (idx rb)) by lia.
Qed.

(** What [n] calls of [Backspace] do with the cursor at least [n] codepoints
    into the text. *)
Lemma wp_backspaces n rb :
  good rb -> Z.of_nat n <= idx rb ->
  wp (backspaces n) (fun _ rb' =>
    good rb' /\
    text rb' = take (Z.to_nat (idx rb) - n) (text rb)
                 ++ drop (Z.to_nat (idx rb)) (text rb) /\
    idx rb' = idx rb - Z.of_nat n /\ killed rb' = killed rb) rb.
Proof.
  revert rb. induction n as [|n IH]; intros rb Hg Hn.
  - simpl. wp_steps. split; [done|]. split_and!; try (done || lia).
    rewrite Nat.sub_0_r. by rewrite take_drop.
  - cbn [backspaces]. wp_step.
    eapply wp_mono; [by apply wp_Backspace|].
    intros a rb1 (Hg1 & _ & Ht1 & Hi1 & Hk1).
    pose proof (text_length rb Hg) as Hlen.
    pose proof Hg as (_ & Hinv & _). unfold inv, length_of in Hinv.
    destruct (Z.eqb_spec (idx rb) 0); [lia|].
    eapply wp_mono; [apply IH; [done|lia]|].
    intros _ rb2 (Hg2 & Ht2 & Hi2 & Hk2). split; [done|].
    split_and!; [|lia|congruence].
    rewrite Ht2, Hi1, Ht1.
    rewrite take_app_le by (rewrite length_take; lia).
    rewrite take_take.
    rewrite drop_app_ge by (rewrite length_take; lia).
    rewrite length_take.
    replace (Z.to_nat (idx rb - 1)
             - Z.to_nat (idx rb - 1) `min` length (text rb))%nat
      with 0%nat by lia.
    rewrite drop_0. f_equal. f_equal. lia.
Qed.



(** X19.  [Set] stores the cursor it is given without checking it against
    the text.  On a buffer that is not interactive, [Set(i, b)] with [i]
    negative or past the end of [b] returns with the text [b] and the
    cursor [i], outside the text, and the next [WriteRunes] panics on
    [rb.buf[rb.idx:]]. *)
Theorem Set_keeps_any_cursor (i spare : Z) (b s : list rune)
    (rb : RuneBuffer) :
  interactive rb = false -> 0 <= spare ->
  i < 0 \/ Z.of_nat (length b) < i ->
  exists rb1,
    Set_ i b spare rb = Ok (tt, rb1) /\ idx rb1 = i /\ text rb1 = b /\
    WriteRunes s rb1 = Panic.
Proof.
  intros Hi Hsp Hout.
  unfold Set_, Refresh, setBuf, CopyAndGrow, bind, get, modify.
  rewrite Hi. simpl. destruct (Z.ltb_spec spare 0); [lia|].
  eexists. split; [reflexivity|]. split; [done|]. split.
  - unfold text. simpl. rewrite alloc_elems. simpl.
    by rewrite take_app_length.
  - unfold WriteRunes, Refresh, bind, get. simpl. rewrite Hi. simpl.
    unfold lift, slice_from, reslice, length_of. simpl.
    destruct Hout as [Hneg|Hpast].
    + by destruct (Z.leb_spec 0 i); [lia|].
    + destruct (Z.leb_spec i (Z.of_nat (length b))); [lia|].
      by rewrite andb_false_r.
Qed.

(** X20.  A buffer that [NewRuneBuffer] returns is empty, with the cursor at
    0, nothing in the kill slot, no snapshot and nothing written; its
    headers are well formed and its cursor is within the text.  With a
    display it can draw on (not interactive, or a prompt that fits the
    screen), it is a good buffer. *)
Theorem NewRuneBuffer_starts_empty (out p : list byte) (m : rune) (on : bool)
    (sw : Z) (rb0 : RuneBuffer) :
  NewRuneBuffer out p m on sw = Ok (inl rb0) ->
  text rb0 = [] /\ idx rb0 = 0 /\ killed rb0 = [] /\ backup rb0 = None /\
  w rb0 = out /\ wf rb0 /\ inv rb0 /\
  (display_ok rb0 -> good rb0).
Proof.
  unfold NewRuneBuffer, setPrompt, setMask, setInteractive, setScreenWidth,
    bind, modify, ret. simpl.
  destruct (Z.leb_spec sw 0); simpl; [done|].
  intros [= <-].
  assert (Hwf : wf (with_screenWidth sw (with_interactive on (with_mask m
                  (with_prompt (runes_of_string p)
                     (WidthAll (ColorFilter (runes_of_string p)))
                     (zero out)))))).
  { unfold wf, backup_ok, slice_wf, apart, array_at. simpl.
    split_and!; first [lia | tauto]. }
  split_and!; try done.
Qed.

End Extras.

Section Examples.
#[local] Existing Instance doubling.
#[local] Existing Instance ascii_model.

(** The text "ab" with the cursor at the start. *)
Definition ab0 : RuneBuffer := buffer_of [97; 98] 0.

(** The text "ab" with the cursor at the end. *)
Definition ab2 : RuneBuffer := buffer_of [97; 98] 2.

(** The text "ab cd ef" with the cursor on the blank after "ab". *)
Definition three_words : RuneBuffer :=
  buffer_of [97; 98; 32; 99; 100; 32; 101; 102] 2.

(** The text "ab" with the cursor after "a", behind the prompt "0123456789"
    on a screen of 9 columns. *)
Definition narrow : RuneBuffer :=
  {| w := []; prompt := [48; 49; 50; 51; 52; 53; 54; 55; 56; 57];
     promptWidth := 10; mask := 0; interactive := true; screenWidth := 9;
     idx := 1; buf := Slice 0 0 2 2; backup := None; hadClean := false;
     lastKill := nil_slice; mem := [[97; 98]] |}.

(** The text "ab" behind the mask "*", the cursor after "a". *)
Definition secret1 : RuneBuffer :=
  with_interactive true (with_mask 42 (buffer_of [97; 98] 1)).

(** A few edits of "ab cd" and the buffer they leave. *)
Definition some_edits : list op :=
  [OpMoveToLineStart; OpWriteRunes [120]; OpKillWord; OpYank; OpBackspace].

Definition edited : RuneBuffer :=
  match run_ops some_edits words with
  | Ok (_, x) => x
  | _ => words
  end.

(** The buffer of a new line editor with the prompt "> ". *)
Definition new_buffer : RuneBuffer :=
  match NewRuneBuffer [] [62; 32] 0 false 80 with
  | Ok (inl x) => x
  | _ => ab0
  end.



Lemma Erase_saves_text_witness :
  exists rb1 rb2,
    Erase ab1 = Ok (true, rb1) /\ text rb1 = [] /\ idx rb1 = 0 /\
    killed rb1 = [97; 98] /\
    Yank rb1 = Ok (true, rb2) /\ text rb2 = [97; 98] /\ idx rb2 = 2.
Proof.
  apply (Erase_saves_text ab1).
  - apply good_buffer_of. simpl. lia.
  - discriminate.
Defined.









Lemma getBackspaceSequence_hangs_witness :
  (forall fuel, sep_loop fuel 0 2 10 9 ∅ = Hang) /\
  getBackspaceSequence narrow = Hang /\
  outputPrint narrow = Hang.
Proof.
  destruct (getBackspaceSequence_hangs 1 narrow) as (Hl & Hg & Ho);
    [simpl; lia|lia|reflexivity|simpl; lia|].
  split; [exact Hl|]. split; [exact Hg|].
  apply Ho.
  - unfold slice_wf, array_at. simpl. split_and!; first [lia | tauto].
  - unfold length_of. simpl. lia.
  - simpl. lia.
  - discriminate.
Defined.



Lemma no_output_when_not_interactive_witness :
  run_ops some_edits words = Ok (tt, edited) /\
  text edited = [120; 97; 32; 99; 100] /\
  same_screen words edited /\
  Clear words = Ok (tt, with_w [27; 91; 72] words).
Proof.
  assert (Hr : run_ops some_edits words = Ok (tt, edited))
    by (vm_compute; reflexivity).
  destruct (no_output_when_not_interactive some_edits words edited)
    as [Hs Hc]; [reflexivity|].
  split; [exact Hr|]. split; [vm_compute; reflexivity|].
  split; [exact (Hs Hr)|exact Hc].
Defined.

Lemma RunesAt_total_witness :
  RunesAt 9 (-2) three_words = Ok ([101; 102], three_words) /\
  WidthAt 9 (-2) three_words = Ok (2, three_words) /\
  RunesTo 3 three_words = Ok ([97; 98; 32], three_words) /\
  RunesSub 3 three_words = Ok ([32; 99; 100], three_words).
Proof.
  assert (Hg : good three_words) by (apply good_buffer_of; simpl; lia).
  exact (RunesAt_total 9 (-2) 3 three_words Hg).
Defined.



Lemma Set_keeps_any_cursor_witness :
  exists rb1,
    Set_ 5 [120; 121] 0 ab1 = Ok (tt, rb1) /\ idx rb1 = 5 /\
    text rb1 = [120; 121] /\
    WriteRunes [122] rb1 = Panic.
Proof.
  apply (Set_keeps_any_cursor 5 0 [120; 121] [122] ab1).
  - reflexivity.
  - lia.
  - right. simpl. lia.
Defined.

Lemma NewRuneBuffer_starts_empty_witness :
  NewRuneBuffer [] [62; 32] 0 false 80 = Ok (inl new_buffer) /\
  text new_buffer = [] /\ idx new_buffer = 0 /\ killed new_buffer = [] /\
  backup new_buffer = None /\ w new_buffer = [] /\
  wf new_buffer /\ inv new_buffer /\
  (display_ok new_buffer -> good new_buffer).
Proof.
  split; [reflexivity|].
  apply (NewRuneBuffer_starts_empty [] [62; 32] 0 false 80 new_buffer).
  reflexivity.
Defined.

End Examples.

End runeutil_extras.

(** ** Further properties of the input loop *)

Module readline_extras.
Import gort gort_facts runeutil wp_rules runeutil_facts readline.
Import readline_facts runeutil_more readline_more.

#[local] Arguments dispatch : simpl never.
#[local] Arguments run_term : simpl never.

Section Extras.
Context `{GoRuntime} `{GoRuntimeBytes} `{WidthModel} `{Keys} `{Decoder}.

(** X21.  [opReturn] on a good buffer returns.  It offers the text of the
    buffer, encoded in UTF-8 and without the newline it appended, to the
    reader with a nil error, and empties the buffer (cursor 0, the kill slot
    kept).  The offer does not block: when the channel still holds a result
    that was not read, the new line is dropped and the channel is left as it
    was, and the buffer is emptied all the same. *)
Theorem opReturn_publishes (t : Terminal) :
  good (rb t) ->
  exists t',
    opReturn t = Ok (tt, t') /\
    text (rb t') = [] /\ idx (rb t') = 0 /\
    killed (rb t') = killed (rb t) /\
    (lineResultCh t = [] ->
     lineResultCh t'
     = [{| Line := string_of_runes (text (rb t)); Err := None |}]) /\
    (lineResultCh t <> [] -> lineResultCh t' = lineResultCh t) /\
    ioInsMode t' = ioInsMode t /\ ioErr t' = ioErr t.
Proof.
  intros Hg.
  destruct (wp_elim _ _ _ (wp_opReturn t Hg))
    as ([] & t' & Hr & _ & Ht & Hi & Hk & Hch & Hm & He).
  exists t'. split_and!; try done.
  - intros Hempty. by rewrite Hch, Hempty.
  - intros Hfull. rewrite Hch. by destruct (lineResultCh t).
Qed.

(** X22.  Outside an escape sequence, Ctrl-C and Ctrl-D end the loop, with
    [ErrInterrupted] for Ctrl-C and [io.EOF] for Ctrl-D, whatever the buffer
    holds: the error is stored as the loop's error, the bytes of the buffer
    are offered to the reader with that error, the buffer itself is not
    changed, and the input that follows is not read. *)
Theorem control_byte_ends_loop (k : nat) (l : loop) (evs : list event)
    (b : byte) (e : error) :
  err l = None -> escaped l = false -> b <> CharEscape ->
  (b = CharInterrupt /\ e = ErrInterrupted) \/ (b = CharDelete /\ e = EOF) ->
  exists l',
    rounds (S k) l (Byte b :: evs) = Ok l' /\
    err l' = Some e /\ ioErr (term l') = Some (Some e) /\
    rb (term l') = rb (term l) /\
    lineResultCh (term l')
    = sent (lineResultCh (term l)) (string_of_runes (text (rb (term l))))
           (Some e).
Proof.
  intros Herr Hesc Hne Hcase.
  assert (Hround : round l (Byte b :: evs) = Ok (with_err (Some e) l, evs)).
  { rewrite round_byte; [|destruct Hcase as [[-> _]|[-> _]]; done..].
    by destruct Hcase as [[-> ->]|[-> ->]]. }
  rewrite (rounds_cons _ _ _ _ _ _ Herr Hround).
  rewrite (rounds_finish _ _ _ e) by done.
  destruct (finish_spec (with_err (Some e) l) e eq_refl)
    as (l' & Hf & He & Hio & Hrb & Hch & _).
  assert (Hfin : final_error e = e)
    by (by destruct Hcase as [[_ ->]|[_ ->]]).
  rewrite Hfin in *. by exists l'.
Qed.

(** X23.  The loop ends on a cancelled context and on a read that fails with
    an error other than an interrupted system call, in an escape sequence or
    not.  The error of the read is stored and offered to the reader with the
    bytes of the buffer; the error of the context is turned into [io.EOF]
    first.  The buffer is not changed and no further input is read. *)
Theorem failure_ends_loop (k : nat) (l : loop) (evs : list event)
    (ev : event) (e : error) :
  err l = None ->
  (ev = Cancelled /\ e = ErrCanceled) \/ ev = Failed e ->
  exists l',
    rounds (S k) l (ev :: evs) = Ok l' /\
    err l' = Some (final_error e) /\
    ioErr (term l') = Some (Some (final_error e)) /\
    rb (term l') = rb (term l) /\
    lineResultCh (term l')
    = sent (lineResultCh (term l)) (string_of_runes (text (rb (term l))))
           (Some (final_error e)).
Proof.
  intros Herr Hcase.
  assert (Hround : round l (ev :: evs) = Ok (with_err (Some e) l, evs))
    by (by destruct Hcase as [[-> ->]| ->]).
  rewrite (rounds_cons _ _ _ _ _ _ Herr Hround).
  rewrite (rounds_finish _ _ _ e) by done.
  destruct (finish_spec (with_err (Some e) l) e eq_refl)
    as (l' & Hf & He & Hio & Hrb & Hch & _).
  by exists l'.
Qed.



End Extras.

Section Examples.
#[local] Existing Instance runeutil_claims.doubling.
#[local] Existing Instance runeutil_claims.ascii_model.
#[local] Existing Instance readline_claims.doubling_bytes.
#[local] Existing Instance readline_claims.usual_keys.
#[local] Existing Instance readline_claims.no_decoder.

(** A terminal on the text "ab" with the cursor after "a". *)
Definition typing : Terminal :=
  readline_claims.terminal_of (runeutil_claims.buffer_of [97; 98] 1).

(** A terminal on the text "ab" with the cursor at the start. *)
Definition at_start : Terminal :=
  readline_claims.terminal_of (runeutil_claims.buffer_of [97; 98] 0).

(** The Insert key: ESC [ 2 ~. *)
Definition insert_key : escapeKeyPair :=
  {| Char := 91; Type_ := 126; Attribute := 2; Attribute2 := -1;
     Remainder := [] |}.

Lemma opReturn_publishes_witness :
  exists t',
    opReturn typing = Ok (tt, t') /\
    text (rb t') = [] /\ idx (rb t') = 0 /\ killed (rb t') = [] /\
    (lineResultCh typing = [] ->
     lineResultCh t' = [{| Line := [97; 98]; Err := None |}]) /\
    (lineResultCh typing <> [] -> lineResultCh t' = []) /\
    ioInsMode t' = false /\ ioErr t' = None.
Proof.
  apply (opReturn_publishes typing).
  apply runeutil_claims.good_buffer_of. simpl. lia.
Defined.

Lemma control_byte_ends_loop_witness :
  exists l',
    rounds 3 (start typing) [Byte CharDelete; Byte 120; Byte 13] = Ok l' /\
    err l' = Some EOF /\ ioErr (term l') = Some (Some EOF) /\
    rb (term l') = rb typing /\
    lineResultCh (term l') = [{| Line := [97; 98]; Err := Some EOF |}].
Proof.
  apply (control_byte_ends_loop 2 (start typing) [Byte 120; Byte 13]
           CharDelete EOF).
  - reflexivity.
  - reflexivity.
  - discriminate.
  - right. split; reflexivity.
Defined.

Lemma failure_ends_loop_witness :
  exists l',
    rounds 2 (start typing) [Cancelled; Byte 120] = Ok l' /\
    err l' = Some EOF /\ ioErr (term l') = Some (Some EOF) /\
    rb (term l') = rb typing /\
    lineResultCh (term l') = [{| Line := [97; 98]; Err := Some EOF |}].
Proof.
  apply (failure_ends_loop 1 (start typing) [Byte 120] Cancelled
           ErrCanceled).
  - reflexivity.
  - left. split; reflexivity.
Defined.




End Examples.

End readline_extras.

(** ** UTF-8: decoding what was encoded *)

Module utf8_facts.
Import gort.

(** A Unicode scalar value: a codepoint that is not a surrogate. *)
Definition valid_rune (r : rune) : Prop :=
  0 <= r <= MaxRune /\ ~ 0xD800 <= r <= 0xDFFF.

Lemma lor_low a b k :
  0 <= k -> 0 <= b < 2 ^ k -> Z.lor (a * 2 ^ k) b = a * 2 ^ k + b.
Proof.
  intros Hk Hb. rewrite <- (Z.add_lor_land (a * 2 ^ k) b).
  assert (E : Z.land (a * 2 ^ k) b = 0); [|lia].
  apply Z.bits_inj'. intros n Hn.
  rewrite Z.land_spec, Z.bits_0.
  destruct (Z.lt_ge_cases n k) as [Hlt | Hge].
  - by rewrite Z.mul_pow2_bits_low.
  - rewrite <- (Z.mod_small b (2 ^ k)) by lia.
    rewrite Z.mod_pow2_bits_high by lia. apply andb_false_r.
Qed.

Lemma lor_0x80 x : 0 <= x < 64 -> Z.lor 0x80 x = 0x80 + x.
Proof. intros Hx. apply (lor_low 2 x 6); lia. Qed.

Lemma lor_0xC0 x : 0 <= x < 32 -> Z.lor 0xC0 x = 0xC0 + x.
Proof. intros Hx. apply (lor_low 6 x 5); lia. Qed.

Lemma lor_0xE0 x : 0 <= x < 16 -> Z.lor 0xE0 x = 0xE0 + x.
Proof. intros Hx. apply (lor_low 14 x 4); lia. Qed.

Lemma lor_0xF0 x : 0 <= x < 8 -> Z.lor 0xF0 x = 0xF0 + x.
Proof. intros Hx. apply (lor_low 30 x 3); lia. Qed.

Lemma land_0x3F x : Z.land x 0x3F = x mod 64.
Proof. apply (Z.land_ones x 6). lia. Qed.

Lemma land_0x1F x : Z.land x 0x1F = x mod 32.
Proof. apply (Z.land_ones x 5). lia. Qed.

Lemma land_0x0F x : Z.land x 0x0F = x mod 16.
Proof. apply (Z.land_ones x 4). lia. Qed.

Lemma land_0x07 x : Z.land x 0x07 = x mod 8.
Proof. apply (Z.land_ones x 3). lia. Qed.

Lemma shiftr_6 x : Z.shiftr x 6 = x / 64.
Proof. apply (Z.shiftr_div_pow2 x 6). lia. Qed.

Lemma shiftr_12 x : Z.shiftr x 12 = x / 4096.
Proof. apply (Z.shiftr_div_pow2 x 12). lia. Qed.

Lemma shiftr_18 x : Z.shiftr x 18 = x / 262144.
Proof. apply (Z.shiftr_div_pow2 x 18). lia. Qed.

Lemma shiftl_6 x : Z.shiftl x 6 = x * 64.
Proof. apply (Z.shiftl_mul_pow2 x 6). lia. Qed.

Lemma shiftl_12 x : Z.shiftl x 12 = x * 4096.
Proof. apply (Z.shiftl_mul_pow2 x 12). lia. Qed.

Lemma shiftl_18 x : Z.shiftl x 18 = x * 262144.
Proof. apply (Z.shiftl_mul_pow2 x 18). lia. Qed.

Lemma lor_add x b k :
  0 <= k -> x mod 2 ^ k = 0 -> 0 <= b < 2 ^ k -> Z.lor x b = x + b.
Proof.
  intros Hk Hx Hb. assert (Hp : 0 < 2 ^ k) by lia.
  rewrite (Z.div_mod x (2 ^ k)), Hx, Z.add_0_r, (Z.mul_comm (2 ^ k)) by lia.
  by apply lor_low.
Qed.

Lemma lor_add_6 x b : x mod 64 = 0 -> 0 <= b < 64 -> Z.lor x b = x + b.
Proof. apply (lor_add x b 6). lia. Qed.

Lemma lor_add_12 x b : x mod 4096 = 0 -> 0 <= b < 4096 -> Z.lor x b = x + b.
Proof. apply (lor_add x b 12). lia. Qed.

Lemma lor_add_18 x b :
  x mod 262144 = 0 -> 0 <= b < 262144 -> Z.lor x b = x + b.
Proof. apply (lor_add x b 18). lia. Qed.

(** The bytes of the encoding of a codepoint past ASCII, as numbers. *)
Lemma encode_rune_2 r :
  0x80 <= r <= 0x7FF ->
  encode_rune r = [0xC0 + r / 64; 0x80 + r mod 64].
Proof.
  intros Hr. unfold encode_rune.
  destruct (Z.leb_spec 0 r); [|lia].
  destruct (Z.leb_spec r 0x7F); [lia|].
  destruct (Z.leb_spec r 0x7FF); [|lia]. simpl.
  rewrite shiftr_6, land_0x3F.
  rewrite lor_0xC0, lor_0x80; [done| |]; Z.div_mod_to_equations; lia.
Qed.

Lemma encode3_eq r :
  0 <= r <= 0xFFFF ->
  encode3 r = [0xE0 + r / 4096; 0x80 + (r / 64) mod 64; 0x80 + r mod 64].
Proof.
  intros Hr. unfold encode3. rewrite shiftr_12, shiftr_6, !land_0x3F.
  rewrite lor_0xE0, !lor_0x80; [done|..]; Z.div_mod_to_equations; lia.
Qed.

Lemma encode_rune_3 r :
  0x800 <= r <= 0xFFFF -> ~ 0xD800 <= r <= 0xDFFF ->
  encode_rune r
  = [0xE0 + r / 4096; 0x80 + (r / 64) mod 64; 0x80 + r mod 64].
Proof.
  intros Hr Hs. unfold encode_rune, MaxRune.
  destruct (Z.leb_spec 0 r); [|lia].
  destruct (Z.leb_spec r 0x7F); [lia|].
  destruct (Z.leb_spec r 0x7FF); [lia|].
  destruct (Z.ltb_spec r 0); [lia|].
  destruct (Z.ltb_spec 0x10FFFF r); [lia|].
  destruct (Z.leb_spec r 0xFFFF); [|lia]. simpl.
  destruct (Z.leb_spec 0xD800 r), (Z.leb_spec r 0xDFFF); simpl;
    first [lia | apply encode3_eq; lia].
Qed.

Lemma encode_rune_4 r :
  0x10000 <= r <= MaxRune ->
  encode_rune r
  = [0xF0 + r / 262144; 0x80 + (r / 4096) mod 64;
     0x80 + (r / 64) mod 64; 0x80 + r mod 64].
Proof.
  unfold MaxRune. intros Hr. unfold encode_rune, MaxRune.
  destruct (Z.leb_spec 0 r); [|lia].
  destruct (Z.leb_spec r 0x7F); [lia|].
  destruct (Z.leb_spec r 0x7FF); [lia|].
  destruct (Z.ltb_spec r 0); [lia|].
  destruct (Z.ltb_spec 0x10FFFF r); [lia|].
  destruct (Z.leb_spec r 0xFFFF); [lia|].
  destruct (Z.leb_spec r 0xDFFF); [lia|]. rewrite andb_false_r. simpl.
  rewrite shiftr_18, shiftr_12, shiftr_6, !land_0x3F.
  rewrite lor_0xF0, !lor_0x80; [|Z.div_mod_to_equations; lia..].
  by destruct (55296 <=? r).
Qed.

(** [DecodeRune] on a well-formed sequence of two, three and four bytes,
    whatever follows it. *)
Ltac first_byte :=
  unfold decode_rune, first, cont;
  repeat match goal with
         | |- context [?a <=? ?b] => destruct (Z.leb_spec a b); try lia
         | |- context [?a <? ?b] => destruct (Z.ltb_spec a b); try lia
         | |- context [?a =? ?b] => destruct (Z.eqb_spec a b); try lia
         | _ => progress cbn [andb orb negb Nat.leb]
         end.

Ltac bits_to_arith :=
  rewrite ?land_0x07, ?land_0x0F, ?land_0x1F, ?land_0x3F,
          ?shiftl_6, ?shiftl_12, ?shiftl_18;
  repeat match goal with
         | |- context [Z.lor ?x ?y] =>
           first
             [ rewrite (lor_add_18 x y) by (Z.div_mod_to_equations; lia)
             | rewrite (lor_add_12 x y) by (Z.div_mod_to_equations; lia)
             | rewrite (lor_add_6 x y) by (Z.div_mod_to_equations; lia) ]
         end.

Lemma decode_rune_2 b0 b1 more :
  0xC2 <= b0 <= 0xDF -> 0x80 <= b1 <= 0xBF ->
  decode_rune b0 (b1 :: more) = (b0 mod 32 * 64 + b1 mod 64, 2%nat).
Proof. intros H0 H1. first_byte; by bits_to_arith. Qed.

Lemma decode_rune_3 b0 b1 b2 more :
  0xE0 <= b0 <= 0xEF -> 0x80 <= b1 <= 0xBF -> 0x80 <= b2 <= 0xBF ->
  (b0 = 0xE0 -> 0xA0 <= b1) -> (b0 = 0xED -> b1 <= 0x9F) ->
  decode_rune b0 (b1 :: b2 :: more)
  = (b0 mod 16 * 4096 + b1 mod 64 * 64 + b2 mod 64, 3%nat).
Proof. intros H0 H1 H2 Hlo Hhi. first_byte; by bits_to_arith. Qed.

Lemma decode_rune_4 b0 b1 b2 b3 more :
  0xF0 <= b0 <= 0xF4 -> 0x80 <= b1 <= 0xBF -> 0x80 <= b2 <= 0xBF ->
  0x80 <= b3 <= 0xBF ->
  (b0 = 0xF0 -> 0x90 <= b1) -> (b0 = 0xF4 -> b1 <= 0x8F) ->
  decode_rune b0 (b1 :: b2 :: b3 :: more)
  = (b0 mod 8 * 262144 + b1 mod 64 * 4096 + b2 mod 64 * 64 + b3 mod 64,
     4%nat).
Proof. intros H0 H1 H2 H3 Hlo Hhi. first_byte; by bits_to_arith. Qed.

(** The round trip: [DecodeRune] gives a scalar value past ASCII back from
    its encoding, whatever bytes follow, and takes the bytes of the encoding
    and no more. *)
Lemma decode_encode r more :
  valid_rune r -> RuneSelf <= r ->
  exists b rest,
    encode_rune r = b :: rest /\
    decode_rune b (rest ++ more) = (r, S (length rest)) /\
    0xC2 <= b <= 0xF4.
Proof.
  unfold valid_rune, MaxRune, RuneSelf. intros [Hr Hs] Hlo.
  destruct (Z.le_gt_cases r 0x7FF) as [H2 | H2];
    [|destruct (Z.le_gt_cases r 0xFFFF) as [H3 | H3]].
  - eexists _, _. split; [by apply encode_rune_2|]. simpl app.
    rewrite decode_rune_2 by (Z.div_mod_to_equations; lia).
    split; [|Z.div_mod_to_equations; lia].
    f_equal. Z.div_mod_to_equations; lia.
  - eexists _, _. split; [apply encode_rune_3; lia|]. simpl app.
    rewrite decode_rune_3 by (Z.div_mod_to_equations; lia).
    split; [|Z.div_mod_to_equations; lia].
    f_equal. Z.div_mod_to_equations; lia.
  - eexists _, _. split; [apply encode_rune_4; unfold MaxRune; lia|].
    simpl app.
    rewrite decode_rune_4 by (Z.div_mod_to_equations; lia).
    split; [|Z.div_mod_to_equations; lia].
    f_equal. Z.div_mod_to_equations; lia.
Qed.

Lemma decode_rune_ascii c more :
  0 <= c < RuneSelf -> decode_rune c more = (c, 1%nat).
Proof.
  unfold RuneSelf. intros Hc. unfold decode_rune, first, RuneSelf.
  repeat match goal with
         | |- context [?a <=? ?b] => destruct (Z.leb_spec a b); try lia
         | |- context [?a <? ?b] => destruct (Z.ltb_spec a b); try lia
         | |- context [?a =? ?b] => destruct (Z.eqb_spec a b); try lia
         | _ => progress cbn [andb orb negb]
         end; done.
Qed.

Lemma encode_rune_ascii r : 0 <= r < RuneSelf -> encode_rune r = [r].
Proof.
  unfold RuneSelf. intros Hr. unfold encode_rune.
  destruct (Z.leb_spec 0 r); [|lia].
  by destruct (Z.leb_spec r 127); [|lia].
Qed.

(** The round trip for every scalar value, ASCII or not. *)
Lemma decode_encode_any r more :
  valid_rune r ->
  exists b rest,
    encode_rune r = b :: rest /\
    decode_rune b (rest ++ more) = (r, S (length rest)).
Proof.
  intros Hv. destruct (Z.lt_ge_cases r RuneSelf) as [Hlt | Hge].
  - destruct Hv as [[Hr _] _]. exists r, [].
    split; [apply encode_rune_ascii; lia|]. apply decode_rune_ascii. lia.
  - destruct (decode_encode r more Hv Hge) as (b & rest & Ee & Ed & _).
    by exists b, rest.
Qed.

Lemma string_of_runes_cons r rs :
  string_of_runes (r :: rs) = encode_rune r ++ string_of_runes rs.
Proof. done. Qed.

(** [[]rune(string(rs))] is [rs] for a text of scalar values. *)
Lemma runes_of_string_aux_encoding rs : forall k,
  Forall valid_rune rs -> (length (string_of_runes rs) <= k)%nat ->
  runes_of_string_aux k (string_of_runes rs) = rs.
Proof.
  induction rs as [|r rs IH]; intros k Hv Hk; [by destruct k|].
  apply Forall_cons in Hv as [Hr Hv].
  rewrite string_of_runes_cons in Hk |- *.
  destruct (decode_encode_any r (string_of_runes rs) Hr)
    as (b & rest & Ee & Ed).
  rewrite Ee in Hk |- *. rewrite length_app in Hk. simpl in Hk.
  destruct k as [|k]; [lia|].
  cbn [app runes_of_string_aux]. rewrite Ed. f_equal.
  replace (S (length rest) - 1)%nat with (length rest) by lia.
  rewrite drop_app_length. apply IH; [done|lia].
Qed.

Lemma runes_of_string_encoding rs :
  Forall valid_rune rs -> runes_of_string (string_of_runes rs) = rs.
Proof. intros Hv. by apply runes_of_string_aux_encoding. Qed.

End utf8_facts.

(** ** Strings in and out of the buffer *)

Module runeutil_strings.
Import gort gort_facts runeutil wp_rules runeutil_facts width_facts.
Import runeutil_claims utf8_facts.

Section Strings.
Context `{GoRuntime} `{WidthModel}.


End Strings.

Section Examples.
#[local] Existing Instance doubling.
#[local] Existing Instance ascii_model.


End Examples.

End runeutil_strings.

(** ** Typed text in the input loop *)

Module readline_typing.
Import gort gort_facts runeutil wp_rules runeutil_facts readline.
Import readline_facts runeutil_more readline_more utf8_facts.

#[local] Arguments dispatch : simpl never.
#[local] Arguments run_term : simpl never.

Section Typing.
Context `{GoRuntime} `{GoRuntimeBytes} `{WidthModel} `{Keys} `{Decoder}.

(** A codepoint the loop takes as typed text: a scalar value whose encoding
    the encoder of control characters leaves alone and whose first byte is
    neither the escape character nor a case of the switch. *)
Definition plain_rune (r : rune) : Prop :=
  valid_rune r /\
  encodeControlChars (encode_rune r) = encode_rune r /\
  forall b, head (encode_rune r) = Some b ->
    is_control b = false /\ b <> CharEscape.

Lemma pending_bytes bs evs :
  pending ((Byte <$> bs) ++ evs) = bs ++ pending evs.
Proof. induction bs as [|b bs IH]; [done|]. simpl. by rewrite <- IH. Qed.

Lemma runes_of_string_aux_nil k : runes_of_string_aux k [] = [].
Proof. by destruct k. Qed.

(** [[]rune(string(r))] is [r] for a scalar value. *)
Lemma runes_of_encoding r :
  valid_rune r -> runes_of_string (encode_rune r) = [r].
Proof.
  intros Hv. destruct (Z.lt_ge_cases r RuneSelf) as [Hlt | Hge].
  - destruct Hv as [[Hr _] _].
    rewrite encode_rune_ascii by lia. by apply runes_of_ascii.
  - destruct (decode_encode r [] Hv Hge) as (b & rest & -> & Ed & _).
    rewrite app_nil_r in Ed. unfold runes_of_string.
    cbn [length runes_of_string_aux]. rewrite Ed.
    replace (S (length rest) - 1)%nat with (length rest) by lia.
    by rewrite drop_all, runes_of_string_aux_nil.
Qed.

Lemma encode_rune_not_nil r : encode_rune r <> [].
Proof.
  unfold encode_rune, encode3.
  by repeat match goal with |- context [if ?c then _ else _] =>
              destruct c end.
Qed.

(** The round on the bytes of a typed codepoint, with the insert mode off:
    the codepoint goes into the buffer at the cursor and its bytes are
    consumed. *)
Lemma round_rune r t evs :
  plain_rune r -> ioInsMode t = false -> good (rb t) ->
  exists t',
    round (start t) ((Byte <$> encode_rune r) ++ evs) = Ok (start t', evs) /\
    good (rb t') /\
    text (rb t') = take (Z.to_nat (idx (rb t))) (text (rb t))
                     ++ r :: drop (Z.to_nat (idx (rb t))) (text (rb t)) /\
    idx (rb t') = idx (rb t) + 1 /\
    lineResultCh t' = lineResultCh t /\ ioInsMode t' = ioInsMode t /\
    ioErr t' = ioErr t.
Proof.
  intros (Hv & Henc & Hhd) Hins Hg.
  destruct (Z.lt_ge_cases r RuneSelf) as [Hlt | Hge].
  { pose proof Hv as [[Hr _] _].
    rewrite encode_rune_ascii in Henc, Hhd |- * by lia.
    destruct (Hhd r eq_refl) as [Hc He].
    by apply round_literal. }
  destruct (decode_encode r (pending evs) Hv Hge)
    as (b & rest & Ee & Ed & Hb).
  assert (Hw : wp (literal (encode_rune r)) (fun _ t' =>
    good (rb t') /\
    text (rb t') = take (Z.to_nat (idx (rb t))) (text (rb t))
                     ++ r :: drop (Z.to_nat (idx (rb t))) (text (rb t)) /\
    idx (rb t') = idx (rb t) + 1 /\
    lineResultCh t' = lineResultCh t /\ ioInsMode t' = ioInsMode t /\
    ioErr t' = ioErr t) t).
  { unfold literal. rewrite Henc. wp_steps. rewrite Hins. simpl negb.
    cbv iota. apply wp_on_rb. unfold WriteBytes, WriteString.
    rewrite runes_of_encoding by done.
    eapply wp_mono; [by apply wp_WriteRunes|].
    intros _ x (Hgx & Htx & Hix & _). simpl. by rewrite Hins. }
  apply wp_elim in Hw as ([] & t' & Et & Ht).
  exists t'. split; [|done].
  destruct (Hhd b) as [Hc He]; [by rewrite Ee|].
  pose proof (run_term_start _ t t' Et) as Er.
  rewrite Ee in Er |- *. cbn [fmap list_fmap app].
  change (list_fmap _ _ Byte rest) with (Byte <$> rest).
  unfold round. unfold RuneSelf in *.
  destruct (Z.leb_spec 128 b); [|lia]. cbn [start escaped negb andb].
  rewrite pending_bytes, Ed, Ee. unfold handle.
  destruct (Z.eqb_spec b CharEscape); [done|]. cbn [start escaped orb].
  rewrite dispatch_literal by done.
  unfold byte in *. rewrite Er. simpl.
  do 2 f_equal. apply drop_app_length'. rewrite length_fmap. lia.
Qed.

Lemma rounds_step k t evs l' evs' :
  evs <> [] -> round (start t) evs = Ok (l', evs') ->
  rounds (S k) (start t) evs = rounds k l' evs'.
Proof. destruct evs as [|e evs]; [done|]. intros _. apply rounds_start. Qed.

Lemma string_of_runes_length rs :
  (length rs <= length (string_of_runes rs))%nat.
Proof.
  induction rs as [|r rs IH]; [done|].
  rewrite string_of_runes_cons, length_app. simpl.
  pose proof (encode_rune_not_nil r).
  destruct (encode_rune r); [done|simpl; lia].
Qed.

(** The rounds on the bytes of a typed text, with the insert mode off: one
    round for each codepoint, and the text goes into the buffer at the
    cursor. *)
Lemma rounds_typed rs : forall t rest n,
  Forall plain_rune rs -> ioInsMode t = false -> good (rb t) ->
  exists t',
    rounds (length rs + n) (start t) ((Byte <$> string_of_runes rs) ++ rest)
    = rounds n (start t') rest /\
    good (rb t') /\
    text (rb t') = take (Z.to_nat (idx (rb t))) (text (rb t)) ++ rs
                     ++ drop (Z.to_nat (idx (rb t))) (text (rb t)) /\
    idx (rb t') = idx (rb t) + Z.of_nat (length rs) /\
    lineResultCh t' = lineResultCh t /\ ioInsMode t' = false /\
    ioErr t' = ioErr t.
Proof.
  induction rs as [|r rs IH]; intros t rest n Hp Hins Hg.
  - exists t. simpl. rewrite take_drop. split_and!; (done || lia).
  - apply Forall_cons in Hp as [Hr Hp].
    rewrite string_of_runes_cons, fmap_app, <- app_assoc.
    destruct (round_rune r t ((Byte <$> string_of_runes rs) ++ rest))
      as (t1 & E1 & G1 & T1 & I1 & C1 & M1 & R1); try done.
    destruct (IH t1 rest n) as (t2 & E2 & G2 & T2 & I2 & C2 & M2 & R2);
      [done|congruence|done|].
    exists t2. split.
    { cbn [length Nat.add]. rewrite <- E2. apply rounds_step; [|done].
      pose proof (encode_rune_not_nil r).
      by destruct (encode_rune r). }
    pose proof (good_text_length _ Hg) as Hlen.
    pose proof Hg as (_ & Hinv & _). unfold inv in Hinv.
    split_and!; try congruence; [|rewrite I2, I1; simpl length; lia].
    rewrite T2, I1, T1.
    set (a := take (Z.to_nat (idx (rb t))) (text (rb t))).
    set (b := drop (Z.to_nat (idx (rb t))) (text (rb t))).
    assert (Ha : Z.to_nat (idx (rb t) + 1) = length (a ++ [r])).
    { unfold a. rewrite length_app, length_take. simpl. lia. }
    rewrite Ha.
    replace (a ++ r :: b) with ((a ++ [r]) ++ b) by (by rewrite <- app_assoc).
    rewrite take_app_length, drop_app_length.
    by rewrite <- app_assoc.
Qed.

(** X26.  What is typed is what is read: from an empty buffer, with the line
    channel empty and the insert mode off, the loop fed the UTF-8 encoding
    of a text of typed codepoints, ASCII or not, followed by Enter publishes
    exactly one line result, whose line is those bytes and whose error is
    nil, and leaves the buffer empty and the loop running. *)
Theorem typed_line_is_published (rs : list rune) (t : Terminal) :
  Forall plain_rune rs ->
  CharEscape <> 13 -> CharBackspaceEx <> 13 ->
  CharFeed = 13 \/ CharReturn = 13 ->
  good (rb t) -> text (rb t) = [] ->
  lineResultCh t = [] -> ioInsMode t = false ->
  exists l,
    ioloop t ((Byte <$> string_of_runes rs) ++ [Byte 13]) = Ok l /\
    lineResultCh (term l)
    = [{| Line := string_of_runes rs; Err := None |}] /\
    text (rb (term l)) = [] /\ idx (rb (term l)) = 0 /\
    err l = None /\ ioErr (term l) = ioErr t.
Proof.
  intros Hp He Hbs Hret Hg Ht Hch Hins.
  unfold ioloop. rewrite length_app, length_fmap. simpl length.
  pose proof (string_of_runes_length rs) as Hlen.
  destruct (rounds_typed rs t [Byte 13]
              (S (length (string_of_runes rs) - length rs)) Hp Hins Hg)
    as (t1 & E1 & G1 & T1 & I1 & C1 & M1 & R1).
  replace (length (string_of_runes rs) + 1)%nat
    with (length rs + S (length (string_of_runes rs) - length rs))%nat
    by lia.
  rewrite E1. rewrite Ht, take_nil, drop_nil, app_nil_r in T1. simpl in T1.
  destruct (round_return t1 []) as (t2 & E2 & G2 & T2 & I2 & C2 & M2 & R2);
    [done|done|done|done|congruence|].
  rewrite (rounds_start _ _ _ _ _ _ E2).
  exists (start t2). split; [by destruct (_ - _)%nat|].
  simpl. split_and!; try done; [|congruence].
  by rewrite C2, T1.
Qed.


End Typing.

Section Examples.
#[local] Existing Instance runeutil_claims.doubling.
#[local] Existing Instance runeutil_claims.ascii_model.
#[local] Existing Instance readline_claims.doubling_bytes.
#[local] Existing Instance readline_claims.usual_keys.
#[local] Existing Instance readline_claims.no_decoder.

(** A terminal on an empty buffer. *)
Definition empty_line : Terminal :=
  readline_claims.terminal_of (runeutil_claims.buffer_of [] 0).

(** A terminal on the text "ab" with the cursor after "a". *)
Definition after_a : Terminal :=
  readline_claims.terminal_of (runeutil_claims.buffer_of [97; 98] 1).

Lemma plain_rune_example r :
  r ∈ [104; 233; 8364; 128512; RuneError] -> plain_rune r.
Proof.
  intros Hr.
  repeat (apply elem_of_cons in Hr as [-> | Hr]);
    [..|by apply elem_of_nil in Hr].
  all: split; [split; unfold MaxRune, RuneError; lia|].
  all: split; [reflexivity|].
  all: intros b Hb; injection Hb as <-; split; [reflexivity|discriminate].
Qed.

Lemma typed_line_is_published_witness :
  exists l,
    ioloop empty_line
      (Byte <$> [104; 195; 169; 226; 130; 172; 240; 159; 152; 128; 13])
    = Ok l /\
    lineResultCh (term l)
    = [{| Line := [104; 195; 169; 226; 130; 172; 240; 159; 152; 128];
          Err := None |}] /\
    text (rb (term l)) = [] /\ idx (rb (term l)) = 0 /\
    err l = None /\ ioErr (term l) = None.
Proof.
  apply (typed_line_is_published [104; 233; 8364; 128512] empty_line).
  - repeat (apply Forall_cons; split;
      [apply plain_rune_example; repeat constructor|]).
    apply List.Forall_nil.
  - discriminate.
  - discriminate.
  - right. reflexivity.
  - apply runeutil_claims.good_buffer_of. simpl. lia.
  - reflexivity.
  - reflexivity.
  - reflexivity.
Defined.


End Examples.

End readline_typing.

(** ** What sequences of operations leave alone *)

Module runeutil_sequences.
Import gort gort_facts runeutil wp_rules runeutil_facts width_facts.
Import runeutil_claims runeutil_more.

(** The operations that save text in the kill slot. *)
Definition kills (o : op) : bool :=
  match o with
  | OpDelete | OpKill | OpKillFront | OpKillWord | OpKillWordFront
  | OpErase => true
  | _ => false
  end.

(** The cursor motions. *)
Definition moves (o : op) : bool :=
  match o with
  | OpMoveToLineStart | OpMoveToLineEnd | OpMoveBackward | OpMoveForward
  | OpMoveToPrevWord | OpMoveToNextWord | OpMoveToEndWord
  | OpMoveTo _ _ _ => true
  | _ => false
  end.

Section Sequences.
Context `{GoRuntime} `{WidthModel}.

Lemma wpp_run_op_moves o rb :
  good rb -> moves o = true ->
  wpp (run_op o)
      (fun _ rb' => good rb' /\ text rb' = text rb /\
                    killed rb' = killed rb)
      (o = OpMoveToEndWord /\ at_last_letter rb) rb.
Proof.
  intros Hg Ho. destruct o; try done; simpl; unfold drop_result.
  - apply wp_wpp. wp_step. eapply wp_mono; [by apply wp_MoveToLineStart|].
    intros ? ? Hp. cbv beta in Hp. wp_steps. decompose [and] Hp.
    by split_and!.
  - apply wp_wpp. wp_step. eapply wp_mono; [by apply wp_MoveToLineEnd|].
    intros ? ? Hp. cbv beta in Hp. wp_steps. decompose [and] Hp.
    by split_and!.
  - apply wp_wpp. wp_step. eapply wp_mono; [by apply wp_MoveBackward|].
    intros ? ? Hp. cbv beta in Hp. wp_steps. decompose [and] Hp.
    by split_and!.
  - apply wp_wpp. wp_step. eapply wp_mono; [by apply wp_MoveForward|].
    intros ? ? Hp. cbv beta in Hp. wp_steps. decompose [and] Hp.
    by split_and!.
  - apply wp_wpp. wp_step. eapply wp_mono; [by apply wp_MoveToPrevWord|].
    intros ? ? Hp. cbv beta in Hp. wp_steps. decompose [and] Hp.
    by split_and!.
  - apply wp_wpp. wp_step. eapply wp_mono; [by apply wp_MoveToNextWord|].
    intros ? ? Hp. cbv beta in Hp. wp_steps. decompose [and] Hp.
    by split_and!.
  - apply wpp_bind. eapply wpp_mono; [by apply wpp_MoveToEndWord| |done].
    intros _ rb' (Hg' & Hk & Ht). by apply wp_wpp, wp_ret.
  - apply wp_wpp. wp_step. eapply wp_mono; [by apply wp_MoveTo|].
    intros ? ? Hp. cbv beta in Hp. wp_steps. decompose [and] Hp.
    by split_and!.
Qed.

Lemma wpp_run_op_killed o rb :
  good rb -> kills o = false ->
  wpp (run_op o) (fun _ rb' => good rb' /\ killed rb' = killed rb)
      (o = OpMoveToEndWord /\ at_last_letter rb) rb.
Proof.
  intros Hg Ho. destruct o; try done; simpl; unfold drop_result.
  - apply wp_wpp. eapply wp_mono; [by apply wp_WriteRunes|]. intros ? ? Hp. cbv beta in Hp. decompose [and] Hp. by split.
  - apply wp_wpp. eapply wp_mono; [by apply wp_InsertRunes|]. intros ? ? Hp. cbv beta in Hp. decompose [and] Hp. by split.
  - apply wp_wpp. wp_step. eapply wp_mono; [by apply wp_MoveToLineStart|].
    intros ? ? Hp. cbv beta in Hp. wp_steps. decompose [and] Hp. by split.
  - apply wp_wpp. wp_step. eapply wp_mono; [by apply wp_MoveToLineEnd|].
    intros ? ? Hp. cbv beta in Hp. wp_steps. decompose [and] Hp. by split.
  - apply wp_wpp. wp_step. eapply wp_mono; [by apply wp_MoveBackward|].
    intros ? ? Hp. cbv beta in Hp. wp_steps. decompose [and] Hp. by split.
  - apply wp_wpp. wp_step. eapply wp_mono; [by apply wp_MoveForward|].
    intros ? ? Hp. cbv beta in Hp. wp_steps. decompose [and] Hp. by split.
  - apply wp_wpp. wp_step. eapply wp_mono; [by apply wp_MoveToPrevWord|].
    intros ? ? Hp. cbv beta in Hp. wp_steps. decompose [and] Hp. by split.
  - apply wp_wpp. wp_step. eapply wp_mono; [by apply wp_MoveToNextWord|].
    intros ? ? Hp. cbv beta in Hp. wp_steps. decompose [and] Hp. by split.
  - apply wpp_bind. eapply wpp_mono; [by apply wpp_MoveToEndWord| |done].
    intros _ rb' (Hg' & Hk & _). by apply wp_wpp, wp_ret.
  - apply wp_wpp. wp_step. eapply wp_mono; [by apply wp_MoveTo|].
    intros ? ? Hp. cbv beta in Hp. wp_steps. decompose [and] Hp. by split.
  - apply wp_wpp. wp_step. eapply wp_mono; [by apply wp_Backspace|].
    intros ? ? Hp. cbv beta in Hp. wp_steps. decompose [and] Hp. by split.
  - apply wp_wpp. wp_step. eapply wp_mono; [by apply wp_Transpose|].
    intros ? ? Hp. cbv beta in Hp. wp_steps. decompose [and] Hp. by split.
  - apply wp_wpp. wp_step. eapply wp_mono; [by apply wp_Yank|].
    intros ? ? Hp. cbv beta in Hp. wp_steps. decompose [and] Hp. by split.
  - apply wp_wpp. eapply wp_mono; [by apply wp_Reset|].
    intros ? ? Hp. cbv beta in Hp. decompose [and] Hp. by split.
  - apply wp_wpp. eapply wp_mono; [by apply wp_Backup|]. intros ? ? Hp. cbv beta in Hp. decompose [and] Hp. by split.
  - apply wp_wpp. eapply wp_mono; [by apply wp_Restore|]. intros ? ? Hp. cbv beta in Hp. decompose [and] Hp. by split.
Qed.



End Sequences.

Section Examples.
#[local] Existing Instance doubling.
#[local] Existing Instance ascii_model.

(** Edits of "ab cd", with "xy" in the kill slot, none of which kills. *)
Definition quiet_edits : list op :=
  [OpMoveBackward; OpWriteRunes [120]; OpTranspose; OpBackspace; OpYank;
   OpMoveToPrevWord; OpInsertRunes [122]; OpBackup; OpReset; OpRestore].


(** Motions over "ab cd ef" from the blank after "ab". *)
Definition some_motions : list op :=
  [OpMoveToNextWord; OpMoveToEndWord; OpMoveForward; OpMoveTo 97 false true;
   OpMoveToLineEnd; OpMoveToPrevWord; OpMoveBackward; OpMoveToLineStart].


End Examples.

End runeutil_sequences.
